(** * Procedural snake: the curve subsystem

    A shallow embedding of [CurveGenerator.ts] (the boids-style steering
    generator) and [EndlessCurve.ts] (the sliding-window curve manager with
    parallel-transport frames), with the properties of the specification
    stated and proved over it, and of the code that drives them: the
    texture and grid code of [SnakeObject] and the tick of [Snake] in
    [Snake.ts], and the frame clock of [main.ts].

    JavaScript numbers are modelled as real numbers: every arithmetic
    operation is exact, comparisons are the comparisons of [R].  Where a
    property of the window depends on the numbers as they are computed,
    on a sum reaching a bound or on two computations of one length
    agreeing, the window code is embedded a second time, in [Binary64],
    over IEEE 754 binary64 with the arc lengths of three.js, and the
    property is settled there.  The
    functions of three.js the two files call ([Vector3], [Quaternion],
    [MathUtils.clamp]) are written out from the library's definitions; the
    numerical queries of [Curve] and [CurvePath] (arc length, point and
    tangent at a parameter) are two interfaces, [CurveLib] and
    [CurvePathLib], over which the manager is parametric. *)

From Stdlib Require Import Reals Lra Lia RNsatz ZArith Sorted.
From Stdlib Require Floats.
From stdpp Require Import base option list.
From Equations Require Import Equations.

Open Scope R_scope.

(* ================================================================== *)
(** * Part I: definitions                                              *)
(* ================================================================== *)

(** ** JavaScript numbers *)

Module Num.

(** [a < b], [a <= b], [a > b], [a >= b] as the conditions of an [if]. *)
Definition ltb (a b : R) : bool := if Rlt_dec a b then true else false.
Definition leb (a b : R) : bool := if Rle_dec a b then true else false.
Definition gtb (a b : R) : bool := ltb b a.
Definition geb (a b : R) : bool := leb b a.

(** [a === b] on numbers. *)
Definition eqb (a b : R) : bool := if Req_dec_T a b then true else false.

(** [x || 1]: a number is falsy exactly when it is zero. *)
Definition or_one (x : R) : R := if eqb x 0 then 1 else x.

(** [MathUtils.clamp(value, min, max)]. *)
Definition clamp (value lo hi : R) : R := Rmax lo (Rmin hi value).

End Num.

(** ** three.js [Vector3] and [Quaternion] *)

Module Vec3.

Record Vector3 : Type := mkV { x : R; y : R; z : R }.

Definition add (a b : Vector3) : Vector3 :=
  mkV (x a + x b) (y a + y b) (z a + z b).

Definition sub (a b : Vector3) : Vector3 :=
  mkV (x a - x b) (y a - y b) (z a - z b).

Definition multiplyScalar (a : Vector3) (s : R) : Vector3 :=
  mkV (x a * s) (y a * s) (z a * s).

(** [divideScalar(s)] is [multiplyScalar(1 / s)]. *)
Definition divideScalar (a : Vector3) (s : R) : Vector3 :=
  multiplyScalar a (1 / s).

Definition addScaledVector (a v : Vector3) (s : R) : Vector3 :=
  mkV (x a + x v * s) (y a + y v * s) (z a + z v * s).

Definition dot (a b : Vector3) : R := x a * x b + y a * y b + z a * z b.

Definition lengthSq (a : Vector3) : R := x a * x a + y a * y a + z a * z a.

Definition length (a : Vector3) : R := sqrt (lengthSq a).

(** [normalize()] is [divideScalar(length() || 1)]. *)
Definition normalize (a : Vector3) : Vector3 :=
  divideScalar a (Num.or_one (length a)).

Definition crossVectors (a b : Vector3) : Vector3 :=
  mkV (y a * z b - z a * y b) (z a * x b - x a * z b) (x a * y b - y a * x b).

(** [lerp(v, alpha)]. *)
Definition lerp (a v : Vector3) (alpha : R) : Vector3 :=
  mkV (x a + (x v - x a) * alpha) (y a + (y v - y a) * alpha)
      (z a + (z v - z a) * alpha).

(** [angleTo(v)]: the angle in [0, PI], [PI / 2] when either vector is
    zero. *)
Definition angleTo (a v : Vector3) : R :=
  let denominator := sqrt (lengthSq a * lengthSq v) in
  if Num.eqb denominator 0 then PI / 2
  else acos (Num.clamp (dot a v / denominator) (-1) 1).

Record Quaternion : Type := mkQ { qx : R; qy : R; qz : R; qw : R }.

(** [Quaternion.setFromAxisAngle(axis, angle)]; the axis is assumed to be
    normalized. *)
Definition setFromAxisAngle (axis : Vector3) (angle : R) : Quaternion :=
  let halfAngle := angle / 2 in
  let s := sin halfAngle in
  mkQ (x axis * s) (y axis * s) (z axis * s) (cos halfAngle).

(** [applyQuaternion(q)]: [v + q.w * t + cross(q.xyz, t)] with
    [t = 2 * cross(q.xyz, v)]. *)
Definition applyQuaternion (v : Vector3) (q : Quaternion) : Vector3 :=
  let tx := 2 * (qy q * z v - qz q * y v) in
  let ty := 2 * (qz q * x v - qx q * z v) in
  let tz := 2 * (qx q * y v - qy q * x v) in
  mkV (x v + qw q * tx + qy q * tz - qz q * ty)
      (y v + qw q * ty + qz q * tx - qx q * tz)
      (z v + qw q * tz + qx q * ty - qy q * tx).

Definition applyAxisAngle (v axis : Vector3) (angle : R) : Vector3 :=
  applyQuaternion v (setFromAxisAngle axis angle).

End Vec3.

Import Vec3 (Vector3, mkV, x, y, z, add, sub, multiplyScalar, divideScalar,
  addScaledVector, dot, lengthSq, normalize, crossVectors, lerp, angleTo,
  applyAxisAngle).

(** [CubicBezierCurve3]: the four control points of a segment. *)
Record CubicBezierCurve3 : Type :=
  mkCurve { v0 : Vector3; v1 : Vector3; v2 : Vector3; v3 : Vector3 }.

(** ** The numerical queries of three.js curves *)

(** What the manager asks of a segment: its arc length
    ([curve.getLength()]) and its tangent at an arc-length parameter
    ([curve.getTangentAt(t)], numerical differentiation). *)
Class CurveLib : Type := {
  Curve_getLength : CubicBezierCurve3 -> R;
  Curve_getTangentAt : CubicBezierCurve3 -> R -> Vector3
}.

(** What its queries ask of the whole path: the point and the tangent at an
    arc-length fraction ([this.getPointAt(u)], [this.getTangentAt(u)]),
    which three.js evaluates over the path's current list of segments.
    [None] is the query that gives no vector: [getPoint] of [CurvePath]
    answers [null] when the path has no segment, and when the parameter
    leads past the segments, and the query, or the next read of its answer,
    throws a [TypeError].  The two laws are what three.js does on a path
    without a segment and, on a path with one, for a fraction in [0, 1];
    elsewhere the interface leaves the answer to the library. *)
Class CurvePathLib : Type := {
  CurvePath_getPointAt : list CubicBezierCurve3 -> R -> option Vector3;
  CurvePath_getTangentAt : list CubicBezierCurve3 -> R -> option Vector3;
  CurvePath_empty : forall u,
    CurvePath_getPointAt [] u = None /\ CurvePath_getTangentAt [] u = None;
  CurvePath_within : forall curves u,
    curves <> [] -> 0 <= u <= 1 ->
    is_Some (CurvePath_getPointAt curves u)
    /\ is_Some (CurvePath_getTangentAt curves u)
}.

(** The constructor argument [nextCurveFn]: a closure, that is a hidden
    state and what one call does to it. *)
Class NextCurveFn : Type := {
  Closure : Type;
  call : Closure -> option Vector3 -> CubicBezierCurve3 * Closure
}.

(** ** CurveGenerator.ts: the steering generator *)

Module CurveGenerator.

(** Wander force: returns noise-based direction for organic movement. *)
Definition wanderForce (currentDir : Vector3) (noise2D : R -> R -> R)
    (noiseTime wanderStrength tiltStrength : R) : Vector3 :=
  let result := currentDir in
  (* horizontal wander *)
  let wanderNoise := noise2D noiseTime 0 in
  let wanderAngle := wanderNoise * wanderStrength in
  let up := mkV 0 1 0 in
  let result := applyAxisAngle result up wanderAngle in
  (* vertical tilt *)
  let tiltNoise := noise2D noiseTime 100 in
  let tiltAngle := tiltNoise * tiltStrength in
  let side := crossVectors up result in
  let result :=
    if Num.gtb (lengthSq side) 0.01
    then applyAxisAngle result (normalize side) tiltAngle
    else result in
  normalize result.

(** Limit turn rate: rotate toward the desired direction, capped at
    [maxRate]. *)
Definition limitTurnRate (current desired : Vector3) (maxRate : R) : Vector3 :=
  let angle := angleTo current desired in
  if Num.leb angle maxRate then desired
  else if Num.ltb angle 0.001 then current
  else
    (* rotation axis, perpendicular to both vectors *)
    let axis := crossVectors current desired in
    let axis :=
      if Num.ltb (lengthSq axis) 0.0001 then
        (* parallel / anti-parallel: any perpendicular axis *)
        let axis := mkV 0 1 0 in
        let axis := if Num.gtb (Rabs (y current)) 0.9 then mkV 1 0 0 else axis in
        normalize (crossVectors current axis)
      else normalize axis in
    applyAxisAngle current axis maxRate.

Record CurveGeneratorOptions : Type := mkOptions {
  segmentLength_min : R;
  segmentLength_max : R;
  maxTurnRate : R;
  orbitRadius : R;
  orbitWeight : R;
  wanderWeight : R;
  wanderStrength : R;
  tiltStrength : R;
  coilAmplitude : R;
  coilFrequency : R
}.

(** The defaults [createCurveGenerator] fills in. *)
Definition defaultOptions : CurveGeneratorOptions :=
  mkOptions 4 8 (PI / 6) 8 1.0 0.15 (PI / 24) (PI / 48) 3.0 0.25.

(** The state captured by the closure [nextCurve]. *)
Record Heading : Type := mkHeading {
  lastPoint : Vector3;
  lastDir : Vector3;
  noiseTime : R;
  orbitAngle : R;
  coilActivation : R
}.

Definition initialHeading : Heading :=
  mkHeading (mkV 0 0 0) (mkV 1 0 0) 0 0 0.

(** The steering-force part of [nextCurve]: the desired direction (seek
    or orbit, blended with the wander force, normalised) and the updated
    orbit phase and coil activation. *)
Definition steeringForce (options : CurveGeneratorOptions)
    (noise2D : R -> R -> R) (length noiseTime : R) (st : Heading)
    (target : option Vector3) : Vector3 * R * R :=
  let '(desiredDir, orbitAngle, coilActivation) :=
    match target with
    | Some target =>
        (* seek force *)
        let toTarget := sub target (lastPoint st) in
        let dist := Vec3.length toTarget in
        let targetDir := normalize toTarget in
        let tangent := mkV (- z targetDir) 0 (x targetDir) in
        (* update coil *)
        let isOrbiting := Num.ltb dist (orbitRadius options * 1.5) in
        let orbitAngle :=
          if isOrbiting then
            let circumference := 2 * PI * orbitRadius options in
            let arcFraction := length / circumference in
            orbitAngle st + arcFraction * 2 * PI
          else orbitAngle st in
        let coilActivation :=
          if isOrbiting then Rmin 1 (coilActivation st + 0.15)
          else Rmax 0 (coilActivation st - 0.15) in
        (* update direction *)
        let desiredDir :=
          if Num.gtb dist (orbitRadius options * 1.5) then targetDir
          else
            let radiusError := dist - orbitRadius options in
            let radialStrength := radiusError * 0.1 in
            let coilY :=
              coilAmplitude options * coilFrequency options
              * cos (coilFrequency options * orbitAngle) * coilActivation in
            let coilTangent := mkV (x tangent) coilY (z tangent) in
            normalize (addScaledVector coilTangent targetDir radialStrength) in
        (desiredDir, orbitAngle, coilActivation)
    | None =>
        (add (mkV 0 0 0) (multiplyScalar (lastDir st) (orbitWeight options)),
         orbitAngle st, coilActivation st)
    end in
  (* wander force (additive blend) *)
  let wander :=
    wanderForce (lastDir st) noise2D noiseTime
                (wanderStrength options) (tiltStrength options) in
  let wanderDelta := sub wander (lastDir st) in
  let desiredDir :=
    add desiredDir (multiplyScalar wanderDelta (wanderWeight options)) in
  (* normalise *)
  let desiredDir :=
    if Num.gtb (lengthSq desiredDir) 0.001 then normalize desiredDir
    else lastDir st in
  (desiredDir, orbitAngle, coilActivation).

(** One call of [nextCurve(target)].  The options are read at every call;
    [noise2D] is the noise function made by [createNoise2D()] and [random]
    the value [Math.random()] returns in this call. *)
Definition nextCurve (options : CurveGeneratorOptions) (noise2D : R -> R -> R)
    (random : R) (st : Heading) (target : option Vector3)
    : CubicBezierCurve3 * Heading :=
  (* segment length *)
  let length :=
    segmentLength_min options
    + random * (segmentLength_max options - segmentLength_min options) in
  (* update time *)
  let noiseTime := noiseTime st + 0.01 in
  (* steering force *)
  let '(desiredDir, orbitAngle, coilActivation) :=
    steeringForce options noise2D length noiseTime st target in
  (* bounds *)
  let newDir := limitTurnRate (lastDir st) desiredDir (maxTurnRate options) in
  (* generate *)
  let endPoint := add (lastPoint st) (multiplyScalar newDir length) in
  let turnAngle := angleTo (lastDir st) newDir in
  let turnFactor := Rmin 1 (turnAngle / (PI / 2)) in
  let controlDist := length * (0.33 + 0.34 * turnFactor) in
  let cp1 := add (lastPoint st) (multiplyScalar (lastDir st) controlDist) in
  let cp2 := sub endPoint (multiplyScalar newDir controlDist) in
  let curve := mkCurve (lastPoint st) cp1 cp2 endPoint in
  (* post update *)
  (curve, mkHeading endPoint newDir noiseTime orbitAngle coilActivation).

(** The headings the closure can hold: the initial one and whatever a call
    leaves, for any options, noise, random value and target. *)
Inductive reachable : Heading -> Prop :=
| reachable_init : reachable initialHeading
| reachable_next : forall options noise2D random st target,
    reachable st ->
    reachable (snd (nextCurve options noise2D random st target)).

(** The closure [createCurveGenerator(options)] returns: its options, its
    noise function, the values [Math.random()] is going to return, the
    number of calls so far and the heading. *)
Record GeneratorClosure : Type := mkClosure {
  options : CurveGeneratorOptions;
  noise2D : R -> R -> R;
  randoms : nat -> R;
  calls : nat;
  heading : Heading
}.

Definition createCurveGenerator (options : CurveGeneratorOptions)
    (noise2D : R -> R -> R) (randoms : nat -> R) : GeneratorClosure :=
  mkClosure options noise2D randoms 0 initialHeading.

Definition steeringGenerator : NextCurveFn := {|
  Closure := GeneratorClosure;
  call g target :=
    let '(curve, h) :=
      nextCurve (options g) (noise2D g) (randoms g (calls g)) (heading g)
                target in
    (curve, mkClosure (options g) (noise2D g) (randoms g) (S (calls g)) h)
|}.

(** A closure in working order: its heading is one the calls can leave, its
    segment lengths are positive ([0 < segmentLength.min <= max]) and
    [Math.random()] answers in [0, 1]. *)
Definition steady (g : GeneratorClosure) : Prop :=
  reachable (heading g)
  /\ 0 < segmentLength_min (options g)
  /\ segmentLength_min (options g) <= segmentLength_max (options g)
  /\ forall n, 0 <= randoms g n <= 1.

End CurveGenerator.

(** ** EndlessCurve.ts: the endless-curve manager *)

Module EndlessCurve.

Record CurveBasis : Type := mkBasis {
  position : Vector3;
  normal : Vector3;
  tangent : Vector3
}.

(** Get analytical tangent for a cubic Bezier curve: the exact derivative
    at [t = 0] and [t = 1], the library's numerical one inside. *)
Definition getAnalyticalTangent {lib : CurveLib} (curve : CubicBezierCurve3) (t : R)
    : Vector3 :=
  if Num.eqb t 0 then normalize (sub (v1 curve) (v0 curve))
  else if Num.eqb t 1 then normalize (sub (v3 curve) (v2 curve))
  else normalize (Curve_getTangentAt curve t).

Record FrameCache : Type := mkCache {
  normals : list Vector3;
  uValues : list R
}.

Definition samplesPerCurve : nat := 10.

(** [array[i]] for an integer [i]: [undefined] outside the array. *)
Definition at_index {A : Type} (array : list A) (i : Z) : option A :=
  if decide (0 <= i)%Z then array !! Z.to_nat i else None.

(** A comparison with an array element is false when the element is
    [undefined]. *)
Definition holds (test : R -> bool) (element : option R) : bool :=
  match element with
  | Some v => test v
  | None => false
  end.

(** The binary search of [interpolateNormal]:
    [while (low < high - 1) { mid = floor((low + high) / 2); ... }]. *)
Equations? searchSamples (uValues : list R) (u : R) (low high : Z) : Z * Z
    by wf (Z.to_nat (high - low)) lt :=
  searchSamples uValues u low high with decide (low < high - 1)%Z := {
    | left _ =>
        let mid := ((low + high) / 2)%Z in
        if holds (fun v => Num.leb v u) (at_index uValues mid)
        then searchSamples uValues u mid high
        else searchSamples uValues u low mid
    | right _ => (low, high)
  }.
Proof.
  all: subst mid; Z.div_mod_to_equations; lia.
Qed.

Section Manager.
Context {lib : CurveLib} {path : CurvePathLib} {gen : NextCurveFn}.

Record EndlessCurve : Type := mkEndlessCurve {
  curves : list CubicBezierCurve3;
  distanceOffset : R;
  uStart : R;
  uLength : R;
  nextCurveFn : Closure;
  target : option Vector3;
  frameCache : FrameCache;
  lastNormal : Vector3
}.

(** [new EndlessCurve(nextCurveFn)]. *)
Definition constructor (nextCurveFn : Closure) : EndlessCurve :=
  mkEndlessCurve [] 0 0 1 nextCurveFn None (mkCache [] []) (mkV 0 1 0).

(** *** Public api *)

Definition setTarget (this : EndlessCurve) (target : Vector3) : EndlessCurve :=
  mkEndlessCurve (curves this) (distanceOffset this) (uStart this)
    (uLength this) (nextCurveFn this) (Some target) (frameCache this)
    (lastNormal this).

(** *** Helpers *)

Definition localDistance (this : EndlessCurve) (globalDistance : R) : R :=
  globalDistance - distanceOffset this.

(** [CurvePath.getCurveLengths()]: the running sums of the segments' arc
    lengths.  Both places that change [curves] reset the library's
    memo [cacheLengths], so the sums are always those of the current
    list. *)
Fixpoint cumulativeLengths (sums : R) (curves : list CubicBezierCurve3)
    : list R :=
  match curves with
  | [] => []
  | curve :: rest =>
      let sums := sums + Curve_getLength curve in
      sums :: cumulativeLengths sums rest
  end.

Definition getCurveLengths (this : EndlessCurve) : list R :=
  cumulativeLengths 0 (curves this).

(** [CurvePath.getLength()]: the last running sum ([undefined] on an
    empty path, which no caller lets through). *)
Definition getLength (this : EndlessCurve) : R :=
  List.last (getCurveLengths this) 0.

Definition getLengthSafe (this : EndlessCurve) : R :=
  if decide (List.length (curves this) = 0%nat) then 0 else getLength this.

(** *** Frame computation (parallel transport) *)

(** Parallel transport: rotate the normal to stay perpendicular to the
    new tangent while minimizing rotation. *)
Definition parallelTransport (prevNormal prevTangent newTangent : Vector3)
    : Vector3 :=
  let dot_ := dot prevTangent newTangent in
  (* nearly parallel tangents: keep the normal *)
  if Num.gtb dot_ 0.9999 then prevNormal
  else
    let axis := crossVectors prevTangent newTangent in
    let axis :=
      if Num.ltb (lengthSq axis) 0.0001 then
        (* anti-parallel tangents: any perpendicular axis *)
        let axis := mkV 1 0 0 in
        let axis :=
          if Num.gtb (Rabs (dot prevTangent axis)) 0.9 then mkV 0 1 0
          else axis in
        normalize (crossVectors axis prevTangent)
      else normalize axis in
    let angle := acos (Rmax (-1) (Rmin 1 dot_)) in
    let rotatedNormal := applyAxisAngle prevNormal axis angle in
    (* project onto the plane perpendicular to the new tangent *)
    let rotatedNormal :=
      sub rotatedNormal
          (multiplyScalar newTangent (dot rotatedNormal newTangent)) in
    normalize rotatedNormal.

(** Get an arbitrary vector perpendicular to the given vector. *)
Definition getArbitraryPerpendicular (v : Vector3) : Vector3 :=
  let up := mkV 0 1 0 in
  let up := if Num.gtb (Rabs (dot v up)) 0.9 then mkV 1 0 0 else up in
  normalize (crossVectors v up).

(** The inner loop of [recalculateUValues] over the samples [i] of one
    segment; it breaks off at the end of the cache. *)
Fixpoint recalculateSamples (samples : list nat)
    (startLength curveLength totalLength : R)
    (frameIndex : nat) (uValues : list R) : nat * list R :=
  match samples with
  | [] => (frameIndex, uValues)
  | i :: samples =>
      if decide (List.length uValues <= frameIndex)%nat
      then (frameIndex, uValues)
      else
        let localU := INR i / INR samplesPerCurve in
        let uValues :=
          <[frameIndex := (startLength + curveLength * localU) / totalLength]>
            uValues in
        recalculateSamples samples startLength curveLength totalLength
                           (S frameIndex) uValues
  end.

(** The outer loop over the segments: [startLength] is the running sum
    before the segment ([0] for the first), [endLength] the one after. *)
Fixpoint recalculateCurves (curveLengths : list R)
    (startLength totalLength : R) (frameIndex : nat) (uValues : list R)
    : list R :=
  match curveLengths with
  | [] => uValues
  | endLength :: curveLengths =>
      let curveLength := endLength - startLength in
      let '(frameIndex, uValues) :=
        recalculateSamples (seq 0 (S samplesPerCurve))
          startLength curveLength totalLength frameIndex uValues in
      recalculateCurves curveLengths endLength totalLength frameIndex uValues
  end.

(** Recalculate u values for all cached frames based on the current
    curve lengths. *)
Definition recalculateUValues (this : EndlessCurve) : EndlessCurve :=
  if decide (List.length (curves this) = 0%nat) then this
  else
    let totalLength := getLength this in
    let curveLengths := getCurveLengths this in
    let uValues :=
      recalculateCurves curveLengths 0 totalLength 0
                        (uValues (frameCache this)) in
    mkEndlessCurve (curves this) (distanceOffset this) (uStart this)
      (uLength this) (nextCurveFn this) (target this)
      (mkCache (normals (frameCache this)) uValues) (lastNormal this).

(** The sampling loop of [computeFramesForCurve]. *)
Fixpoint sampleFrames (curve : CubicBezierCurve3) (samples : list nat)
    (prevNormal prevTangent : Vector3) (cache : FrameCache)
    : FrameCache * Vector3 * Vector3 :=
  match samples with
  | [] => (cache, prevNormal, prevTangent)
  | i :: samples =>
      let localU := INR i / INR samplesPerCurve in
      let tangent := getAnalyticalTangent curve localU in
      let normal := parallelTransport prevNormal prevTangent tangent in
      let cache := mkCache (normals cache ++ [normal]) (uValues cache ++ [0]) in
      sampleFrames curve samples normal tangent cache
  end.

(** Compute parallel transport frames for a curve segment.  [None] is
    the [TypeError] of reading a control point of [undefined], when the
    index is outside [curves]. *)
Definition computeFramesForCurve (this : EndlessCurve) (curveIndex : nat)
    : option EndlessCurve :=
  curve ← curves this !! curveIndex;
  let prevNormal := lastNormal this in
  '(prevNormal, prevTangent) ←
    (if decide (0 < curveIndex)%nat then
       prevCurve ← curves this !! (curveIndex - 1)%nat;
       Some (prevNormal, getAnalyticalTangent prevCurve 1)
     else
       let prevTangent := getAnalyticalTangent curve 0 in
       Some (getArbitraryPerpendicular prevTangent, prevTangent));
  let '(cache, prevNormal, _) :=
    sampleFrames curve (seq 0 (S samplesPerCurve)) prevNormal prevTangent
                 (frameCache this) in
  Some (recalculateUValues
          (mkEndlessCurve (curves this) (distanceOffset this) (uStart this)
             (uLength this) (nextCurveFn this) (target this) cache
             prevNormal)).

(** *** Curve management *)

(** Add a curve and compute parallel transport frames for it. *)
Definition addCurve (this : EndlessCurve) (curve : CubicBezierCurve3)
    : option EndlessCurve :=
  let curveIndex := List.length (curves this) in
  let this :=
    mkEndlessCurve (curves this ++ [curve]) (distanceOffset this)
      (uStart this) (uLength this) (nextCurveFn this) (target this)
      (frameCache this) (lastNormal this) in
  computeFramesForCurve this curveIndex.

(** *** Frame interpolation *)

(** Interpolate the normal from the frame cache at parameter [u].
    [None] is the [TypeError] of calling a method of [undefined] or of
    [null]. *)
Definition interpolateNormal (this : EndlessCurve) (u : R) : option Vector3 :=
  let cache := frameCache this in
  if decide (List.length (normals cache) = 0%nat) then
    (* fallback: an arbitrary perpendicular *)
    tangent ← CurvePath_getTangentAt (curves this) u;
    let tangent := normalize tangent in
    Some (getArbitraryPerpendicular tangent)
  else if decide (List.length (normals cache) = 1%nat) then
    normals cache !! 0%nat
  else
    let low := 0%Z in
    let high := (Z.of_nat (List.length (uValues cache)) - 1)%Z in
    (* edge cases *)
    if holds (fun v => Num.leb u v) (uValues cache !! 0%nat) then
      normals cache !! 0%nat
    else if holds (fun v => Num.geb u v) (at_index (uValues cache) high) then
      at_index (normals cache) high
    else
      let '(low, high) := searchSamples (uValues cache) u low high in
      (* linear interpolation factor *)
      let uLow := at_index (uValues cache) low in
      let uHigh := at_index (uValues cache) high in
      let t :=
        match uLow, uHigh with
        | Some uLow, Some uHigh =>
            if Num.gtb uHigh uLow then (u - uLow) / (uHigh - uLow) else 0
        | _, _ => 0
        end in
      nLow ← at_index (normals cache) low;
      nHigh ← at_index (normals cache) high;
      Some (normalize (lerp nLow nHigh t)).

(** *** Basis computation *)

(** Get the position, normal, and tangent at parameter [u].  [None] is
    the [TypeError] of a query of the path that gives no vector, or the one
    of [interpolateNormal]. *)
Definition getBasisAt (this : EndlessCurve) (u : R) : option CurveBasis :=
  position ← CurvePath_getPointAt (curves this) u;
  tangent ← CurvePath_getTangentAt (curves this) u;
  let tangent := normalize tangent in
  normal ← interpolateNormal this u;
  Some (mkBasis position normal tangent).

(** *** Curve stream management *)

(** [fillLength(length)].  The recursion of the source has no bound; the
    model counts the segments it may still generate and answers [None]
    when the count runs out before the guard holds. *)
Fixpoint fillLength (fuel : nat) (this : EndlessCurve) (length : R)
    : option EndlessCurve :=
  let localLen := localDistance this length in
  let currentLen := getLengthSafe this in
  if Num.ltb localLen currentLen then Some this
  else
    match fuel with
    | O => None
    | S fuel =>
        let '(newCurve, closure) := call (nextCurveFn this) (target this) in
        let this :=
          mkEndlessCurve (curves this) (distanceOffset this) (uStart this)
            (uLength this) closure (target this) (frameCache this)
            (lastNormal this) in
        this ← addCurve this newCurve;
        fillLength fuel this length
    end.

(** The loop of [removeCurvesBefore]: counts the leading segments whose
    running sum is at most [p] and remembers the last such sum. *)
Fixpoint countRemoved (p : R) (lengths : list R) (remove : nat)
    (distanceOffset : R) : nat * R :=
  match lengths with
  | [] => (remove, distanceOffset)
  | l :: lengths =>
      if Num.ltb p l then (remove, distanceOffset)
      else countRemoved p lengths (S remove) l
  end.

Definition removeCurvesBefore (this : EndlessCurve) (position : R)
    : EndlessCurve :=
  let p := localDistance this position in
  let lengths := getCurveLengths this in
  let '(remove, distanceOffset_) := countRemoved p lengths 0%nat 0 in
  if decide (remove = 0%nat) then this
  else
    (* remove the corresponding frames from the cache *)
    let framesToRemove := (remove * (samplesPerCurve + 1))%nat in
    recalculateUValues
      (mkEndlessCurve (drop remove (curves this))
         (distanceOffset this + distanceOffset_) (uStart this)
         (uLength this) (nextCurveFn this) (target this)
         (mkCache (drop framesToRemove (normals (frameCache this)))
                  (drop framesToRemove (uValues (frameCache this))))
         (lastNormal this)).

Definition configureStartEnd (fuel : nat) (this : EndlessCurve)
    (position length : R) : option EndlessCurve :=
  this ← fillLength fuel this (position + length);
  let this := removeCurvesBefore this position in
  let localPos := localDistance this position in
  let totalLen := getLengthSafe this in
  Some (mkEndlessCurve (curves this) (distanceOffset this)
          (if Num.gtb totalLen 0 then localPos / totalLen else 0)
          (if Num.gtb totalLen 0 then length / totalLen else 1)
          (nextCurveFn this) (target this) (frameCache this)
          (lastNormal this)).

(** *** Local coordinate system *)

Definition getPointAtLocal (this : EndlessCurve) (u : R) : option Vector3 :=
  let u2 := uStart this + uLength this * u in
  CurvePath_getPointAt (curves this) (Rmin u2 1).

Definition getBasisAtLocal (this : EndlessCurve) (u : R) : option CurveBasis :=
  let u2 := uStart this + uLength this * u in
  getBasisAt this (Rmin u2 1).

(** *** Vocabulary of the properties *)

(** The frame cache holds one block of [samplesPerCurve + 1] samples per
    segment, in both of its sequences. *)
Definition aligned (this : EndlessCurve) : Prop :=
  List.length (normals (frameCache this))
    = (List.length (curves this) * (samplesPerCurve + 1))%nat
  /\ List.length (uValues (frameCache this))
    = (List.length (curves this) * (samplesPerCurve + 1))%nat.

(** The summed arc length of a list of segments. *)
Fixpoint arcLength (curves : list CubicBezierCurve3) : R :=
  match curves with
  | [] => 0
  | curve :: rest => Curve_getLength curve + arcLength rest
  end.

(** The first [n] segments a closure emits for a fixed target. *)
Fixpoint emitted (n : nat) (closure : Closure) (target : option Vector3)
    : list CubicBezierCurve3 :=
  match n with
  | O => []
  | S n =>
      let '(curve, closure) := call closure target in
      curve :: emitted n closure target
  end.

(** The closure after [n] calls with a fixed target. *)
Fixpoint advanced (n : nat) (closure : Closure) (target : option Vector3)
    : Closure :=
  match n with
  | O => closure
  | S n => advanced n (call closure target).2 target
  end.

(** A sequence of [configureStartEnd(position, length)] calls; the
    states after each call. *)
Fixpoint configureAll (fuel : nat) (this : EndlessCurve)
    (calls : list (R * R)) : option (list EndlessCurve) :=
  match calls with
  | [] => Some []
  | (position, length) :: calls =>
      this ← configureStartEnd fuel this position length;
      rest ← configureAll fuel this calls;
      Some (this :: rest)
  end.

(** The states the public methods can leave a manager in. *)
Inductive built : EndlessCurve -> Prop :=
| built_constructor : forall nextCurveFn, built (constructor nextCurveFn)
| built_setTarget : forall this target,
    built this -> built (setTarget this target)
| built_addCurve : forall this curve this',
    built this -> addCurve this curve = Some this' -> built this'
| built_fillLength : forall fuel this length this',
    built this -> fillLength fuel this length = Some this' -> built this'
| built_removeCurvesBefore : forall this position,
    built this -> built (removeCurvesBefore this position)
| built_configureStartEnd : forall fuel this position length this',
    built this -> configureStartEnd fuel this position length = Some this' ->
    built this'.

(** The states of a manager made over the closure [start] that gets its
    segments from its generator only: [built] without [addCurve]. *)
Inductive driven (start : Closure) : EndlessCurve -> Prop :=
| driven_constructor : driven start (constructor start)
| driven_setTarget : forall this target,
    driven start this -> driven start (setTarget this target)
| driven_fillLength : forall fuel this length this',
    driven start this -> fillLength fuel this length = Some this' ->
    driven start this'
| driven_removeCurvesBefore : forall this position,
    driven start this -> driven start (removeCurvesBefore this position)
| driven_configureStartEnd : forall fuel this position length this',
    driven start this ->
    configureStartEnd fuel this position length = Some this' ->
    driven start this'.

(** Two consecutive segments join smoothly when the exact tangent at the end
    of the first and the exact tangent at the start of the second are
    parallel as far as [parallelTransport] can tell. *)
Definition joined (prev next : CubicBezierCurve3) : Prop :=
  0.9999 < dot (getAnalyticalTangent prev 1) (getAnalyticalTangent next 0).

(** Every segment of [new] joins the one before it, the first of them the
    segment [prev] if there is one. *)
Fixpoint joinedChain (prev : option CubicBezierCurve3)
    (new : list CubicBezierCurve3) : Prop :=
  match new with
  | [] => True
  | curve :: rest =>
      match prev with
      | Some prev => joined prev curve
      | None => True
      end
      /\ joinedChain (Some curve) rest
  end.

(** The states the public methods leave when every appended segment joins
    the last segment of the list it is appended to. *)
Inductive smoothlyBuilt : EndlessCurve -> Prop :=
| smoothly_constructor : forall nextCurveFn,
    smoothlyBuilt (constructor nextCurveFn)
| smoothly_setTarget : forall this target,
    smoothlyBuilt this -> smoothlyBuilt (setTarget this target)
| smoothly_addCurve : forall this curve this',
    smoothlyBuilt this ->
    joinedChain (last (curves this)) [curve] ->
    addCurve this curve = Some this' -> smoothlyBuilt this'
| smoothly_fillLength : forall fuel this length this',
    smoothlyBuilt this ->
    (forall n, joinedChain (last (curves this))
                 (emitted n (nextCurveFn this) (target this))) ->
    fillLength fuel this length = Some this' -> smoothlyBuilt this'
| smoothly_removeCurvesBefore : forall this position,
    smoothlyBuilt this -> smoothlyBuilt (removeCurvesBefore this position)
| smoothly_configureStartEnd : forall fuel this position length this',
    smoothlyBuilt this ->
    (forall n, joinedChain (last (curves this))
                 (emitted n (nextCurveFn this) (target this))) ->
    configureStartEnd fuel this position length = Some this' ->
    smoothlyBuilt this'.

(** The cached normal at the last sample of segment [i] is the cached
    normal at the first sample of segment [i + 1]. *)
Definition continuousFrames (this : EndlessCurve) : Prop :=
  forall i, (S i < List.length (curves this))%nat ->
  exists normal,
    normals (frameCache this) !! (i * (samplesPerCurve + 1) + samplesPerCurve)%nat
      = Some normal
    /\ normals (frameCache this) !! (S i * (samplesPerCurve + 1))%nat
      = Some normal.

(** The frame cache is aligned, ends with the stored last normal and is
    continuous across the segment boundaries. *)
Definition framed (this : EndlessCurve) : Prop :=
  aligned this
  /\ (curves this <> [] ->
      last (normals (frameCache this)) = Some (lastNormal this))
  /\ continuousFrames this.

(** The cached u value of sample [i] of segment [k] is the arc length up
    to the sample over the arc length of the whole list. *)
Definition parameterized (this : EndlessCurve) : Prop :=
  forall k i curve,
    curves this !! k = Some curve -> (i <= samplesPerCurve)%nat ->
    uValues (frameCache this) !! (k * (samplesPerCurve + 1) + i)%nat
    = Some ((arcLength (take k (curves this))
             + Curve_getLength curve * (INR i / INR samplesPerCurve))
            / arcLength (curves this)).

(** A unit vector, or the zero vector, which [normalize] leaves as it is. *)
Definition unitOrZero (v : Vector3) : Prop :=
  lengthSq v = 1 \/ v = mkV 0 0 0.

End Manager.

End EndlessCurve.


(** ** Snake.ts: the snake that rides the curve *)

Module Snake.
Import EndlessCurve.

(** The four writes of one texel into a [Float32Array]; a write outside
    the array is dropped.  The stored values are exact, like every number
    of the model. *)
Definition writeTexel (data : list R) (i : nat) (r g b a : R) : list R :=
  let idx := (i * 4)%nat in
  let data := <[idx := r]> data in
  let data := <[(idx + 1)%nat := g]> data in
  let data := <[(idx + 2)%nat := b]> data in
  <[(idx + 3)%nat := a]> data.

(** The texel [i] of a texture's data: its four numbers, if they are all
    inside the array. *)
Definition texelAt (data : list R) (i : nat) : option (R * R * R * R) :=
  r ← data !! (i * 4)%nat;
  g ← data !! (i * 4 + 1)%nat;
  b ← data !! (i * 4 + 2)%nat;
  a ← data !! (i * 4 + 3)%nat;
  Some (r, g, b, a).

(** The inner loop of [createGeometry] over the columns of one row. *)
Fixpoint createColumns (cols : list nat) (row radialSegments : nat) (u : R)
    (spineUs thetas : list R) : list R * list R :=
  match cols with
  | [] => (spineUs, thetas)
  | col :: cols =>
      let angle := INR col / INR radialSegments * PI * 2 in
      let idx := (row * radialSegments + col)%nat in
      createColumns cols row radialSegments u
        (<[idx := u]> spineUs) (<[idx := angle]> thetas)
  end.

(** The outer loop of [createGeometry] over the rows. *)
Fixpoint createRows (rows : list nat) (spineSegments radialSegments : nat)
    (spineUs thetas : list R) : list R * list R :=
  match rows with
  | [] => (spineUs, thetas)
  | row :: rows =>
      let u :=
        if decide (1 < spineSegments)%nat
        then INR row / (INR spineSegments - 1) else 0 in
      let '(spineUs, thetas) :=
        createColumns (seq 0 radialSegments) row radialSegments u
          spineUs thetas in
      createRows rows spineSegments radialSegments spineUs thetas
  end.

Section SnakeObject.
Context {lib : CurveLib} {path : CurvePathLib} {gen : NextCurveFn}.

(** The fields of [SnakeObject] that [update] and the texture code read
    and write: the shared curve manager, the data of the two textures,
    the distance travelled, the sizes, [config.length], [config.speed]
    and the uniform [u_timeOffset]. *)
Record SnakeObject : Type := mkSnakeObject {
  curve : option EndlessCurve;
  positionTex : option (list R);
  normalTex : option (list R);
  distance : R;
  spineSegments : option nat;
  radialSegments : option nat;
  texturePoints : option nat;
  config_length : R;
  config_speed : R;
  config_spineSegments : nat;
  config_radialSegments : nat;
  u_timeOffset : R
}.

(** [new SnakeObject()]. *)
Definition newSnakeObject : SnakeObject :=
  mkSnakeObject None None None 0 None None None 10 16 100 8 0.

(** [createDataTexture()]: the data of a texture of [texturePoints]
    texels, all zero. *)
Definition createDataTexture (this : SnakeObject) : list R :=
  replicate (default 0%nat (texturePoints this) * 4) 0.

(** [createGeometry()]: the two per-instance attributes [spineU] and
    [theta]. *)
Definition createGeometry (this : SnakeObject) : list R * list R :=
  let spineSegments := default 0%nat (spineSegments this) in
  let radialSegments := default 0%nat (radialSegments this) in
  let instanceCount := (spineSegments * radialSegments)%nat in
  createRows (seq 0 spineSegments) spineSegments radialSegments
    (replicate instanceCount 0) (replicate instanceCount 0).

Record SnakeOptions : Type := mkSnakeOptions {
  options_length : option R;
  options_speed : option R;
  options_spineSegments : option nat;
  options_radialSegments : option nat;
  options_texturePoints : option nat
}.

(** [buildScene(curve, options)], as far as the fields above go. *)
Definition buildScene (this : SnakeObject) (curve : EndlessCurve)
    (options : SnakeOptions) : SnakeObject :=
  let config_length := default 10 (options_length options) in
  let config_speed := default 2 (options_speed options) in
  let config_spineSegments := default 100%nat (options_spineSegments options) in
  let config_radialSegments := default 8%nat (options_radialSegments options) in
  let texturePoints := default 100%nat (options_texturePoints options) in
  let this :=
    mkSnakeObject (Some curve) (positionTex this) (normalTex this)
      (distance this) (Some config_spineSegments) (Some config_radialSegments)
      (Some texturePoints) config_length config_speed config_spineSegments
      config_radialSegments (u_timeOffset this) in
  mkSnakeObject (Some curve) (Some (createDataTexture this))
    (Some (createDataTexture this)) (distance this) (spineSegments this)
    (radialSegments this) (Some texturePoints) config_length config_speed
    config_spineSegments config_radialSegments (u_timeOffset this).

(** The loop of [updateTextures] over the texels.  [None] is the
    [TypeError] of [getBasisAtLocal]. *)
Fixpoint updateTexels (curve : EndlessCurve) (texturePoints : nat)
    (texels : list nat) (posData normData : list R)
    : option (list R * list R) :=
  match texels with
  | [] => Some (posData, normData)
  | i :: texels =>
      let u := INR i / (INR texturePoints - 1) in
      basis ← getBasisAtLocal curve u;
      let posData :=
        writeTexel posData i (x (position basis)) (y (position basis))
          (z (position basis)) 1 in
      (* encode normals as 0-1 range *)
      let normData :=
        writeTexel normData i (x (normal basis) * 0.5 + 0.5)
          (y (normal basis) * 0.5 + 0.5) (z (normal basis) * 0.5 + 0.5) 1 in
      updateTexels curve texturePoints texels posData normData
  end.

Definition updateTextures (this : SnakeObject) : option SnakeObject :=
  match curve this, positionTex this, normalTex this with
  | Some curve_, Some posData, Some normData =>
      let texturePoints_ := default 0%nat (texturePoints this) in
      '(posData, normData) ←
        updateTexels curve_ texturePoints_ (seq 0 texturePoints_)
          posData normData;
      Some (mkSnakeObject (curve this) (Some posData) (Some normData)
              (distance this) (spineSegments this) (radialSegments this)
              (texturePoints this) (config_length this) (config_speed this)
              (config_spineSegments this) (config_radialSegments this)
              (u_timeOffset this))
  | _, _, _ => Some this
  end.

(** [update(delta)].  [fuel] bounds the segments the fill may generate;
    [None] is a fill that runs out of it, or the [TypeError] of
    [updateTextures]. *)
Definition update (fuel : nat) (this : SnakeObject) (delta : R)
    : option SnakeObject :=
  let distance_ := distance this + delta * config_speed this in
  curve_ ←
    match curve this with
    | Some curve_ =>
        curve_ ← configureStartEnd fuel curve_ distance_ (config_length this);
        Some (Some curve_)
    | None => Some None
    end;
  this ←
    updateTextures
      (mkSnakeObject curve_ (positionTex this) (normalTex this) distance_
         (spineSegments this) (radialSegments this) (texturePoints this)
         (config_length this) (config_speed this) (config_spineSegments this)
         (config_radialSegments this) (u_timeOffset this));
  Some (mkSnakeObject (curve this) (positionTex this) (normalTex this)
          (distance this) (spineSegments this) (radialSegments this)
          (texturePoints this) (config_length this) (config_speed this)
          (config_spineSegments this) (config_radialSegments this)
          (distance this * 0.1)).

(** [Snake.update]: the manager is the object the snake holds, so the
    target set here is the one the fill of [update] steers to. *)
Definition Snake_update (fuel : nat) (this : SnakeObject)
    (targetSpherePosition : Vector3) (delta : R) : option SnakeObject :=
  let this :=
    mkSnakeObject
      (match curve this with
       | Some curve_ => Some (setTarget curve_ targetSpherePosition)
       | None => None
       end)
      (positionTex this) (normalTex this) (distance this)
      (spineSegments this) (radialSegments this) (texturePoints this)
      (config_length this) (config_speed this) (config_spineSegments this)
      (config_radialSegments this) (u_timeOffset this) in
  update fuel this delta.

(** *** Vocabulary of the properties *)

(** A snake in working order: it holds a manager in a state the public
    methods leave, whose offset is not past the distance travelled; its
    two textures have [texturePoints] texels, at least two; its length and
    speed are not negative. *)
Definition riding (this : SnakeObject) : Prop :=
  exists curve_ posData normData texturePoints_,
    curve this = Some curve_
    /\ built curve_
    /\ distanceOffset curve_ <= distance this
    /\ positionTex this = Some posData
    /\ normalTex this = Some normData
    /\ texturePoints this = Some texturePoints_
    /\ (2 <= texturePoints_)%nat
    /\ List.length posData = (texturePoints_ * 4)%nat
    /\ List.length normData = (texturePoints_ * 4)%nat
    /\ 0 <= config_length this
    /\ 0 <= config_speed this.

End SnakeObject.

End Snake.

(** ** main.ts: the frame clock *)

Module App.


End App.

(** ** Concrete libraries and generators *)

Module Straight.

(** Straight segments: the arc length is the chord, the tangent the
    direction of the chord. *)
Definition straightSegments : CurveLib := {|
  Curve_getLength curve := Vec3.length (sub (v3 curve) (v0 curve));
  Curve_getTangentAt curve _ := normalize (sub (v3 curve) (v0 curve))
|}.

(** The straight segment from [from] to [to], control points at the
    thirds. *)
Definition segment (from to : Vector3) : CubicBezierCurve3 :=
  mkCurve from (lerp from to (1 / 3)) (lerp from to (2 / 3)) to.

(** A generator of straight segments laid end to end along the x axis,
    the [n]-th of length [len n]. *)
Definition alongX (len : nat -> R) : NextCurveFn := {|
  Closure := nat * R;
  call closure _ :=
    let '(n, from) := closure in
    (segment (mkV from 0 0) (mkV (from + len n) 0 0),
     (S n, from + len n))
|}.

(** Segments of length [6] each. *)
Definition sixes : NextCurveFn := alongX (fun _ => 6).

(** Segments of lengths [1/2], [1/4], [1/8], ...: every one is longer than
    zero, all of them together are shorter than [1]. *)
Definition halves : NextCurveFn := alongX (fun n => (/ 2) ^ S n).

(** A segment along the x axis, one that goes on from its end in the same
    direction, and one that leaves its end at a right angle, along the z
    axis. *)
Definition ahead : CubicBezierCurve3 := segment (mkV 0 0 0) (mkV 3 0 0).
Definition further : CubicBezierCurve3 := segment (mkV 3 0 0) (mkV 6 0 0).
Definition turned : CubicBezierCurve3 := segment (mkV 3 0 0) (mkV 3 0 3).

(** A path that is one straight line from the start of its first segment
    to the end of its last; no vector without a segment, or for a fraction
    outside [0, 1]. *)
Definition straightPoint (curves : list CubicBezierCurve3) (u : R)
    : option Vector3 :=
  match curves, last curves with
  | first :: _, Some final =>
      if Num.leb 0 u && Num.leb u 1 then Some (lerp (v0 first) (v3 final) u)
      else None
  | _, _ => None
  end.

Definition straightTangent (curves : list CubicBezierCurve3) (u : R)
    : option Vector3 :=
  match curves, last curves with
  | first :: _, Some final =>
      if Num.leb 0 u && Num.leb u 1
      then Some (normalize (sub (v3 final) (v0 first)))
      else None
  | _, _ => None
  end.

Definition straightPath : CurvePathLib.
Proof.
  refine {| CurvePath_getPointAt := straightPoint;
            CurvePath_getTangentAt := straightTangent |}.
  - intros u. split; reflexivity.
  - intros curves u Hne [H0 H1]. unfold straightPoint, straightTangent.
    destruct curves as [|first rest]; [contradiction|].
    destruct (last (first :: rest)) as [final|] eqn:Hlast.
    + unfold Num.leb.
      destruct (Rle_dec 0 u); [|contradiction].
      destruct (Rle_dec u 1); [|contradiction].
      split; eexists; reflexivity.
    + apply last_None in Hlast. discriminate.
Defined.

End Straight.

(** ** The manager over the steering generator *)

Module Steering.
Import CurveGenerator EndlessCurve.

(** The manager and its generator agree: the list ends along the stored
    direction of the generator. *)
Definition linked {lib : CurveLib}
    (this : EndlessCurve (gen := steeringGenerator)) : Prop :=
  steady (nextCurveFn this)
  /\ forall curve, last (curves this) = Some curve ->
       getAnalyticalTangent curve 1 = lastDir (heading (nextCurveFn this)).

End Steering.

(** ** The window of the manager in binary64 *)

Module Binary64.
Import PrimFloat SpecFloat FloatOps.
Local Open Scope float_scope.

(** The window code of [EndlessCurve.ts] ([fillLength],
    [removeCurvesBefore], [configureStartEnd]) once more, now with the
    numbers JavaScript computes with: IEEE 754 binary64, every operation
    rounded to nearest, ties to even.  Arc lengths are those of three.js:
    [Curve.getLength()] sums the [arcLengthDivisions = 200] chords between
    the points [getPoint(p / 200)] of the cubic Bézier segment, and
    [CurvePath.getCurveLengths()] keeps their running sums.

    The frame cache and [lastNormal] are left out of this state: the three
    methods write them ([addCurve], [removeCurvesBefore]) and never read
    them; their contents are the subject of the model above. *)

Record Vector3 : Type := mkV { x : float; y : float; z : float }.

Record CubicBezierCurve3 : Type := mkCurve {
  v0 : Vector3; v1 : Vector3; v2 : Vector3; v3 : Vector3
}.

(** *** three.js: [Interpolations.js], [CubicBezierCurve3], [Curve] *)

Definition CubicBezierP0 (t p : float) : float :=
  let k := 1 - t in k * k * k * p.

Definition CubicBezierP1 (t p : float) : float :=
  let k := 1 - t in 3 * k * k * t * p.

Definition CubicBezierP2 (t p : float) : float :=
  3 * (1 - t) * t * t * p.

Definition CubicBezierP3 (t p : float) : float :=
  t * t * t * p.

Definition CubicBezier (t p0 p1 p2 p3 : float) : float :=
  CubicBezierP0 t p0 + CubicBezierP1 t p1 + CubicBezierP2 t p2
  + CubicBezierP3 t p3.

(** [CubicBezierCurve3.getPoint(t)]. *)
Definition getPoint (curve : CubicBezierCurve3) (t : float) : Vector3 :=
  mkV (CubicBezier t (x (v0 curve)) (x (v1 curve)) (x (v2 curve))
         (x (v3 curve)))
      (CubicBezier t (y (v0 curve)) (y (v1 curve)) (y (v2 curve))
         (y (v3 curve)))
      (CubicBezier t (z (v0 curve)) (z (v1 curve)) (z (v2 curve))
         (z (v3 curve))).

(** [Vector3.distanceTo(v)]: the square root of [distanceToSquared(v)]. *)
Definition distanceTo (this v : Vector3) : float :=
  let dx := x this - x v in
  let dy := y this - y v in
  let dz := z this - z v in
  sqrt (dx * dx + dy * dy + dz * dz).

(** [Vector3.lerp(v, alpha)]. *)
Definition lerp (this v : Vector3) (alpha : float) : Vector3 :=
  mkV (x this + (x v - x this) * alpha)
      (y this + (y v - y this) * alpha)
      (z this + (z v - z this) * alpha).

(** The loop counter [p] of [getLengths] as a number. *)
Definition ofNat (p : nat) : float := of_uint63 (Uint63.of_nat p).

Definition arcLengthDivisions : nat := 200.

(** The loop of [Curve.getLengths(divisions)], for [p] from [1] to
    [divisions]; of the sums it pushes, the one left in [sum] at the end is
    the last. *)
Fixpoint getLengthsLoop (curve : CubicBezierCurve3) (ps : list nat)
    (last : Vector3) (sum : float) : float :=
  match ps with
  | [] => sum
  | p :: ps =>
      let current := getPoint curve (ofNat p / ofNat arcLengthDivisions) in
      let sum := sum + distanceTo current last in
      getLengthsLoop curve ps current sum
  end.

(** [Curve.getLength()]: the last entry of [getLengths()]. *)
Definition Curve_getLength (curve : CubicBezierCurve3) : float :=
  getLengthsLoop curve (seq 1 arcLengthDivisions) (getPoint curve 0) 0.

(** *** The manager *)

Class NextCurveFn : Type := {
  Closure : Type;
  call : Closure -> option Vector3 -> CubicBezierCurve3 * Closure
}.

Section Manager.
Context {gen : NextCurveFn}.

Record EndlessCurve : Type := mkEndlessCurve {
  curves : list CubicBezierCurve3;
  distanceOffset : float;
  uStart : float;
  uLength : float;
  nextCurveFn : Closure;
  target : option Vector3
}.

Definition constructor (nextCurveFn : Closure) : EndlessCurve :=
  mkEndlessCurve [] 0 0 1 nextCurveFn None.

Definition localDistance (this : EndlessCurve) (globalDistance : float)
    : float :=
  globalDistance - distanceOffset this.

(** [CurvePath.getCurveLengths()]. *)
Fixpoint cumulativeLengths (sums : float)
    (curves : list CubicBezierCurve3) : list float :=
  match curves with
  | [] => []
  | curve :: rest =>
      let sums := sums + Curve_getLength curve in
      sums :: cumulativeLengths sums rest
  end.

Definition getCurveLengths (this : EndlessCurve) : list float :=
  cumulativeLengths 0 (curves this).

Definition getLength (this : EndlessCurve) : float :=
  List.last (getCurveLengths this) 0.

Definition getLengthSafe (this : EndlessCurve) : float :=
  if decide (List.length (curves this) = 0%nat) then 0 else getLength this.

Definition addCurve (this : EndlessCurve) (curve : CubicBezierCurve3)
    : EndlessCurve :=
  mkEndlessCurve (curves this ++ [curve]) (distanceOffset this)
    (uStart this) (uLength this) (nextCurveFn this) (target this).

(** One round of the recursion of [fillLength]: a call of the generator
    and [addCurve] of what it returns. *)
Definition extend (this : EndlessCurve) : EndlessCurve :=
  let '(newCurve, closure) := call (nextCurveFn this) (target this) in
  let this :=
    mkEndlessCurve (curves this) (distanceOffset this) (uStart this)
      (uLength this) closure (target this) in
  addCurve this newCurve.

(** The state after [n] rounds. *)
Fixpoint extended (n : nat) (this : EndlessCurve) : EndlessCurve :=
  match n with
  | O => this
  | S n => extended n (extend this)
  end.

(** The guard of [fillLength(length)]: [localLen < currentLen]. *)
Definition filled (this : EndlessCurve) (length : float) : bool :=
  let localLen := localDistance this length in
  let currentLen := getLengthSafe this in
  localLen <? currentLen.

(** [fillLength(length)], with a count of the segments it may still
    generate as in the model above. *)
Fixpoint fillLength (fuel : nat) (this : EndlessCurve) (length : float)
    : option EndlessCurve :=
  if filled this length then Some this
  else
    match fuel with
    | O => None
    | S fuel => fillLength fuel (extend this) length
    end.

Fixpoint countRemoved (p : float) (lengths : list float) (remove : nat)
    (distanceOffset : float) : nat * float :=
  match lengths with
  | [] => (remove, distanceOffset)
  | l :: lengths =>
      if p <? l then (remove, distanceOffset)
      else countRemoved p lengths (S remove) l
  end.

Definition removeCurvesBefore (this : EndlessCurve) (position : float)
    : EndlessCurve :=
  let p := localDistance this position in
  let lengths := getCurveLengths this in
  let '(remove, distanceOffset_) := countRemoved p lengths 0%nat 0 in
  if decide (remove = 0%nat) then this
  else
    mkEndlessCurve (drop remove (curves this))
      (distanceOffset this + distanceOffset_) (uStart this)
      (uLength this) (nextCurveFn this) (target this).

Definition configureStartEnd (fuel : nat) (this : EndlessCurve)
    (position length : float) : option EndlessCurve :=
  this ← fillLength fuel this (position + length);
  let this := removeCurvesBefore this position in
  let localPos := localDistance this position in
  let totalLen := getLengthSafe this in
  Some (mkEndlessCurve (curves this) (distanceOffset this)
          (if 0 <? totalLen then localPos / totalLen else 0)
          (if 0 <? totalLen then length / totalLen else 1)
          (nextCurveFn this) (target this)).

End Manager.

(** *** Generators of straight segments *)

(** The straight segment from [from] to [to], control points at the
    thirds. *)
Definition segment (from to : Vector3) : CubicBezierCurve3 :=
  mkCurve from (lerp from to (1 / 3)) (lerp from to (2 / 3)) to.


(** Segments of lengths [1/2], [1/4], [1/8], ... laid end to end along the
    x axis; the closure holds the next length and the end reached. *)
Definition halves : NextCurveFn := {|
  Closure := float * float;
  call closure _ :=
    let '(len, from) := closure in
    (segment (mkV from 0 0) (mkV (from + len) 0 0),
     (len / 2, from + len))
|}.

(** A first segment of length [1/2], then segments of length [1e-20]
    without end, all from the origin along the x axis. *)
Definition long : CubicBezierCurve3 := segment (mkV 0 0 0) (mkV (1 / 2) 0 0).
Definition short : CubicBezierCurve3 :=
  segment (mkV 0 0 0) (mkV (1 / 1e20) 0 0).

Definition absorbed : NextCurveFn := {|
  Closure := bool;
  call first _ := (if first then long else short, false)
|}.

(** *** The order of binary64 as an order of integers *)

(** The magnitude of a finite number: first the exponent, then the
    mantissa; [top] lies above them all. *)
Definition magnitude (m : positive) (e : Z) : Z :=
  ((e - emin + 1) * 2 ^ prec + Z.pos m)%Z.

Definition top : Z := ((emax - prec - emin + 2) * 2 ^ prec)%Z.

(** Every number that is not NaN gets an integer, larger for a larger
    number. *)
Definition rank (f : spec_float) : Z :=
  match f with
  | S754_zero _ => 0
  | S754_nan => 0
  | S754_infinity s => if s then (- top)%Z else top
  | S754_finite s m e => if s then (- magnitude m e)%Z else magnitude m e
  end.

End Binary64.

(* ================================================================== *)
(** * Part II: properties                                              *)
(* ================================================================== *)

(** ** Numbers and vectors *)

(** Decide every numeric test in sight. *)
Ltac num_cases :=
  unfold Num.or_one, Num.gtb, Num.geb in *;
  unfold Num.ltb, Num.leb, Num.eqb in *;
  repeat match goal with
  | |- context [Rlt_dec ?a ?b] => destruct (Rlt_dec a b)
  | |- context [Rle_dec ?a ?b] => destruct (Rle_dec a b)
  | |- context [Req_dec_T ?a ?b] => destruct (Req_dec_T a b)
  | H : context [Rlt_dec ?a ?b] |- _ => destruct (Rlt_dec a b)
  | H : context [Rle_dec ?a ?b] |- _ => destruct (Rle_dec a b)
  | H : context [Req_dec_T ?a ?b] |- _ => destruct (Req_dec_T a b)
  end.

Lemma ltb_spec (a b : R) : Num.ltb a b = true <-> a < b.
Proof. num_cases; split; intros; try done; lra. Qed.

Lemma ltb_false (a b : R) : Num.ltb a b = false <-> b <= a.
Proof. num_cases; split; intros; try done; lra. Qed.

Lemma leb_spec (a b : R) : Num.leb a b = true <-> a <= b.
Proof. num_cases; split; intros; try done; lra. Qed.

Lemma clamp_inside (v : R) : -1 <= v <= 1 -> Num.clamp v (-1) 1 = v.
Proof.
  intros [Hlo Hhi]. unfold Num.clamp.
  rewrite (Rmin_right 1 v) by lra. apply Rmax_right; lra.
Qed.

Lemma lengthSq_nonneg (v : Vector3) : 0 <= lengthSq v.
Proof. unfold lengthSq. nra. Qed.

Lemma length_sqr (v : Vector3) : Vec3.length v * Vec3.length v = lengthSq v.
Proof. apply sqrt_sqrt, lengthSq_nonneg. Qed.

Lemma length_of_unit (v : Vector3) : lengthSq v = 1 -> Vec3.length v = 1.
Proof. intros Hv. unfold Vec3.length. rewrite Hv. apply sqrt_1. Qed.

Lemma length_pos (v : Vector3) : 0 < lengthSq v -> 0 < Vec3.length v.
Proof. intros Hv. apply sqrt_lt_R0, Hv. Qed.

Lemma vector_eq (a b : Vector3) : x a = x b -> y a = y b -> z a = z b -> a = b.
Proof. destruct a, b; simpl; intros; subst; reflexivity. Qed.

(** A vector that is not zero is normalized to a unit vector. *)
Lemma normalize_unit (v : Vector3) : 0 < lengthSq v -> lengthSq (normalize v) = 1.
Proof.
  intros Hpos.
  pose proof (length_pos v Hpos) as Hl. pose proof (length_sqr v) as Hsq.
  unfold normalize, Num.or_one, Num.eqb.
  destruct (Req_dec_T (Vec3.length v) 0) as [E|_]; [lra|].
  set (l := Vec3.length v) in *.
  transitivity (lengthSq v / (l * l)).
  - unfold divideScalar, multiplyScalar, lengthSq; simpl. field. lra.
  - rewrite Hsq. field. lra.
Qed.

(** [normalize] scales by a positive factor. *)
Lemma normalize_scale (v : Vector3) :
  exists k, 0 < k /\ normalize v = multiplyScalar v k.
Proof.
  unfold normalize, divideScalar.
  exists (1 / Num.or_one (Vec3.length v)). split; [|reflexivity].
  assert (Hl : 0 <= Vec3.length v) by apply sqrt_pos.
  apply Rdiv_lt_0_compat; [lra|].
  num_cases; [lra | destruct Hl as [Hl | Hl]; [exact Hl | congruence]].
Qed.

Lemma normalize_of_unit (v : Vector3) : lengthSq v = 1 -> normalize v = v.
Proof.
  intros Hv. unfold normalize. rewrite (length_of_unit v Hv).
  unfold Num.or_one. num_cases; [lra|].
  apply vector_eq; simpl; field.
Qed.

(** Scaling a unit vector by a positive number and normalizing gives the
    vector back. *)
Lemma normalize_scaled_unit (v : Vector3) (k : R) :
  lengthSq v = 1 -> 0 < k -> normalize (multiplyScalar v k) = v.
Proof.
  intros Hv Hk.
  assert (Hl : Vec3.length (multiplyScalar v k) = k).
  { unfold Vec3.length.
    replace (lengthSq (multiplyScalar v k)) with (k * k).
    - apply sqrt_square; lra.
    - unfold lengthSq in *; simpl. nsatz. }
  unfold normalize. rewrite Hl. unfold Num.or_one. num_cases; [lra|].
  apply vector_eq; simpl; field; lra.
Qed.

Lemma applyAxisAngle_lengthSq (v a : Vector3) (t : R) :
  lengthSq a = 1 -> lengthSq (applyAxisAngle v a t) = lengthSq v.
Proof.
  destruct v as [vx vy vz], a as [ax ay az].
  unfold lengthSq, applyAxisAngle, Vec3.applyQuaternion, Vec3.setFromAxisAngle;
    simpl.
  intros Ha.
  pose proof (sin2_cos2 (t / 2)) as Hsc. unfold Rsqr in Hsc.
  set (s := sin (t / 2)) in *. set (c := cos (t / 2)) in *.
  nsatz.
Qed.

(** Rotating about a unit axis perpendicular to [v] by [t] leaves a vector
    whose dot product with [v] is [|v|^2 cos t]. *)
Lemma applyAxisAngle_dot (v a : Vector3) (t : R) :
  lengthSq a = 1 -> dot a v = 0 ->
  dot v (applyAxisAngle v a t) = lengthSq v * cos t.
Proof.
  destruct v as [vx vy vz], a as [ax ay az].
  unfold lengthSq, dot, applyAxisAngle, Vec3.applyQuaternion,
    Vec3.setFromAxisAngle; simpl.
  intros Ha Hd.
  assert (Hc : cos t = 1 - 2 * sin (t / 2) * sin (t / 2))
    by (rewrite <- cos_2a_sin; f_equal; field).
  rewrite Hc.
  set (s := sin (t / 2)) in *. set (c := cos (t / 2)) in *.
  nsatz.
Qed.

Lemma angleTo_bounds (a b : Vector3) : 0 <= angleTo a b <= PI.
Proof.
  unfold angleTo. pose proof PI_RGT_0.
  destruct (Num.eqb _ 0); [split; lra|]. apply acos_bound.
Qed.

Lemma angleTo_unit (a b : Vector3) :
  lengthSq a = 1 -> lengthSq b = 1 ->
  angleTo a b = acos (Num.clamp (dot a b) (-1) 1).
Proof.
  intros Ha Hb. unfold angleTo. rewrite Ha, Hb, Rmult_1_r, sqrt_1.
  num_cases; [lra|]. do 2 f_equal. field.
Qed.

Lemma angleTo_self (a : Vector3) : lengthSq a = 1 -> angleTo a a = 0.
Proof.
  intros Ha. rewrite angleTo_unit by assumption.
  replace (dot a a) with 1 by (rewrite <- Ha; reflexivity).
  rewrite clamp_inside by lra. apply acos_1.
Qed.

(** The angle from a unit vector to its rotation by [t] in [0, PI] about a
    perpendicular unit axis is [t]. *)
Lemma angleTo_applyAxisAngle (v a : Vector3) (t : R) :
  lengthSq v = 1 -> lengthSq a = 1 -> dot a v = 0 -> 0 <= t <= PI ->
  angleTo v (applyAxisAngle v a t) = t.
Proof.
  intros Hv Ha Hd Ht.
  rewrite angleTo_unit; [|assumption|rewrite applyAxisAngle_lengthSq; assumption].
  rewrite applyAxisAngle_dot by assumption. rewrite Hv, Rmult_1_l.
  rewrite clamp_inside by apply COS_bound.
  apply acos_cos; lra.
Qed.

(** ** The steering generator *)

Import CurveGenerator.

(** The three ways [limitTurnRate] answers. *)
Lemma limitTurnRate_cases (current desired : Vector3) (maxRate : R) :
  lengthSq current = 1 ->
  (limitTurnRate current desired maxRate = desired
   /\ angleTo current desired <= maxRate)
  \/ (limitTurnRate current desired maxRate = current
      /\ maxRate < angleTo current desired < 0.001)
  \/ (exists axis,
        lengthSq axis = 1 /\ dot axis current = 0
        /\ maxRate < angleTo current desired
        /\ limitTurnRate current desired maxRate
           = applyAxisAngle current axis maxRate
        /\ (0.0001 <= lengthSq (crossVectors current desired) ->
            axis = normalize (crossVectors current desired))).
Proof.
  intros Hc. unfold limitTurnRate.
  destruct (Num.leb _ maxRate) eqn:Hle.
  { left. split; [reflexivity|]. apply leb_spec, Hle. }
  assert (Hgt : maxRate < angleTo current desired).
  { apply Rnot_le_lt. intros Hn. apply leb_spec in Hn. congruence. }
  destruct (Num.ltb _ 0.001) eqn:Hsmall.
  { right; left. apply ltb_spec in Hsmall. auto. }
  right; right.
  set (c := crossVectors current desired).
  destruct (Num.ltb (lengthSq c) 0.0001) eqn:Hdeg.
  - (* fallback axis *)
    set (e := if Num.gtb (Rabs (y current)) 0.9 then mkV 1 0 0 else mkV 0 1 0).
    assert (He : 0 < lengthSq (crossVectors current e)).
    { subst e. destruct (Num.gtb (Rabs (y current)) 0.9) eqn:Hy.
      - apply ltb_spec in Hy.
        assert (0.81 < y current * y current).
        { destruct (Rcase_abs (y current)) as [Hneg|Hpos].
          - rewrite Rabs_left in Hy by assumption. nra.
          - rewrite Rabs_right in Hy by assumption. nra. }
        unfold lengthSq, crossVectors; simpl. nra.
      - apply ltb_false in Hy.
        assert (y current * y current <= 0.81).
        { destruct (Rcase_abs (y current)) as [Hneg|Hpos].
          - rewrite Rabs_left in Hy by assumption. nra.
          - rewrite Rabs_right in Hy by assumption. nra. }
        unfold lengthSq, crossVectors in *; simpl. nra. }
    exists (normalize (crossVectors current e)).
    split; [apply normalize_unit, He|].
    split.
    { destruct (normalize_scale (crossVectors current e)) as (k & _ & ->).
      unfold dot, multiplyScalar, crossVectors; simpl. ring. }
    split; [exact Hgt|]. split; [reflexivity|].
    intros Hbig. apply ltb_spec in Hdeg. lra.
  - apply ltb_false in Hdeg.
    exists (normalize c).
    split; [apply normalize_unit; lra|].
    split.
    { destruct (normalize_scale c) as (k & _ & ->).
      subst c. unfold dot, multiplyScalar, crossVectors; simpl. ring. }
    auto.
Qed.

Lemma limitTurnRate_angle (current desired : Vector3) (maxRate : R) :
  lengthSq current = 1 -> 0 <= maxRate ->
  angleTo current (limitTurnRate current desired maxRate) <= maxRate.
Proof.
  intros Hc Hrate.
  destruct (limitTurnRate_cases current desired maxRate Hc)
    as [[-> Hle] | [[-> _] | (axis & Ha & Hd & Hgt & -> & _)]].
  - exact Hle.
  - rewrite angleTo_self by assumption. exact Hrate.
  - pose proof (angleTo_bounds current desired).
    rewrite angleTo_applyAxisAngle; [lra|assumption..|lra].
Qed.

Lemma limitTurnRate_unit (current desired : Vector3) (maxRate : R) :
  lengthSq current = 1 -> lengthSq desired = 1 ->
  lengthSq (limitTurnRate current desired maxRate) = 1.
Proof.
  intros Hc Hd.
  destruct (limitTurnRate_cases current desired maxRate Hc)
    as [[-> _] | [[-> _] | (axis & Ha & _ & _ & -> & _)]]; try assumption.
  rewrite applyAxisAngle_lengthSq; assumption.
Qed.

(** The desired direction is a unit vector. *)
Lemma steeringForce_unit options noise2D length noiseTime st target :
  lengthSq (lastDir st) = 1 ->
  lengthSq (steeringForce options noise2D length noiseTime st target).1.1 = 1.
Proof.
  intros Hu. unfold steeringForce.
  destruct target as [target|]; cbv beta iota zeta;
    (match goal with
     | |- context [if ?b then normalize ?d else _] => destruct b eqn:Hbig
     end; cbn [fst]; [|exact Hu]);
    apply ltb_spec in Hbig; apply normalize_unit; lra.
Qed.

Lemma nextCurve_lastDir options noise2D random st target :
  lastDir (nextCurve options noise2D random st target).2
  = limitTurnRate (lastDir st)
      (steeringForce options noise2D
         (segmentLength_min options
          + random * (segmentLength_max options - segmentLength_min options))
         (noiseTime st + 0.01) st target).1.1
      (maxTurnRate options).
Proof.
  unfold nextCurve.
  destruct (steeringForce _ _ _ _ _ _) as [[d oa] ca]. reflexivity.
Qed.

(** The stored direction is always a unit vector. *)
Lemma reachable_unit (st : Heading) : reachable st -> lengthSq (lastDir st) = 1.
Proof.
  induction 1 as [|options noise2D random st target _ IH].
  - unfold lengthSq; simpl. ring.
  - change (snd ?p) with (p.2). rewrite nextCurve_lastDir.
    apply limitTurnRate_unit; [exact IH|].
    apply steeringForce_unit, IH.
Qed.

(** C1 (as amended): whatever the options, the noise, the random value and
    the target of a call, and whatever calls came before it, when
    [maxTurnRate] is not negative the angle between the stored direction
    before the call and the stored direction after it is at most
    [maxTurnRate].  The new direction is a unit vector, and it is the
    desired direction itself (when that is within [maxTurnRate] of the
    stored one), the stored direction, or the stored direction rotated by
    [maxTurnRate] about a unit axis perpendicular to it (the normalized cross
    product with the desired direction unless that is degenerate): an
    axis-angle rotation, never a blend of the two directions. *)
Theorem turn_rate_bound options noise2D random st target :
  reachable st ->
  0 <= maxTurnRate options ->
  let length :=
    segmentLength_min options
    + random * (segmentLength_max options - segmentLength_min options) in
  let desiredDir :=
    (steeringForce options noise2D length (noiseTime st + 0.01) st target).1.1 in
  let newDir := lastDir (nextCurve options noise2D random st target).2 in
  angleTo (lastDir st) newDir <= maxTurnRate options
  /\ lengthSq newDir = 1
  /\ ((newDir = desiredDir
       /\ angleTo (lastDir st) desiredDir <= maxTurnRate options)
      \/ newDir = lastDir st
      \/ exists axis,
           lengthSq axis = 1 /\ dot axis (lastDir st) = 0
           /\ newDir = applyAxisAngle (lastDir st) axis (maxTurnRate options)
           /\ (0.0001 <= lengthSq (crossVectors (lastDir st) desiredDir) ->
               axis = normalize (crossVectors (lastDir st) desiredDir))).
Proof.
  intros Hreach Hrate length desiredDir newDir.
  pose proof (reachable_unit st Hreach) as Hu.
  assert (Hnew : newDir = limitTurnRate (lastDir st) desiredDir (maxTurnRate options))
    by apply nextCurve_lastDir.
  assert (Hd : lengthSq desiredDir = 1) by apply steeringForce_unit, Hu.
  rewrite Hnew. split; [apply limitTurnRate_angle; assumption|].
  split; [apply limitTurnRate_unit; assumption|].
  destruct (limitTurnRate_cases (lastDir st) desiredDir (maxTurnRate options) Hu)
    as [[E Hle] | [[E _] | (axis & Ha & Hp & _ & E & Hax)]].
  - left. auto.
  - right; left. exact E.
  - right; right. exists axis. auto.
Qed.

Lemma turn_rate_bound_witness :
  0 <= maxTurnRate defaultOptions
  /\ angleTo (lastDir initialHeading)
       (lastDir (nextCurve defaultOptions (fun _ _ => 0) (1 / 2) initialHeading
                           (Some (mkV 20 0 0))).2)
     <= maxTurnRate defaultOptions.
Proof.
  assert (Hrate : 0 <= maxTurnRate defaultOptions)
    by (simpl; pose proof PI_RGT_0; lra).
  split; [exact Hrate|].
  exact (proj1 (turn_rate_bound defaultOptions (fun _ _ => 0) (1 / 2)
                  initialHeading (Some (mkV 20 0 0)) reachable_init Hrate)).
Defined.

(** With a negative [maxTurnRate] the bound of C1 fails at the very first
    call: an angle is never negative. *)
Lemma turn_rate_negative_rate :
  let options := mkOptions 4 8 (-1) 8 1.0 0.15 (PI / 24) (PI / 48) 3.0 0.25 in
  ~ (angleTo (lastDir initialHeading)
       (lastDir (nextCurve options (fun _ _ => 0) 0 initialHeading None).2)
     <= maxTurnRate options).
Proof.
  intros options Hle.
  pose proof (angleTo_bounds (lastDir initialHeading)
    (lastDir (nextCurve options (fun _ _ => 0) 0 initialHeading None).2)) as Hb.
  simpl maxTurnRate in Hle. lra.
Qed.

(** ** The endless-curve manager *)

Import EndlessCurve.

Section ManagerFacts.
Context {lib : CurveLib} {path : CurvePathLib} {gen : NextCurveFn}.

(** *** Running sums of arc lengths *)

Lemma arcLength_app (a b : list CubicBezierCurve3) :
  arcLength (a ++ b) = arcLength a + arcLength b.
Proof. induction a as [|c a IH]; simpl; [|rewrite IH]; ring. Qed.

Lemma arcLength_take_drop (r : nat) (cs : list CubicBezierCurve3) :
  arcLength cs = arcLength (take r cs) + arcLength (drop r cs).
Proof. rewrite <- arcLength_app, take_drop. reflexivity. Qed.

Lemma cumulativeLengths_length (s : R) (cs : list CubicBezierCurve3) :
  List.length (cumulativeLengths s cs) = List.length cs.
Proof. revert s; induction cs as [|c cs IH]; intros s; simpl; [|rewrite IH]; reflexivity. Qed.

Lemma cumulativeLengths_app (s : R) (a b : list CubicBezierCurve3) :
  cumulativeLengths s (a ++ b)
  = cumulativeLengths s a ++ cumulativeLengths (s + arcLength a) b.
Proof.
  revert s; induction a as [|c a IH]; intros s; simpl.
  - f_equal. ring.
  - rewrite IH. do 3 f_equal. ring.
Qed.

Lemma cumulativeLengths_last (s d : R) (cs : list CubicBezierCurve3) :
  cs <> [] -> List.last (cumulativeLengths s cs) d = s + arcLength cs.
Proof.
  revert s; induction cs as [|c cs IH]; intros s Hne; [done|].
  destruct cs as [|c' cs].
  - simpl. ring.
  - change (cumulativeLengths s (c :: c' :: cs))
      with ((s + Curve_getLength c)
              :: cumulativeLengths (s + Curve_getLength c) (c' :: cs)).
    change (arcLength (c :: c' :: cs))
      with (Curve_getLength c + arcLength (c' :: cs)).
    transitivity (List.last (cumulativeLengths (s + Curve_getLength c) (c' :: cs)) d).
    + reflexivity.
    + rewrite IH by done. ring.
Qed.

Lemma cumulativeLengths_lookup (s : R) (cs : list CubicBezierCurve3) (i : nat) :
  (i < List.length cs)%nat ->
  cumulativeLengths s cs !! i = Some (s + arcLength (take (S i) cs)).
Proof.
  revert s i; induction cs as [|c cs IH]; intros s i Hi; simpl in Hi; [lia|].
  destruct i as [|i].
  - simpl. f_equal. destruct cs; simpl; ring.
  - change (cumulativeLengths s (c :: cs) !! S i)
      with (cumulativeLengths (s + Curve_getLength c) cs !! i).
    rewrite IH by lia. f_equal.
    change (take (S (S i)) (c :: cs)) with (c :: take (S i) cs).
    simpl arcLength. ring.
Qed.

Lemma cumulativeLengths_drop (s : R) (r : nat) (cs : list CubicBezierCurve3) :
  drop r (cumulativeLengths s cs)
  = cumulativeLengths (s + arcLength (take r cs)) (drop r cs).
Proof.
  revert s r; induction cs as [|c cs IH]; intros s r.
  - simpl. rewrite !drop_nil. reflexivity.
  - destruct r as [|r].
    + simpl take. simpl arcLength. rewrite Rplus_0_r. reflexivity.
    + change (drop (S r) (cumulativeLengths s (c :: cs)))
        with (drop r (cumulativeLengths (s + Curve_getLength c) cs)).
      rewrite IH. simpl. f_equal. ring.
Qed.

(** The safe length is the summed arc length of the segments. *)
Lemma getLengthSafe_arcLength (this : EndlessCurve) :
  getLengthSafe this = arcLength (curves this).
Proof.
  unfold getLengthSafe, getLength, getCurveLengths.
  destruct (decide _) as [E|E].
  - apply nil_length_inv in E. rewrite E. reflexivity.
  - rewrite cumulativeLengths_last; [ring|]. intros E'. apply E. rewrite E'. reflexivity.
Qed.

(** *** Re-parameterization touches only the u-values, not their number *)

Lemma recalculateSamples_length samples startLength curveLength totalLength
    frameIndex (uValues : list R) :
  List.length (recalculateSamples samples startLength curveLength totalLength
                 frameIndex uValues).2
  = List.length uValues.
Proof.
  revert frameIndex uValues.
  induction samples as [|i samples IH]; intros frameIndex uValues; simpl;
    [reflexivity|].
  destruct (decide _); [reflexivity|].
  rewrite IH, length_insert. reflexivity.
Qed.

Lemma recalculateCurves_length curveLengths startLength totalLength frameIndex
    (uValues : list R) :
  List.length (recalculateCurves curveLengths startLength totalLength
                 frameIndex uValues)
  = List.length uValues.
Proof.
  revert startLength frameIndex uValues.
  induction curveLengths as [|l ls IH]; intros startLength frameIndex uValues;
    [reflexivity|].
  cbn [recalculateCurves].
  pose proof (recalculateSamples_length (seq 0 (S samplesPerCurve)) startLength
                (l - startLength) totalLength frameIndex uValues) as Hlen.
  destruct (recalculateSamples _ _ _ _ _ _) as [frameIndex' uValues'].
  rewrite IH. exact Hlen.
Qed.

Lemma recalculateUValues_fields (this : EndlessCurve) :
  let this' := recalculateUValues this in
  curves this' = curves this
  /\ distanceOffset this' = distanceOffset this
  /\ uStart this' = uStart this
  /\ uLength this' = uLength this
  /\ nextCurveFn this' = nextCurveFn this
  /\ target this' = target this
  /\ lastNormal this' = lastNormal this
  /\ normals (frameCache this') = normals (frameCache this)
  /\ List.length (uValues (frameCache this'))
     = List.length (uValues (frameCache this)).
Proof.
  unfold recalculateUValues. destruct (decide _); simpl.
  - repeat split; reflexivity.
  - repeat split; try reflexivity. apply recalculateCurves_length.
Qed.

(** *** Sampling the frames of a segment *)

Lemma last_default_irrelevant {A : Type} (l : list A) (d d' : A) :
  l <> [] -> List.last l d = List.last l d'.
Proof.
  induction l as [|a l IH]; intros Hne; [done|].
  destruct l as [|b l]; [reflexivity|].
  change (List.last (b :: l) d = List.last (b :: l) d'). apply IH. done.
Qed.

Lemma sampleFrames_spec curve samples prevNormal prevTangent cache :
  exists new,
    List.length new = List.length samples
    /\ normals (sampleFrames curve samples prevNormal prevTangent cache).1.1
       = normals cache ++ new
    /\ uValues (sampleFrames curve samples prevNormal prevTangent cache).1.1
       = uValues cache ++ replicate (List.length samples) 0
    /\ (sampleFrames curve samples prevNormal prevTangent cache).1.2
       = List.last new prevNormal
    /\ (forall i rest, samples = i :: rest ->
          new !! 0%nat
          = Some (parallelTransport prevNormal prevTangent
                    (getAnalyticalTangent curve (INR i / INR samplesPerCurve)))).
Proof.
  revert prevNormal prevTangent cache.
  induction samples as [|i samples IH]; intros prevNormal prevTangent cache.
  - exists []. simpl. rewrite !app_nil_r. repeat split; try reflexivity.
    intros i rest Hnil. discriminate.
  - cbn [sampleFrames].
    set (tangent := getAnalyticalTangent curve (INR i / INR samplesPerCurve)).
    set (normal := parallelTransport prevNormal prevTangent tangent).
    destruct (IH normal tangent
                (mkCache (normals cache ++ [normal]) (uValues cache ++ [0])))
      as (new & Hlen & Hn & Hu & Hlast & _).
    exists (normal :: new). simpl in Hn, Hu.
    split; [simpl; rewrite Hlen; reflexivity|].
    split; [rewrite Hn, <- app_assoc; reflexivity|].
    split; [rewrite Hu, <- app_assoc; reflexivity|].
    split.
    + rewrite Hlast. destruct new as [|v new]; [reflexivity|].
      change (List.last (normal :: v :: new) prevNormal)
        with (List.last (v :: new) prevNormal).
      apply last_default_irrelevant. done.
    + intros i' rest [= <- _]. reflexivity.
Qed.

(** *** Appending a segment *)

(** [addCurve] never throws, appends the segment and one block of
    [samplesPerCurve + 1] samples, and leaves the window as it was. *)
Lemma addCurve_spec (this : EndlessCurve) (curve : CubicBezierCurve3) :
  exists this' new,
    addCurve this curve = Some this'
    /\ curves this' = curves this ++ [curve]
    /\ distanceOffset this' = distanceOffset this
    /\ uStart this' = uStart this
    /\ uLength this' = uLength this
    /\ nextCurveFn this' = nextCurveFn this
    /\ target this' = target this
    /\ List.length new = S samplesPerCurve
    /\ normals (frameCache this') = normals (frameCache this) ++ new
    /\ List.length (uValues (frameCache this'))
       = (List.length (uValues (frameCache this)) + S samplesPerCurve)%nat
    /\ (forall d, lastNormal this' = List.last new d)
    /\ (forall prev, last (curves this) = Some prev ->
          new !! 0%nat
          = Some (parallelTransport (lastNormal this)
                    (getAnalyticalTangent prev 1)
                    (getAnalyticalTangent curve 0)))
    /\ (curves this = [] ->
          lastNormal this'
          = (sampleFrames curve (seq 0 (S samplesPerCurve))
               (getArbitraryPerpendicular (getAnalyticalTangent curve 0))
               (getAnalyticalTangent curve 0) (frameCache this)).1.2).
Proof.
  unfold addCurve, computeFramesForCurve. cbn [curves lastNormal frameCache].
  assert (Hc : (curves this ++ [curve]) !! List.length (curves this) = Some curve)
    by (apply list_lookup_middle; reflexivity).
  rewrite Hc. cbn [mbind option_bind].
  set (n := List.length (curves this)).
  assert (Hprev : exists pn pt,
    (if decide (0 < n)%nat
     then prevCurve ← (curves this ++ [curve]) !! (n - 1)%nat;
          Some (lastNormal this, getAnalyticalTangent prevCurve 1)
     else Some (getArbitraryPerpendicular (getAnalyticalTangent curve 0),
                getAnalyticalTangent curve 0)) = Some (pn, pt)
    /\ (forall prev, last (curves this) = Some prev ->
          pn = lastNormal this /\ pt = getAnalyticalTangent prev 1)
    /\ (curves this = [] ->
          pn = getArbitraryPerpendicular (getAnalyticalTangent curve 0)
          /\ pt = getAnalyticalTangent curve 0)).
  { destruct (decide (0 < n)%nat) as [Hpos|Hzero].
    - destruct (lookup_lt_is_Some_2 (curves this) (n - 1)%nat)
        as [prevCurve Hprev]; [lia|].
      rewrite (lookup_app_l_Some _ _ _ _ Hprev). simpl.
      eexists _, _. split; [reflexivity|]. split.
      + intros prev Hlast. rewrite last_lookup in Hlast.
        replace (pred (List.length (curves this))) with (n - 1)%nat in Hlast
          by (subst n; lia).
        rewrite Hprev in Hlast. injection Hlast as ->. auto.
      + intros E. subst n. rewrite E in Hpos. simpl in Hpos. lia.
    - eexists _, _. split; [reflexivity|]. split; [|auto].
      intros prev Hlast. exfalso.
      assert (E : curves this = []) by (apply nil_length_inv; subst n; lia).
      rewrite E in Hlast. discriminate. }
  destruct Hprev as (pn & pt & -> & Hseed & Hseed0). cbn [mbind option_bind].
  destruct (sampleFrames_spec curve (seq 0 (S samplesPerCurve)) pn pt
              (frameCache this)) as (new & Hlen & Hn & Hu & Hlast & Hfirst).
  destruct (sampleFrames curve (seq 0 (S samplesPerCurve)) pn pt (frameCache this))
    as [[cache lastN] lastT] eqn:Hsample.
  cbn [fst snd] in Hn, Hu, Hlast.
  eexists _, new. split; [reflexivity|].
  match goal with
  | |- context [recalculateUValues ?s] =>
      destruct (recalculateUValues_fields s)
        as (-> & -> & -> & -> & -> & -> & -> & -> & ->)
  end.
  cbn [curves distanceOffset uStart uLength nextCurveFn target frameCache
       lastNormal].
  rewrite length_seq in Hlen.
  repeat split; try reflexivity; try assumption.
  - rewrite Hu, length_app, length_replicate, length_seq. reflexivity.
  - intros d. rewrite Hlast. destruct new as [|a new]; [discriminate|].
    apply last_default_irrelevant. done.
  - intros prev Hprev. destruct (Hseed prev Hprev) as [-> ->].
    rewrite (Hfirst 0%nat (seq 1 samplesPerCurve) eq_refl).
    do 3 f_equal. simpl. unfold Rdiv. apply Rmult_0_l.
  - intros E. destruct (Hseed0 E) as [<- <-]. rewrite Hsample. reflexivity.
Qed.

(** *** Eviction *)

(** The loop of [removeCurvesBefore] stops at the first running sum above
    [p]. *)
Lemma countRemoved_spec (p : R) (lengths : list R) (remove : nat) (d : R) :
  exists r,
    (countRemoved p lengths remove d).1 = (remove + r)%nat
    /\ (r <= List.length lengths)%nat
    /\ (forall i l, (i < r)%nat -> lengths !! i = Some l -> l <= p)
    /\ (forall l, lengths !! r = Some l -> p < l)
    /\ (countRemoved p lengths remove d).2
       = match r with
         | O => d
         | S r' => default d (lengths !! r')
         end.
Proof.
  revert remove d.
  induction lengths as [|l lengths IH]; intros remove d; simpl.
  - exists 0%nat. repeat split; done.
  - destruct (Num.ltb p l) eqn:Hlt.
    + exists 0%nat. simpl. repeat split; try lia.
      intros l' [= <-]. apply ltb_spec, Hlt.
    + destruct (IH (S remove) l) as (r & Hr & Hle & Hbelow & Habove & Hd).
      exists (S r). rewrite Hr, Hd.
      split; [simpl; lia|]. split; [simpl; lia|].
      split; [|split].
      * intros [|i] l' Hi Hl'; simpl in Hl'.
        -- injection Hl' as <-. apply ltb_false, Hlt.
        -- apply (Hbelow i); [lia|exact Hl'].
      * intros l' Hl'. apply Habove. exact Hl'.
      * destruct r as [|r']; [reflexivity|]. simpl.
        destruct (lengths !! r') eqn:E; [reflexivity|].
        apply lookup_ge_None in E. lia.
Qed.

(** What [removeCurvesBefore] does: it drops the first [r] segments and
    their [r] blocks of samples, where the running sums of the first [r]
    segments are at most the local position and that of the next one is
    above it, and moves the offset by the arc length dropped. *)
Lemma removeCurvesBefore_spec (this : EndlessCurve) (position : R) :
  exists r,
    (r <= List.length (curves this))%nat
    /\ (forall i, (i < r)%nat ->
          arcLength (take (S i) (curves this)) <= localDistance this position)
    /\ ((r < List.length (curves this))%nat ->
          localDistance this position < arcLength (take (S r) (curves this)))
    /\ (r = 0%nat -> removeCurvesBefore this position = this)
    /\ curves (removeCurvesBefore this position) = drop r (curves this)
    /\ distanceOffset (removeCurvesBefore this position)
       = distanceOffset this + arcLength (take r (curves this))
    /\ normals (frameCache (removeCurvesBefore this position))
       = drop (r * (samplesPerCurve + 1)) (normals (frameCache this))
    /\ List.length (uValues (frameCache (removeCurvesBefore this position)))
       = List.length (drop (r * (samplesPerCurve + 1))
                           (uValues (frameCache this)))
    /\ uStart (removeCurvesBefore this position) = uStart this
    /\ uLength (removeCurvesBefore this position) = uLength this
    /\ nextCurveFn (removeCurvesBefore this position) = nextCurveFn this
    /\ target (removeCurvesBefore this position) = target this
    /\ lastNormal (removeCurvesBefore this position) = lastNormal this.
Proof.
  unfold removeCurvesBefore.
  destruct (countRemoved_spec (localDistance this position)
              (getCurveLengths this) 0 0)
    as (r & Hr & Hle & Hbelow & Habove & Hd).
  destruct (countRemoved _ _ _ _) as [remove d]. simpl in Hr, Hd. subst remove.
  unfold getCurveLengths in *. rewrite cumulativeLengths_length in Hle.
  exists r. split; [exact Hle|].
  split.
  { intros i Hi. apply (Hbelow i); [exact Hi|].
    rewrite cumulativeLengths_lookup by lia. f_equal. ring. }
  split.
  { intros Hlt. apply Habove.
    rewrite cumulativeLengths_lookup by lia. f_equal. ring. }
  destruct (decide (r = 0%nat)) as [-> | Hpos].
  { simpl. rewrite !drop_0. repeat split; try reflexivity. ring. }
  split; [intros E; contradiction|].
  match goal with
  | |- context [recalculateUValues ?s] =>
      destruct (recalculateUValues_fields s)
        as (-> & -> & -> & -> & -> & -> & -> & -> & ->)
  end.
  cbn [curves distanceOffset uStart uLength nextCurveFn target frameCache
       lastNormal normals uValues].
  repeat split; try reflexivity.
  f_equal. destruct r as [|r']; [done|]. subst d.
  rewrite cumulativeLengths_lookup by lia. simpl default. ring.
Qed.

(** *** The frame cache stays aligned with the segment list *)

Lemma constructor_aligned (nextCurveFn : Closure) : aligned (constructor nextCurveFn).
Proof. split; reflexivity. Qed.

Lemma addCurve_aligned (this this' : EndlessCurve) (curve : CubicBezierCurve3) :
  aligned this -> addCurve this curve = Some this' -> aligned this'.
Proof.
  intros [Hn Hu] Hadd.
  destruct (addCurve_spec this curve)
    as (this'' & new & Hadd' & Hc & _ & _ & _ & _ & _ & Hlen & Hn' & Hu' & _).
  rewrite Hadd in Hadd'. injection Hadd' as <-.
  unfold aligned.
  rewrite Hn', Hu', Hc, !length_app, Hlen, Hn, Hu. cbn [List.length].
  unfold samplesPerCurve. split; lia.
Qed.

Lemma removeCurvesBefore_aligned (this : EndlessCurve) (position : R) :
  aligned this -> aligned (removeCurvesBefore this position).
Proof.
  intros [Hn Hu].
  destruct (removeCurvesBefore_spec this position)
    as (r & Hr & _ & _ & _ & Hc & _ & Hn' & Hu' & _).
  unfold aligned. rewrite Hn', Hu', Hc, !length_drop, Hn, Hu.
  unfold samplesPerCurve. split; lia.
Qed.

(** *** Filling *)

(** What a finished [fillLength] has done: it called the generator some
    [n] times with the stored target, appended the [n] segments and their
    blocks of samples, and stopped with the guard true; the window fields
    are untouched. *)
Lemma fillLength_spec (fuel : nat) (this this' : EndlessCurve) (length : R) :
  fillLength fuel this length = Some this' ->
  exists n new,
    (n <= fuel)%nat
    /\ curves this' = curves this ++ emitted n (nextCurveFn this) (target this)
    /\ normals (frameCache this') = normals (frameCache this) ++ new
    /\ List.length new = (n * (samplesPerCurve + 1))%nat
    /\ List.length (uValues (frameCache this'))
       = (List.length (uValues (frameCache this)) + n * (samplesPerCurve + 1))%nat
    /\ distanceOffset this' = distanceOffset this
    /\ uStart this' = uStart this
    /\ uLength this' = uLength this
    /\ target this' = target this
    /\ localDistance this' length < getLengthSafe this'
    /\ (n = 0%nat -> this' = this)
    /\ nextCurveFn this' = advanced n (nextCurveFn this) (target this).
Proof.
  revert this. induction fuel as [|fuel IH]; intros this Hfill; simpl in Hfill.
  - destruct (Num.ltb _ _) eqn:Hguard; [|discriminate].
    injection Hfill as <-. exists 0%nat, []. simpl. rewrite !app_nil_r.
    repeat split; try reflexivity; try lia. apply ltb_spec, Hguard.
  - destruct (Num.ltb _ _) eqn:Hguard.
    { injection Hfill as <-. exists 0%nat, []. simpl. rewrite !app_nil_r.
      repeat split; try reflexivity; try lia. apply ltb_spec, Hguard. }
    destruct (call (nextCurveFn this) (target this)) as [newCurve closure] eqn:Hcall.
    match type of Hfill with
    | context [addCurve ?s newCurve] =>
        destruct (addCurve_spec s newCurve)
          as (mid & new1 & Hadd & Hc & Hoff & Hus & Hul & Hfn & Htg & Hlen1
              & Hn1 & Hu1 & _)
    end.
    rewrite Hadd in Hfill. cbn [mbind option_bind] in Hfill.
    cbn [curves distanceOffset uStart uLength nextCurveFn target frameCache]
      in Hc, Hoff, Hus, Hul, Hfn, Htg, Hn1, Hu1.
    destruct (IH mid Hfill)
      as (n & new & Hn & Hc' & Hn' & Hlen & Hu' & Hoff' & Hus' & Hul' & Htg'
          & Hguard' & _ & Hfn').
    exists (S n), (new1 ++ new).
    split; [lia|].
    split.
    { rewrite Hc', Hc, Hfn, Htg. simpl. rewrite Hcall, <- app_assoc. reflexivity. }
    split; [rewrite Hn', Hn1, <- app_assoc; reflexivity|].
    split; [rewrite length_app, Hlen, Hlen1; unfold samplesPerCurve; lia|].
    split; [rewrite Hu', Hu1; unfold samplesPerCurve; lia|].
    repeat split; try congruence; try discriminate.
    rewrite Hfn', Hfn, Htg. simpl. rewrite Hcall. reflexivity.
Qed.

Lemma fillLength_aligned (fuel : nat) (this this' : EndlessCurve) (length : R) :
  aligned this -> fillLength fuel this length = Some this' -> aligned this'.
Proof.
  intros [Hn Hu] Hfill.
  destruct (fillLength_spec fuel this this' length Hfill)
    as (n & new & _ & Hc & Hn' & Hlen & Hu' & _).
  unfold aligned.
  assert (Hem : forall g t, List.length (emitted n g t) = n).
  { clear. induction n as [|n IH]; intros g t; simpl; [reflexivity|].
    destruct (call g t). simpl. rewrite IH. reflexivity. }
  rewrite Hn', Hu', Hc, !length_app, Hem, Hlen, Hn, Hu.
  unfold samplesPerCurve. split; lia.
Qed.

Lemma configureStartEnd_aligned (fuel : nat) (this this' : EndlessCurve)
    (position length : R) :
  aligned this -> configureStartEnd fuel this position length = Some this' ->
  aligned this'.
Proof.
  intros Hal Hcfg. unfold configureStartEnd in Hcfg.
  destruct (fillLength fuel this (position + length)) as [filled|] eqn:Hfill;
    [|discriminate].
  cbn [mbind option_bind] in Hcfg. injection Hcfg as <-.
  pose proof (removeCurvesBefore_aligned filled position
                (fillLength_aligned _ _ _ _ Hal Hfill)) as Hal'.
  exact Hal'.
Qed.

Lemma built_aligned (this : EndlessCurve) : built this -> aligned this.
Proof.
  induction 1 as [g | this t _ IH | this c this' _ IH Hadd
                  | fuel this l this' _ IH Hfill | this p _ IH
                  | fuel this p l this' _ IH Hcfg].
  - apply constructor_aligned.
  - exact IH.
  - exact (addCurve_aligned _ _ _ IH Hadd).
  - exact (fillLength_aligned _ _ _ _ IH Hfill).
  - exact (removeCurvesBefore_aligned _ _ IH).
  - exact (configureStartEnd_aligned _ _ _ _ _ IH Hcfg).
Qed.

(** C7: in every state the public methods can leave, both sequences of the
    frame cache have [segmentCount * (samplesPerCurve + 1)] entries;
    [addCurve] always succeeds and appends exactly [samplesPerCurve + 1]
    entries to each, and [removeCurvesBefore], evicting some [r] segments,
    removes exactly [r * (samplesPerCurve + 1)] entries from each. *)
Theorem frame_cache_aligned (this : EndlessCurve) :
  built this ->
  aligned this
  /\ (forall curve, exists this',
        addCurve this curve = Some this'
        /\ aligned this'
        /\ List.length (curves this') = S (List.length (curves this))
        /\ List.length (normals (frameCache this'))
           = (List.length (normals (frameCache this)) + (samplesPerCurve + 1))%nat
        /\ List.length (uValues (frameCache this'))
           = (List.length (uValues (frameCache this)) + (samplesPerCurve + 1))%nat)
  /\ (forall position, exists r,
        aligned (removeCurvesBefore this position)
        /\ (r <= List.length (curves this))%nat
        /\ List.length (curves (removeCurvesBefore this position))
           = (List.length (curves this) - r)%nat
        /\ List.length (normals (frameCache (removeCurvesBefore this position)))
           = (List.length (normals (frameCache this))
              - r * (samplesPerCurve + 1))%nat
        /\ List.length (uValues (frameCache (removeCurvesBefore this position)))
           = (List.length (uValues (frameCache this))
              - r * (samplesPerCurve + 1))%nat).
Proof.
  intros Hbuilt. pose proof (built_aligned this Hbuilt) as Hal.
  split; [exact Hal|]. split.
  - intros curve.
    destruct (addCurve_spec this curve)
      as (this' & new & Hadd & Hc & _ & _ & _ & _ & _ & Hlen & Hn & Hu & _).
    exists this'. split; [exact Hadd|].
    split; [exact (addCurve_aligned _ _ _ Hal Hadd)|].
    rewrite Hc, Hn, Hu, !length_app, Hlen. cbn [List.length].
    unfold samplesPerCurve. repeat split; lia.
  - intros position.
    destruct (removeCurvesBefore_spec this position)
      as (r & Hr & _ & _ & _ & Hc & _ & Hn & Hu & _).
    exists r. split; [exact (removeCurvesBefore_aligned _ _ Hal)|].
    split; [exact Hr|].
    rewrite Hc, Hn, Hu, !length_drop. repeat split; reflexivity.
Qed.

Lemma arcLength_take_mono (cs : list CubicBezierCurve3) (a b : nat) :
  Forall (fun curve => 0 <= Curve_getLength curve) cs ->
  (a <= b)%nat -> arcLength (take a cs) <= arcLength (take b cs).
Proof.
  intros Hpos. revert a b.
  induction Hpos as [|c cs Hc _ IH]; intros a b Hab.
  - rewrite !take_nil. lra.
  - destruct a as [|a]; destruct b as [|b]; try lia; simpl.
    + lra.
    + pose proof (IH 0%nat b ltac:(lia)) as Hb. rewrite take_0 in Hb.
      simpl in Hb. lra.
    + pose proof (IH a b ltac:(lia)). lra.
Qed.

(** C3: [removeCurvesBefore(position)] removes exactly the segments whose
    whole arc length lies at or before the local window start
    [position - distanceOffset] (segment [i] goes iff the summed length of
    segments [0..i] is at most it), together with their blocks of
    [samplesPerCurve + 1] cached samples, and [distanceOffset] grows by the
    summed arc length of the removed segments. *)
Theorem eviction_exact (this : EndlessCurve) (position : R) :
  Forall (fun curve => 0 <= Curve_getLength curve) (curves this) ->
  exists r,
    (r <= List.length (curves this))%nat
    /\ (forall i, (i < List.length (curves this))%nat ->
          (i < r)%nat
          <-> arcLength (take (S i) (curves this))
              <= position - distanceOffset this)
    /\ curves (removeCurvesBefore this position) = drop r (curves this)
    /\ normals (frameCache (removeCurvesBefore this position))
       = drop (r * (samplesPerCurve + 1)) (normals (frameCache this))
    /\ List.length (uValues (frameCache (removeCurvesBefore this position)))
       = List.length (drop (r * (samplesPerCurve + 1))
                           (uValues (frameCache this)))
    /\ distanceOffset (removeCurvesBefore this position)
       = distanceOffset this + arcLength (take r (curves this)).
Proof.
  intros Hpos.
  destruct (removeCurvesBefore_spec this position)
    as (r & Hr & Hbelow & Habove & _ & Hc & Hoff & Hn & Hu & _).
  exists r. split; [exact Hr|]. split; [|auto].
  intros i Hi. split; [apply Hbelow|].
  intros Hle. destruct (decide (i < r)%nat) as [Hlt|Hge]; [exact Hlt|].
  exfalso.
  assert (Hrn : (r < List.length (curves this))%nat) by lia.
  pose proof (Habove Hrn) as Hp. unfold localDistance in Hp.
  pose proof (arcLength_take_mono (curves this) (S r) (S i) Hpos ltac:(lia)).
  lra.
Qed.

(** *** Configuring the window *)

Lemma fillLength_guard (fuel : nat) (this : EndlessCurve) (length : R) :
  localDistance this length < getLengthSafe this ->
  fillLength fuel this length = Some this.
Proof.
  intros Hguard. apply ltb_spec in Hguard.
  destruct fuel; simpl; rewrite Hguard; reflexivity.
Qed.

(** More fuel does not change the answer of a fill that finished. *)
Lemma fillLength_more_fuel (fuel fuel' : nat) (this this' : EndlessCurve)
    (length : R) :
  (fuel <= fuel')%nat ->
  fillLength fuel this length = Some this' ->
  fillLength fuel' this length = Some this'.
Proof.
  revert fuel' this.
  induction fuel as [|fuel IH]; intros fuel' this Hle Hfill.
  - simpl in Hfill. destruct (Num.ltb _ _) eqn:Hguard; [|discriminate].
    injection Hfill as <-. apply fillLength_guard, ltb_spec, Hguard.
  - destruct fuel' as [|fuel']; [lia|].
    cbn [fillLength] in *. destruct (Num.ltb _ _); [exact Hfill|].
    destruct (call (nextCurveFn this) (target this)) as [newCurve closure].
    destruct (addCurve _ newCurve) as [mid|]; [|discriminate].
    cbn [mbind option_bind] in *. apply IH; [lia | exact Hfill].
Qed.

(** [configureStartEnd] is a fill, an eviction and the two quotients. *)
Lemma configureStartEnd_spec (fuel : nat) (this this' : EndlessCurve)
    (position length : R) :
  configureStartEnd fuel this position length = Some this' ->
  exists filled,
    fillLength fuel this (position + length) = Some filled
    /\ curves this' = curves (removeCurvesBefore filled position)
    /\ distanceOffset this' = distanceOffset (removeCurvesBefore filled position)
    /\ frameCache this' = frameCache (removeCurvesBefore filled position)
    /\ nextCurveFn this' = nextCurveFn (removeCurvesBefore filled position)
    /\ target this' = target (removeCurvesBefore filled position)
    /\ lastNormal this' = lastNormal (removeCurvesBefore filled position)
    /\ uStart this'
       = (if Num.gtb (getLengthSafe this') 0
          then localDistance this' position / getLengthSafe this' else 0)
    /\ uLength this'
       = (if Num.gtb (getLengthSafe this') 0
          then length / getLengthSafe this' else 1).
Proof.
  unfold configureStartEnd. intros Hcfg.
  destruct (fillLength fuel this (position + length)) as [filled|]; [|discriminate].
  cbn [mbind option_bind] in Hcfg. injection Hcfg as <-.
  exists filled. repeat split; reflexivity.
Qed.

(** After a fill and an eviction the guard of the fill still holds. *)
Lemma configureStartEnd_guard (fuel : nat) (this this' : EndlessCurve)
    (position length : R) :
  configureStartEnd fuel this position length = Some this' ->
  localDistance this' (position + length) < getLengthSafe this'.
Proof.
  intros Hcfg.
  destruct (configureStartEnd_spec _ _ _ _ _ Hcfg)
    as (filled & Hfill & Hc & Hoff & _).
  destruct (fillLength_spec _ _ _ _ Hfill) as (_ & _ & _ & _ & _ & _ & _ & _ & _ & _ & _ & Hguard & _).
  destruct (removeCurvesBefore_spec filled position)
    as (r & _ & _ & _ & _ & Hc' & Hoff' & _).
  rewrite !getLengthSafe_arcLength in *. unfold localDistance in *.
  rewrite Hc, Hoff, Hc', Hoff'.
  rewrite (arcLength_take_drop r (curves filled)) in Hguard. lra.
Qed.

(** After an eviction at [position] a second one at [position] removes
    nothing. *)
Lemma removeCurvesBefore_again (this this2 : EndlessCurve) (position : R) :
  curves this2 = curves (removeCurvesBefore this position) ->
  distanceOffset this2 = distanceOffset (removeCurvesBefore this position) ->
  removeCurvesBefore this2 position = this2.
Proof.
  intros Hc2 Hoff2.
  destruct (removeCurvesBefore_spec this position)
    as (r & Hr & _ & Habove & _ & Hc & Hoff & _).
  destruct (removeCurvesBefore_spec this2 position)
    as (r' & Hr' & Hbelow' & _ & Hsame & _).
  apply Hsame. destruct r' as [|r']; [reflexivity|]. exfalso.
  pose proof (Hbelow' 0%nat ltac:(lia)) as Hfirst.
  rewrite Hc2, Hc, length_drop in Hr'.
  specialize (Habove ltac:(lia)).
  unfold localDistance in *. rewrite Hc2, Hoff2, Hc, Hoff in Hfirst.
  replace (S r) with (r + 1)%nat in Habove by lia.
  rewrite <- take_take_drop, arcLength_app in Habove.
  lra.
Qed.




(** In exact arithmetic a second [configureStartEnd] with the same
    arguments, right after the first, generates nothing and evicts nothing:
    it returns the state the first call left.  The running sums and the
    offset the second call compares are not those the first call compared
    (an eviction rebuilds both), and equal only as real numbers: computed
    in binary64 they may differ in the last place, see
    [Binary64.configureStartEnd]. *)
Lemma configureStartEnd_again_exact (fuel fuel' : nat)
    (this this' : EndlessCurve) (position length : R) :
  configureStartEnd fuel this position length = Some this' ->
  exists this'',
    configureStartEnd fuel' this' position length = Some this''
    /\ curves this'' = curves this'
    /\ frameCache this'' = frameCache this'
    /\ distanceOffset this'' = distanceOffset this'
    /\ uStart this'' = uStart this'
    /\ uLength this'' = uLength this'
    /\ this'' = this'
    /\ forall u,
         getPointAtLocal this'' u = getPointAtLocal this' u
         /\ getBasisAtLocal this'' u = getBasisAtLocal this' u.
Proof.
  intros Hcfg.
  assert (Hagain : configureStartEnd fuel' this' position length = Some this').
  { pose proof (configureStartEnd_guard _ _ _ _ _ Hcfg) as Hguard.
    destruct (configureStartEnd_spec _ _ _ _ _ Hcfg)
      as (filled & _ & Hc & Hoff & _ & _ & _ & _ & Hus & Hul).
    unfold configureStartEnd.
    rewrite (fillLength_guard fuel' this' _ Hguard). cbn [mbind option_bind].
    rewrite (removeCurvesBefore_again filled this' position Hc Hoff).
    rewrite <- Hus, <- Hul. destruct this'; reflexivity. }
  exists this'. repeat split; auto.
Qed.

(** C9: when [length] is not negative and the requested end is not behind
    the offset, a finished [configureStartEnd] leaves a segment list that
    is not empty.  The fill stops with the cached length above the local
    end of the request, so the eviction keeps the last segment of the
    filled list; the cached length left is positive and the frame cache is
    not empty, so the queries do not take their empty-cache fallback. *)
Theorem window_never_empty (fuel : nat) (this this' : EndlessCurve)
    (position length : R) :
  built this ->
  0 <= length ->
  distanceOffset this <= position + length ->
  configureStartEnd fuel this position length = Some this' ->
  curves this' <> []
  /\ normals (frameCache this') <> []
  /\ 0 < getLengthSafe this'
  /\ exists filled,
       fillLength fuel this (position + length) = Some filled
       /\ localDistance filled (position + length) < getLengthSafe filled
       /\ is_Some (last (curves filled))
       /\ last (curves this') = last (curves filled).
Proof.
  intros Hbuilt Hlen Hoff0 Hcfg.
  pose proof (built_aligned _ (built_configureStartEnd _ _ _ _ _ Hbuilt Hcfg))
    as [Hn _].
  pose proof (configureStartEnd_guard _ _ _ _ _ Hcfg) as Hguard'.
  destruct (configureStartEnd_spec _ _ _ _ _ Hcfg)
    as (filled & Hfill & Hc & Hoff & _).
  destruct (fillLength_spec _ _ _ _ Hfill)
    as (_ & _ & _ & _ & _ & _ & _ & Hoff_f & _ & _ & _ & Hguard & _).
  destruct (removeCurvesBefore_spec filled position)
    as (r & Hr & Hbelow & _ & _ & Hc' & Hoff' & _).
  assert (Hpos : 0 < getLengthSafe this').
  { rewrite getLengthSafe_arcLength in *. unfold localDistance in *.
    rewrite Hoff, Hoff' in Hguard'.
    destruct r as [|r].
    - simpl in Hguard'. lra.
    - pose proof (Hbelow r ltac:(lia)). lra. }
  assert (Hne : curves this' <> []).
  { intros E. rewrite getLengthSafe_arcLength, E in Hpos. simpl in Hpos. lra. }
  split; [exact Hne|]. split.
  { intros E. rewrite E in Hn. simpl in Hn.
    destruct (curves this'); [done|simpl in Hn; lia]. }
  split; [exact Hpos|].
  exists filled. split; [exact Hfill|]. split; [exact Hguard|].
  rewrite Hc, Hc' in *.
  assert (Hrn : (r < List.length (curves filled))%nat).
  { destruct (decide (r < List.length (curves filled))%nat); [assumption|].
    exfalso. apply Hne. apply drop_ge. lia. }
  rewrite !last_lookup, lookup_drop, length_drop.
  split.
  - apply lookup_lt_is_Some. lia.
  - f_equal. lia.
Qed.

(** C4 (as amended): when the cached length left by [configureStartEnd] is
    positive, [uStart] is the local position over it and [uLength] is
    [length] over it; when it is not, nothing is divided, [uStart] is [0]
    and [uLength] is [1]. *)
Theorem window_parameters (fuel : nat) (this this' : EndlessCurve)
    (position length : R) :
  configureStartEnd fuel this position length = Some this' ->
  (0 < getLengthSafe this' ->
     uStart this' = (position - distanceOffset this') / getLengthSafe this'
     /\ uLength this' = length / getLengthSafe this')
  /\ (getLengthSafe this' <= 0 -> uStart this' = 0 /\ uLength this' = 1).
Proof.
  intros Hcfg.
  destruct (configureStartEnd_spec _ _ _ _ _ Hcfg)
    as (_ & _ & _ & _ & _ & _ & _ & _ & Hus & Hul).
  rewrite Hus, Hul. unfold Num.gtb, localDistance.
  split; intros Htot.
  - rewrite (proj2 (ltb_spec 0 _) Htot). split; reflexivity.
  - rewrite (proj2 (ltb_false 0 _) Htot). split; reflexivity.
Qed.

(** One call moves the offset forward by the arc length it evicts, and not
    past the position. *)
Lemma configureStartEnd_offset (fuel : nat) (this this' : EndlessCurve)
    (position length : R) :
  (forall curve, 0 <= Curve_getLength curve) ->
  configureStartEnd fuel this position length = Some this' ->
  distanceOffset this <= distanceOffset this'
  /\ (distanceOffset this <= position -> distanceOffset this' <= position).
Proof.
  intros Hpos Hcfg.
  destruct (configureStartEnd_spec _ _ _ _ _ Hcfg)
    as (filled & Hfill & _ & Hoff & _).
  destruct (fillLength_spec _ _ _ _ Hfill)
    as (_ & _ & _ & _ & _ & _ & _ & Hoff_f & _).
  destruct (removeCurvesBefore_spec filled position)
    as (r & Hr & Hbelow & _ & _ & _ & Hoff' & _).
  rewrite Hoff, Hoff', Hoff_f.
  assert (Hnonneg : forall cs, 0 <= arcLength cs).
  { induction cs as [|c cs IH]; simpl; [lra|]. specialize (Hpos c). lra. }
  split.
  - specialize (Hnonneg (take r (curves filled))). lra.
  - intros Hle. destruct r as [|r]; [simpl; lra|].
    pose proof (Hbelow r ltac:(lia)) as Hb. unfold localDistance in Hb. lra.
Qed.

Lemma configureAll_offsets (fuel : nat) (calls : list (R * R)) :
  (forall curve, 0 <= Curve_getLength curve) ->
  forall (this : EndlessCurve) (states : list EndlessCurve),
  Sorted Rle (distanceOffset this :: map fst calls) ->
  configureAll fuel this calls = Some states ->
  Sorted Rle (distanceOffset this :: map distanceOffset states)
  /\ Forall2 (fun this' call => distanceOffset this' <= call.1) states calls.
Proof.
  intros Hpos.
  induction calls as [|[position length] calls IH]; intros this states Hsorted Hrun.
  - injection Hrun as <-. split; [|constructor]. repeat constructor.
  - simpl in Hrun.
    destruct (configureStartEnd fuel this position length) as [this'|] eqn:Hcfg;
      [|discriminate].
    cbn [mbind option_bind] in Hrun.
    destruct (configureAll fuel this' calls) as [rest|] eqn:Hrest; [|discriminate].
    cbn [mbind option_bind] in Hrun. injection Hrun as <-.
    simpl in Hsorted.
    apply Sorted_inv in Hsorted as [Hsorted Hhd].
    apply HdRel_inv in Hhd.
    destruct (configureStartEnd_offset _ _ _ _ _ Hpos Hcfg) as [Hmono Hbound].
    specialize (Hbound Hhd).
    assert (Hsorted' : Sorted Rle (distanceOffset this' :: map fst calls)).
    { apply Sorted_inv in Hsorted as [Hs Hh]. constructor; [exact Hs|].
      destruct calls as [|[p l] calls]; simpl in *; constructor.
      apply HdRel_inv in Hh. lra. }
    destruct (IH this' rest Hsorted' Hrest) as [Hoffs Hall].
    split.
    + simpl. constructor; [exact Hoffs|]. constructor. exact Hmono.
    + constructor; [exact Hbound|exact Hall].
Qed.

(** C5 (as amended): for every sequence of [configureStartEnd] calls from
    the initial state whose positions are not negative and do not decrease,
    [distanceOffset] does not decrease along the sequence and after each
    call it is at most the position of that call.  (Arc lengths are not
    negative.) *)
Theorem window_monotone (fuel : nat) (nextCurveFn : Closure)
    (calls : list (R * R)) (states : list EndlessCurve) :
  (forall curve, 0 <= Curve_getLength curve) ->
  Sorted Rle (0 :: map fst calls) ->
  configureAll fuel (constructor nextCurveFn) calls = Some states ->
  Sorted Rle (0 :: map distanceOffset states)
  /\ Forall2 (fun this' call => distanceOffset this' <= call.1) states calls.
Proof.
  intros Hpos Hsorted Hrun.
  exact (configureAll_offsets fuel calls Hpos (constructor nextCurveFn) states
           Hsorted Hrun).
Qed.

(** C8: [setTarget(point)] replaces the stored target and nothing else.  A
    later fill only appends: the segments and the cached normals that were
    there stay as they were, in front of [n] new segments, each emitted by
    one call of the generator with the new target. *)
Theorem setTarget_frame (this : EndlessCurve) (point : Vector3) :
  target (setTarget this point) = Some point
  /\ curves (setTarget this point) = curves this
  /\ frameCache (setTarget this point) = frameCache this
  /\ distanceOffset (setTarget this point) = distanceOffset this
  /\ uStart (setTarget this point) = uStart this
  /\ uLength (setTarget this point) = uLength this
  /\ nextCurveFn (setTarget this point) = nextCurveFn this
  /\ lastNormal (setTarget this point) = lastNormal this
  /\ forall fuel length,
       match fillLength fuel (setTarget this point) length with
       | Some filled =>
           exists n new,
             curves filled
             = curves this ++ emitted n (nextCurveFn this) (Some point)
             /\ normals (frameCache filled) = normals (frameCache this) ++ new
             /\ List.length new = (n * (samplesPerCurve + 1))%nat
             /\ target filled = Some point
       | None => True
       end.
Proof.
  repeat split; try reflexivity.
  intros fuel length.
  destruct (fillLength fuel (setTarget this point) length) as [filled|] eqn:Hfill;
    [|exact I].
  destruct (fillLength_spec _ _ _ _ Hfill)
    as (n & new & _ & Hc & Hn & Hlen & _ & _ & _ & _ & Htg & _).
  exists n, new. simpl in Hc, Hn, Htg. auto.
Qed.

(** *** Termination of the fill *)

(** Every appended segment adds its arc length to the cached length. *)
Lemma addCurve_getLengthSafe (this this' : EndlessCurve) (curve : CubicBezierCurve3) :
  addCurve this curve = Some this' ->
  getLengthSafe this' = getLengthSafe this + Curve_getLength curve.
Proof.
  intros Hadd.
  destruct (addCurve_spec this curve) as (this'' & new & Hadd' & Hc & _).
  rewrite Hadd in Hadd'. injection Hadd' as <-.
  rewrite !getLengthSafe_arcLength, Hc, arcLength_app. simpl. ring.
Qed.

Lemma emitted_S (n : nat) (closure : Closure) (target : option Vector3) :
  emitted (S n) closure target
  = (call closure target).1 :: emitted n (call closure target).2 target.
Proof. simpl. destruct (call closure target). reflexivity. Qed.

(** With [k * delta] above the missing length, and every segment the
    generator is going to emit at least [delta] long, [k] calls suffice. *)
Lemma fillLength_enough_fuel (delta length : R) (k : nat) :
  0 < delta ->
  forall this : EndlessCurve,
  (forall n, Forall (fun curve => delta <= Curve_getLength curve)
                    (emitted n (nextCurveFn this) (target this))) ->
  localDistance this length - getLengthSafe this < INR k * delta ->
  exists this', fillLength k this length = Some this'.
Proof.
  intros Hdelta. induction k as [|k IH]; intros this Hlong Hmissing.
  - simpl in Hmissing. exists this. apply fillLength_guard. lra.
  - cbn [fillLength]. destruct (Num.ltb _ _) eqn:Hguard; [eauto|].
    pose proof (Hlong 1%nat) as Hfirst. rewrite emitted_S in Hfirst.
    apply Forall_cons in Hfirst as [Hfirst _].
    destruct (call (nextCurveFn this) (target this)) as [newCurve closure] eqn:Hcall.
    simpl in Hfirst.
    match goal with
    | |- context [addCurve ?s newCurve] =>
        destruct (addCurve_spec s newCurve)
          as (mid & new & Hadd & _ & Hoff & _ & _ & Hfn & Htg & _);
        pose proof (addCurve_getLengthSafe s mid newCurve Hadd) as Hgrow
    end.
    rewrite Hadd. cbn [mbind option_bind].
    cbn [distanceOffset nextCurveFn target] in Hoff, Hfn, Htg.
    apply IH.
    + intros n. rewrite Hfn, Htg. specialize (Hlong (S n)).
      rewrite emitted_S, Hcall in Hlong.
      apply Forall_cons in Hlong as [_ Hlong]. exact Hlong.
    + rewrite S_INR in Hmissing.
      rewrite !getLengthSafe_arcLength in *. unfold localDistance in *.
      cbn [curves] in Hgrow. rewrite Hoff. cbn [distanceOffset]. lra.
Qed.

Lemma fillLength_fuel_exists (this : EndlessCurve) (length delta : R) :
  0 < delta ->
  (forall n, Forall (fun curve => delta <= Curve_getLength curve)
                    (emitted n (nextCurveFn this) (target this))) ->
  exists fuel this', fillLength fuel this length = Some this'.
Proof.
  intros Hdelta Hlong.
  set (missing := (localDistance this length - getLengthSafe this) / delta).
  set (k := Z.to_nat (up missing)).
  assert (Hk : missing < INR k).
  { destruct (archimed missing) as [Hup _].
    apply Rlt_le_trans with (IZR (up missing)); [lra|].
    subst k. destruct (Z_lt_le_dec (up missing) 0) as [Hneg|Hnn].
    - apply Rle_trans with 0; [apply IZR_le; lia | apply pos_INR].
    - rewrite INR_IZR_INZ, Z2Nat.id by exact Hnn. lra. }
  exists k. apply (fillLength_enough_fuel delta length k Hdelta this Hlong).
  subst missing. apply (Rmult_lt_compat_r delta) in Hk; [|exact Hdelta].
  unfold Rdiv in Hk. rewrite Rmult_assoc, Rinv_l, Rmult_1_r in Hk by lra.
  exact Hk.
Qed.

(** In exact arithmetic: when every segment the generator is going to
    emit is at least [delta] long, for one [delta > 0] (as when
    [segmentLength.min > 0]), [fillLength(length)] returns for every
    [length]: every segment it appends raises the cached length by at least
    [delta], so the guard holds after finitely many calls. *)
Lemma fillLength_returns_exact (this : EndlessCurve) (length delta : R) :
  0 < delta ->
  (forall n, Forall (fun curve => delta <= Curve_getLength curve)
                    (emitted n (nextCurveFn this) (target this))) ->
  exists fuel this',
    fillLength fuel this length = Some this'
    /\ localDistance this' length < getLengthSafe this'.
Proof.
  intros Hdelta Hlong.
  destruct (fillLength_fuel_exists this length delta Hdelta Hlong)
    as (k & this' & Hfill).
  exists k, this'. split; [exact Hfill|].
  destruct (fillLength_spec _ _ _ _ Hfill)
    as (_ & _ & _ & _ & _ & _ & _ & _ & _ & _ & _ & Hguard & _).
  exact Hguard.
Qed.

(** *** Continuity of the frames across segment boundaries *)

(** Nearly parallel tangents: the normal is carried over as it is. *)
Lemma parallelTransport_parallel (prevNormal prevTangent newTangent : Vector3) :
  0.9999 < dot prevTangent newTangent ->
  parallelTransport prevNormal prevTangent newTangent = prevNormal.
Proof.
  intros Hdot. unfold parallelTransport, Num.gtb.
  rewrite (proj2 (ltb_spec _ _) Hdot). reflexivity.
Qed.

(** Otherwise the transported normal is perpendicular to a unit new
    tangent. *)
Lemma parallelTransport_perpendicular (prevNormal prevTangent newTangent : Vector3) :
  dot prevTangent newTangent <= 0.9999 ->
  lengthSq newTangent = 1 ->
  dot (parallelTransport prevNormal prevTangent newTangent) newTangent = 0.
Proof.
  intros Hdot Hunit. unfold parallelTransport, Num.gtb.
  rewrite (proj2 (ltb_false _ _) Hdot).
  match goal with
  | |- dot (normalize ?v) _ = 0 => destruct (normalize_scale v) as (k & _ & ->)
  end.
  match goal with
  | |- context [applyAxisAngle prevNormal ?a ?t] =>
      generalize (applyAxisAngle prevNormal a t)
  end.
  intros rotated. unfold dot, multiplyScalar, sub, lengthSq in *; simpl.
  destruct newTangent as [tx ty tz], rotated as [rx ry rz]; simpl in *.
  nsatz.
Qed.

Lemma constructor_framed (nextCurveFn : Closure) : framed (constructor nextCurveFn).
Proof.
  split; [apply constructor_aligned|]. split; [done|].
  intros i Hi. simpl in Hi. lia.
Qed.

Lemma addCurve_framed (this this' : EndlessCurve) (curve : CubicBezierCurve3) :
  framed this ->
  joinedChain (last (curves this)) [curve] ->
  addCurve this curve = Some this' ->
  framed this'.
Proof.
  intros (Hal & Hlast & Hcont) [Hjoin _] Hadd.
  destruct (addCurve_spec this curve)
    as (this'' & new & Hadd' & Hc & _ & _ & _ & _ & _ & Hlen & Hn & _ & HlastN
        & Hfirst & _).
  rewrite Hadd in Hadd'. injection Hadd' as <-.
  split; [exact (addCurve_aligned _ _ _ Hal Hadd)|].
  destruct Hal as [Hnlen _].
  split.
  { intros _. rewrite Hn.
    destruct new as [|a new]; [discriminate|].
    rewrite last_app. rewrite (HlastN a).
    destruct (last (a :: new)) as [b|] eqn:E.
    - f_equal. apply last_Some in E as [l' E]. rewrite E.
      rewrite List.last_last. reflexivity.
    - apply last_None in E. discriminate. }
  intros i Hi. rewrite Hc, length_app in Hi. simpl in Hi.
  rewrite Hn.
  destruct (decide (S i < List.length (curves this))%nat) as [Hold|Hnew].
  - destruct (Hcont i Hold) as (normal & Ha & Hb).
    exists normal. split; apply lookup_app_l_Some; assumption.
  - assert (Ei : S i = List.length (curves this)) by lia.
    assert (Hne : curves this <> []) by (intros E; rewrite E in Ei; discriminate).
    destruct (last (curves this)) as [prev|] eqn:Hprev;
      [|apply last_None in Hprev; contradiction].
    exists (lastNormal this). split.
    + rewrite lookup_app_l by (unfold samplesPerCurve in *; lia).
      rewrite <- (Hlast Hne), last_lookup. f_equal.
      unfold samplesPerCurve in *. lia.
    + rewrite lookup_app_r by (unfold samplesPerCurve in *; lia).
      replace (S i * (samplesPerCurve + 1) - List.length (normals (frameCache this)))%nat
        with 0%nat by (unfold samplesPerCurve in *; lia).
      rewrite (Hfirst prev eq_refl). f_equal.
      apply parallelTransport_parallel. exact Hjoin.
Qed.

Lemma removeCurvesBefore_framed (this : EndlessCurve) (position : R) :
  framed this -> framed (removeCurvesBefore this position).
Proof.
  intros (Hal & Hlast & Hcont).
  destruct (removeCurvesBefore_spec this position)
    as (r & Hr & _ & _ & _ & Hc & _ & Hn & _ & _ & _ & _ & _ & HlastN).
  split; [exact (removeCurvesBefore_aligned _ _ Hal)|].
  destruct Hal as [Hnlen _].
  split.
  - intros Hne. rewrite Hc in Hne.
    assert (Hrn : (r < List.length (curves this))%nat).
    { destruct (decide (r < List.length (curves this))%nat); [assumption|].
      exfalso. apply Hne, drop_ge. lia. }
    assert (Hne0 : curves this <> []) by (intros E; rewrite E in Hrn; simpl in Hrn; lia).
    rewrite Hn, HlastN, <- (Hlast Hne0), !last_lookup, lookup_drop, length_drop.
    f_equal. unfold samplesPerCurve in *. lia.
  - intros i Hi. rewrite Hc, length_drop in Hi.
    destruct (Hcont (r + i)%nat ltac:(lia)) as (normal & Ha & Hb).
    exists normal. rewrite Hn, !lookup_drop. split.
    + rewrite <- Ha. f_equal. lia.
    + rewrite <- Hb. f_equal. lia.
Qed.

(** The fields [framed] does not read may change freely. *)
Lemma framed_fields (this this' : EndlessCurve) :
  curves this' = curves this ->
  frameCache this' = frameCache this ->
  lastNormal this' = lastNormal this ->
  framed this -> framed this'.
Proof.
  intros Hc Hf Hl. unfold framed, aligned, continuousFrames.
  rewrite Hc, Hf, Hl. auto.
Qed.

Lemma joinedChain_emitted_S (prev : option CubicBezierCurve3) (n : nat)
    (closure : Closure) (target : option Vector3) :
  joinedChain prev (emitted (S n) closure target) ->
  joinedChain prev [(call closure target).1]
  /\ joinedChain (Some (call closure target).1)
                 (emitted n (call closure target).2 target).
Proof. rewrite emitted_S. simpl. tauto. Qed.

Lemma fillLength_framed (fuel : nat) (length : R) :
  forall this this' : EndlessCurve,
  framed this ->
  (forall n, joinedChain (last (curves this))
               (emitted n (nextCurveFn this) (target this))) ->
  fillLength fuel this length = Some this' ->
  framed this'.
Proof.
  induction fuel as [|fuel IH]; intros this this' Hfr Hchain Hfill;
    cbn [fillLength] in Hfill.
  - destruct (Num.ltb _ _); [|discriminate]. injection Hfill as <-. exact Hfr.
  - destruct (Num.ltb _ _); [injection Hfill as <-; exact Hfr|].
    destruct (joinedChain_emitted_S _ 0 _ _ (Hchain 1%nat)) as [Hjoin _].
    assert (Hrest : forall n,
      joinedChain (Some (call (nextCurveFn this) (target this)).1)
        (emitted n (call (nextCurveFn this) (target this)).2 (target this))).
    { intros n. exact (proj2 (joinedChain_emitted_S _ n _ _ (Hchain (S n)))). }
    destruct (call (nextCurveFn this) (target this)) as [newCurve closure].
    cbn [fst snd] in Hjoin, Hrest.
    match type of Hfill with
    | context [addCurve ?s newCurve] =>
        assert (Hfr0 : framed s) by (apply (framed_fields this); auto);
        destruct (addCurve_spec s newCurve)
          as (mid & new & Hadd & Hc & _ & _ & _ & Hfn & Htg & _);
        pose proof (addCurve_framed s mid newCurve Hfr0 Hjoin Hadd) as Hmid
    end.
    rewrite Hadd in Hfill. cbn [mbind option_bind] in Hfill.
    cbn [curves nextCurveFn target] in Hc, Hfn, Htg.
    apply (IH mid this' Hmid); [|exact Hfill].
    intros n. rewrite Hc, last_snoc, Hfn, Htg. apply Hrest.
Qed.

Lemma configureStartEnd_framed (fuel : nat) (this this' : EndlessCurve)
    (position length : R) :
  framed this ->
  (forall n, joinedChain (last (curves this))
               (emitted n (nextCurveFn this) (target this))) ->
  configureStartEnd fuel this position length = Some this' ->
  framed this'.
Proof.
  intros Hfr Hchain Hcfg.
  destruct (configureStartEnd_spec _ _ _ _ _ Hcfg)
    as (filled & Hfill & Hc & _ & Hf & _ & _ & Hl & _).
  apply (framed_fields (removeCurvesBefore filled position)); try assumption.
  apply removeCurvesBefore_framed.
  exact (fillLength_framed fuel _ this filled Hfr Hchain Hfill).
Qed.

Lemma smoothlyBuilt_framed (this : EndlessCurve) : smoothlyBuilt this -> framed this.
Proof.
  induction 1 as [g | this t _ IH | this c this' _ IH Hjoin Hadd
                  | fuel this l this' _ IH Hchain Hfill | this p _ IH
                  | fuel this p l this' _ IH Hchain Hcfg].
  - apply constructor_framed.
  - apply (framed_fields this); auto.
  - exact (addCurve_framed _ _ _ IH Hjoin Hadd).
  - exact (fillLength_framed _ _ _ _ IH Hchain Hfill).
  - exact (removeCurvesBefore_framed _ _ IH).
  - exact (configureStartEnd_framed _ _ _ _ _ IH Hchain Hcfg).
Qed.

(** C2 (as amended): when every segment appended to the manager joins the
    segment before it with the same exact end tangent (the dot product of
    the exact unit tangent at [t = 1] of the one and at [t = 0] of the other
    is above [0.9999]), the cached normal at the last sample of segment [i]
    is the cached normal at the first sample of segment [i + 1], for every
    pair of neighbours in the list, after every append, fill and
    eviction. *)
Theorem frames_continuous (this : EndlessCurve) :
  smoothlyBuilt this ->
  forall i, (S i < List.length (curves this))%nat ->
  exists normal,
    normals (frameCache this) !! (i * (samplesPerCurve + 1) + samplesPerCurve)%nat
      = Some normal
    /\ normals (frameCache this) !! (S i * (samplesPerCurve + 1))%nat
      = Some normal.
Proof.
  intros Hbuilt. destruct (smoothlyBuilt_framed this Hbuilt) as (_ & _ & Hcont).
  exact Hcont.
Qed.

(** Along a segment whose exact tangent is the same unit vector everywhere,
    entered with that tangent, the normal is carried over unchanged. *)
Lemma sampleFrames_constant_tangent curve samples prevNormal prevTangent cache
    (T : Vector3) :
  (forall u, getAnalyticalTangent curve u = T) ->
  0.9999 < dot prevTangent T ->
  0.9999 < dot T T ->
  (sampleFrames curve samples prevNormal prevTangent cache).1.2 = prevNormal.
Proof.
  intros HT Hentry Hself. revert prevTangent cache Hentry.
  induction samples as [|i samples IH]; intros prevTangent cache Hentry;
    [reflexivity|].
  cbn [sampleFrames]. rewrite HT.
  rewrite (parallelTransport_parallel _ _ _ Hentry).
  apply IH. exact Hself.
Qed.

Lemma configureStartEnd_total (fuel : nat) (this filled : EndlessCurve)
    (position length : R) :
  fillLength fuel this (position + length) = Some filled ->
  exists this', configureStartEnd fuel this position length = Some this'.
Proof.
  intros Hfill. unfold configureStartEnd. rewrite Hfill.
  cbn [mbind option_bind]. eauto.
Qed.

Lemma emitted_length (n : nat) (closure : Closure) (target : option Vector3) :
  List.length (emitted n closure target) = n.
Proof.
  revert closure; induction n as [|n IH]; intros closure; [reflexivity|].
  rewrite emitted_S. simpl. rewrite IH. reflexivity.
Qed.

(** Segments that all have the same arc length. *)
Lemma arcLength_uniform (len : R) (cs : list CubicBezierCurve3) :
  Forall (fun curve => Curve_getLength curve = len) cs ->
  arcLength cs = INR (List.length cs) * len.
Proof.
  induction 1 as [|c cs Hc _ IH]; [simpl; ring|].
  change (arcLength (c :: cs)) with (Curve_getLength c + arcLength cs).
  rewrite Hc, IH. change (List.length (c :: cs)) with (S (List.length cs)).
  rewrite S_INR. ring.
Qed.

(** With nothing cached and the requested end behind the offset, nothing is
    generated and the window falls back to [uStart = 0], [uLength = 1]. *)
Lemma configureStartEnd_nothing_cached (fuel : nat) (this : EndlessCurve)
    (position length : R) :
  curves this = [] ->
  position + length < distanceOffset this ->
  exists this',
    configureStartEnd fuel this position length = Some this'
    /\ curves this' = []
    /\ distanceOffset this' = distanceOffset this
    /\ uStart this' = 0
    /\ uLength this' = 1.
Proof.
  intros Hempty Hbehind.
  assert (Hzero : getLengthSafe this = 0)
    by (rewrite getLengthSafe_arcLength, Hempty; reflexivity).
  assert (Hsame : removeCurvesBefore this position = this).
  { destruct (removeCurvesBefore_spec this position) as (r & Hr & _ & _ & Hsame & _).
    apply Hsame. rewrite Hempty in Hr. simpl in Hr. lia. }
  unfold configureStartEnd. rewrite fillLength_guard
    by (unfold localDistance; lra).
  cbn [mbind option_bind]. rewrite Hsame, Hzero.
  unfold Num.gtb. rewrite (proj2 (ltb_false 0 0)) by lra.
  eexists. split; [reflexivity|]. simpl. auto.
Qed.

End ManagerFacts.


(** ** Runs over straight segments *)

Section StraightSegments.
#[local] Existing Instance Straight.straightSegments.
#[local] Existing Instance Straight.straightPath.

Lemma straight_nonneg (curve : CubicBezierCurve3) : 0 <= Curve_getLength curve.
Proof. apply sqrt_pos. Qed.

Lemma alongX_length (from len : R) :
  0 <= len ->
  Curve_getLength (Straight.segment (mkV from 0 0) (mkV (from + len) 0 0)) = len.
Proof.
  intros Hlen. cbn. unfold Vec3.length, lengthSq; simpl.
  replace ((from + len - from) * (from + len - from) + (0 - 0) * (0 - 0)
           + (0 - 0) * (0 - 0)) with (len * len) by ring.
  apply sqrt_square, Hlen.
Qed.

Lemma normalize_x_axis (v : Vector3) :
  0 < x v -> y v = 0 -> z v = 0 -> normalize v = mkV 1 0 0.
Proof.
  destruct v as [a b c]; simpl. intros Ha -> ->.
  unfold normalize, Vec3.length, lengthSq; simpl.
  replace (a * a + 0 * 0 + 0 * 0) with (a * a) by ring.
  rewrite sqrt_square by lra. unfold Num.or_one. num_cases; [lra|].
  apply vector_eq; simpl; field; lra.
Qed.

Lemma normalize_z_axis (v : Vector3) :
  x v = 0 -> y v = 0 -> 0 < z v -> normalize v = mkV 0 0 1.
Proof.
  destruct v as [a b c]; simpl. intros -> -> Hc.
  unfold normalize, Vec3.length, lengthSq; simpl.
  replace (0 * 0 + 0 * 0 + c * c) with (c * c) by ring.
  rewrite sqrt_square by lra. unfold Num.or_one. num_cases; [lra|].
  apply vector_eq; simpl; field; lra.
Qed.

Lemma tangent_ahead (u : R) : getAnalyticalTangent Straight.ahead u = mkV 1 0 0.
Proof.
  unfold getAnalyticalTangent. destruct (Num.eqb u 0); [|destruct (Num.eqb u 1)].
  - apply normalize_x_axis; simpl; lra.
  - apply normalize_x_axis; simpl; lra.
  - cbn [Curve_getTangentAt Straight.straightSegments].
    rewrite (normalize_x_axis (sub _ _)) by (simpl; lra).
    apply normalize_x_axis; simpl; lra.
Qed.

Lemma tangent_further (u : R) : getAnalyticalTangent Straight.further u = mkV 1 0 0.
Proof.
  unfold getAnalyticalTangent. destruct (Num.eqb u 0); [|destruct (Num.eqb u 1)].
  - apply normalize_x_axis; simpl; lra.
  - apply normalize_x_axis; simpl; lra.
  - cbn [Curve_getTangentAt Straight.straightSegments].
    rewrite (normalize_x_axis (sub _ _)) by (simpl; lra).
    apply normalize_x_axis; simpl; lra.
Qed.

Lemma tangent_turned (u : R) : getAnalyticalTangent Straight.turned u = mkV 0 0 1.
Proof.
  unfold getAnalyticalTangent. destruct (Num.eqb u 0); [|destruct (Num.eqb u 1)].
  - apply normalize_z_axis; simpl; lra.
  - apply normalize_z_axis; simpl; lra.
  - cbn [Curve_getTangentAt Straight.straightSegments].
    rewrite (normalize_z_axis (sub _ _)) by (simpl; lra).
    apply normalize_z_axis; simpl; lra.
Qed.

Section Sixes.
#[local] Existing Instance Straight.sixes.

Lemma sixes_emitted (n k : nat) (from : R) (target : option Vector3) :
  Forall (fun curve => Curve_getLength curve = 6) (emitted n (k, from) target).
Proof.
  revert k from. induction n as [|n IH]; intros k from; [constructor|].
  rewrite emitted_S. constructor; [|apply IH].
  cbn [call Straight.sixes Straight.alongX fst]. apply alongX_length. lra.
Qed.

Lemma sixes_long_enough (n : nat) (closure : Closure) (target : option Vector3) :
  Forall (fun curve => 6 <= Curve_getLength curve) (emitted n closure target).
Proof.
  destruct closure as [k from].
  eapply Forall_impl; [apply sixes_emitted|]. simpl. intros curve ->. lra.
Qed.

(** With the fuel for the missing length, a call over the generator of
    sixes returns. *)
Lemma sixes_configure (this : EndlessCurve) (position length : R) (fuel : nat) :
  localDistance this (position + length) - getLengthSafe this < INR fuel * 6 ->
  exists this', configureStartEnd fuel this position length = Some this'.
Proof.
  intros Hfuel.
  destruct (fillLength_enough_fuel 6 (position + length) fuel ltac:(lra) this)
    as [filled Hfill]; [intros n; apply sixes_long_enough | exact Hfuel |].
  exact (configureStartEnd_total _ _ _ _ _ Hfill).
Qed.

Lemma frames_continuous_witness :
  exists s1 s2,
    addCurve (constructor (gen := Straight.sixes) (0%nat, 0)) Straight.ahead = Some s1
    /\ addCurve s1 Straight.further = Some s2
    /\ smoothlyBuilt s2
    /\ exists normal,
         normals (frameCache s2) !! 10%nat = Some normal
         /\ normals (frameCache s2) !! 11%nat = Some normal.
Proof.
  destruct (addCurve_spec (constructor (gen := Straight.sixes) (0%nat, 0)) Straight.ahead)
    as (s1 & new1 & Hadd1 & Hc1 & _).
  destruct (addCurve_spec s1 Straight.further) as (s2 & new2 & Hadd2 & Hc2 & _).
  exists s1, s2. split; [exact Hadd1|]. split; [exact Hadd2|].
  assert (Hsmooth : smoothlyBuilt s2).
  { apply (smoothly_addCurve s1 Straight.further s2); [|
      |exact Hadd2].
    - apply (smoothly_addCurve (constructor (gen := Straight.sixes) (0%nat, 0)) Straight.ahead s1);
        [apply smoothly_constructor | simpl; auto | exact Hadd1].
    - rewrite Hc1. simpl. split; [|exact I].
      unfold joined. rewrite tangent_ahead, tangent_further.
      unfold dot; simpl. lra. }
  split; [exact Hsmooth|].
  apply (frames_continuous s2 Hsmooth 0%nat).
  rewrite Hc2, Hc1. simpl. lia.
Defined.

(** A segment that leaves the end of the one before it at a right angle:
    the normal at its first sample is perpendicular to its tangent, the
    normal at the last sample of the segment before it is that very
    tangent. *)
Lemma kink_breaks_continuity :
  exists s1 s2,
    addCurve (constructor (gen := Straight.sixes) (0%nat, 0)) Straight.ahead = Some s1
    /\ addCurve s1 Straight.turned = Some s2
    /\ normals (frameCache s2) !! 10%nat = Some (mkV 0 0 1)
    /\ normals (frameCache s2) !! 10%nat <> normals (frameCache s2) !! 11%nat.
Proof.
  destruct (addCurve_spec (constructor (gen := Straight.sixes) (0%nat, 0)) Straight.ahead)
    as (s1 & new1 & Hadd1 & Hc1 & _ & _ & _ & _ & _ & Hlen1 & Hn1 & _ & _ & _
        & HlastN1).
  destruct (addCurve_spec s1 Straight.turned)
    as (s2 & new2 & Hadd2 & Hc2 & _ & _ & _ & _ & _ & Hlen2 & Hn2 & _ & _
        & Hfirst2 & _).
  exists s1, s2. split; [exact Hadd1|]. split; [exact Hadd2|].
  (* the frame of the first segment *)
  assert (Hframed1 : framed s1).
  { apply (addCurve_framed (constructor (gen := Straight.sixes) (0%nat, 0)) s1 Straight.ahead);
      [apply constructor_framed | simpl; auto | exact Hadd1]. }
  destruct Hframed1 as ([Hal1 _] & Hlast1 & _).
  assert (HN1 : lastNormal s1 = mkV 0 0 1).
  { rewrite (HlastN1 eq_refl).
    rewrite (sampleFrames_constant_tangent _ _ _ _ _ (mkV 1 0 0));
      [|exact tangent_ahead|rewrite tangent_ahead; unfold dot; simpl; lra
       |unfold dot; simpl; lra].
    rewrite tangent_ahead. unfold getArbitraryPerpendicular, Num.gtb.
    rewrite (proj2 (ltb_false 0.9 _)).
    - apply normalize_z_axis; simpl; lra.
    - unfold dot; simpl.
      replace (1 * 0 + 0 * 1 + 0 * 0) with 0 by ring. rewrite Rabs_R0. lra. }
  rewrite Hc1 in Hal1. simpl in Hal1, Hn1.
  assert (H10 : normals (frameCache s2) !! 10%nat = Some (mkV 0 0 1)).
  { rewrite Hn2, lookup_app_l by lia.
    rewrite <- HN1, <- Hlast1 by (rewrite Hc1; done).
    rewrite last_lookup, Hal1. reflexivity. }
  split; [exact H10|].
  rewrite H10, Hn2, lookup_app_r by lia. rewrite Hal1.
  change (11 - 11)%nat with 0%nat.
  rewrite (Hfirst2 Straight.ahead) by (rewrite Hc1; reflexivity).
  rewrite HN1, tangent_ahead, tangent_turned.
  intros [= E].
  pose proof (parallelTransport_perpendicular (mkV 0 0 1) (mkV 1 0 0) (mkV 0 0 1))
    as Hperp.
  rewrite <- E in Hperp. unfold dot, lengthSq in Hperp; simpl in Hperp.
  assert (0 * 0 + 0 * 0 + 1 * 1 = 0) by (apply Hperp; lra). lra.
Qed.

Lemma frame_cache_aligned_witness :
  aligned (constructor (gen := Straight.sixes) (0%nat, 0))
  /\ exists this',
       addCurve (constructor (gen := Straight.sixes) (0%nat, 0)) Straight.ahead
         = Some this'
       /\ aligned this'.
Proof.
  pose proof (frame_cache_aligned (constructor (gen := Straight.sixes) (0%nat, 0))
                (built_constructor _)) as (Hal & Hadd & _).
  split; [exact Hal|].
  destruct (Hadd Straight.ahead) as (this' & Hsome & Hal' & _).
  exists this'. split; [exact Hsome | exact Hal'].
Defined.

(** Five segments of length [6], evicted before position [20]: three
    segments go, [distanceOffset] becomes [18]. *)
Lemma eviction_exact_witness :
  exists filled,
    fillLength 5 (constructor (gen := Straight.sixes) (0%nat, 0)) 29 = Some filled
    /\ Forall (fun curve => Curve_getLength curve = 6) (curves filled)
    /\ List.length (curves filled) = 5%nat
    /\ distanceOffset (removeCurvesBefore filled 20) = 18
    /\ List.length (curves (removeCurvesBefore filled 20)) = 2%nat.
Proof.
  destruct (fillLength_enough_fuel 6 29 5 ltac:(lra)
              (constructor (gen := Straight.sixes) (0%nat, 0)))
    as [filled Hfill].
  { intros n. apply sixes_long_enough. }
  { unfold localDistance, getLengthSafe; simpl. lra. }
  exists filled. split; [exact Hfill|].
  destruct (fillLength_spec _ _ _ _ Hfill)
    as (n & new & Hn & Hc & _ & _ & _ & Hoff & _ & _ & _ & Hguard & _).
  simpl in Hc, Hoff.
  assert (Hsix : Forall (fun curve => Curve_getLength curve = 6) (curves filled))
    by (rewrite Hc; apply sixes_emitted).
  assert (Hlen : List.length (curves filled) = n)
    by (rewrite Hc; apply emitted_length).
  assert (En : n = 5%nat).
  { rewrite getLengthSafe_arcLength, (arcLength_uniform 6 _ Hsix), Hlen in Hguard.
    unfold localDistance in Hguard. rewrite Hoff in Hguard.
    assert (Hfour : (n <= 4)%nat -> INR n <= 4).
    { intros Hle. apply le_INR in Hle. simpl in Hle. lra. }
    destruct (decide (n <= 4)%nat) as [Hle|Hgt]; [specialize (Hfour Hle); lra | lia]. }
  rewrite En in Hlen. clear En Hn Hc Hguard.
  split; [exact Hsix|]. split; [exact Hlen|].
  assert (Hpos : Forall (fun curve => 0 <= Curve_getLength curve) (curves filled)).
  { eapply Forall_impl; [exact Hsix|]. simpl. intros curve ->. lra. }
  destruct (eviction_exact filled 20 Hpos) as (r & Hr & Hiff & Hc' & _ & _ & Hoff').
  assert (Htake : forall k, (k <= 5)%nat ->
            arcLength (take k (curves filled)) = INR k * 6).
  { intros k Hk. rewrite (arcLength_uniform 6).
    - rewrite length_take, Hlen. f_equal. f_equal. lia.
    - apply Forall_take, Hsix. }
  assert (Er : r = 3%nat).
  { pose proof (Hiff 2%nat ltac:(lia)) as [_ Hin].
    pose proof (Hiff 3%nat ltac:(lia)) as [Hout _].
    rewrite Htake in Hin, Hout by lia. rewrite Hoff in Hin, Hout.
    simpl in Hin, Hout.
    assert (2 < r)%nat by (apply Hin; lra).
    destruct (decide (3 < r)%nat) as [Hbig|Hsmall]; [|lia].
    specialize (Hout Hbig). lra. }
  subst r. split.
  - rewrite Hoff', Hoff, Htake by lia. simpl. lra.
  - rewrite Hc', length_drop, Hlen. reflexivity.
Defined.

Lemma window_parameters_witness :
  exists this',
    configureStartEnd 1 (constructor (gen := Straight.sixes) (0%nat, 0)) 0 1
      = Some this'
    /\ (0 < getLengthSafe this' ->
          uStart this' = (0 - distanceOffset this') / getLengthSafe this'
          /\ uLength this' = 1 / getLengthSafe this').
Proof.
  destruct (sixes_configure (constructor (gen := Straight.sixes) (0%nat, 0)) 0 1 1)
    as [this' Hcfg].
  { unfold localDistance, getLengthSafe; simpl. lra. }
  exists this'. split; [exact Hcfg|].
  exact (proj1 (window_parameters 1 _ this' 0 1 Hcfg)).
Defined.

(** Nothing is cached when the requested end lies behind the start of the
    curve: [uLength] falls back to [1], not [0]. *)
Lemma empty_window_length_one :
  exists this',
    configureStartEnd 0 (constructor (gen := Straight.sixes) (0%nat, 0)) (-5) 2
      = Some this'
    /\ getLengthSafe this' = 0
    /\ uStart this' = 0
    /\ uLength this' = 1
    /\ uLength this' <> 0.
Proof.
  destruct (configureStartEnd_nothing_cached 0
              (constructor (gen := Straight.sixes) (0%nat, 0)) (-5) 2 eq_refl)
    as (this' & Hcfg & Hc & _ & Hus & Hul); [simpl; lra|].
  exists this'. split; [exact Hcfg|].
  split; [rewrite getLengthSafe_arcLength, Hc; reflexivity|].
  split; [exact Hus|]. split; [exact Hul|]. rewrite Hul. lra.
Qed.

Lemma window_monotone_witness :
  exists states,
    configureAll 2 (constructor (gen := Straight.sixes) (0%nat, 0)) [(0, 1); (7, 1)]
      = Some states
    /\ Sorted Rle (0 :: map distanceOffset states)
    /\ Forall2 (fun this' call => distanceOffset this' <= call.1) states
               [(0, 1); (7, 1)].
Proof.
  destruct (sixes_configure (constructor (gen := Straight.sixes) (0%nat, 0)) 0 1 2)
    as [first Hfirst].
  { unfold localDistance, getLengthSafe; simpl. lra. }
  pose proof (configureStartEnd_guard _ _ _ _ _ Hfirst) as Hguard.
  destruct (sixes_configure first 7 1 2) as [second Hsecond].
  { unfold localDistance in *. simpl. lra. }
  assert (Hrun : configureAll 2 (constructor (gen := Straight.sixes) (0%nat, 0))
                   [(0, 1); (7, 1)] = Some [first; second]).
  { cbn [configureAll]. rewrite Hfirst. cbn [mbind option_bind].
    rewrite Hsecond. reflexivity. }
  exists [first; second]. split; [exact Hrun|].
  apply (window_monotone (gen := Straight.sixes) 2 (0%nat, 0)
           [(0, 1); (7, 1)] [first; second] straight_nonneg).
  - simpl. repeat constructor; lra.
  - exact Hrun.
Defined.

(** A first position below zero: the offset, still [0], is above it. *)
Lemma negative_position_below_offset :
  exists this',
    configureAll 0 (constructor (gen := Straight.sixes) (0%nat, 0)) [(-5, 2)]
      = Some [this']
    /\ Sorted Rle (map fst [(-5, 2)])
    /\ ~ distanceOffset this' <= -5.
Proof.
  destruct (configureStartEnd_nothing_cached 0
              (constructor (gen := Straight.sixes) (0%nat, 0)) (-5) 2 eq_refl)
    as (this' & Hcfg & _ & Hoff & _); [simpl; lra|].
  exists this'. split; [|split].
  - cbn [configureAll]. rewrite Hcfg. reflexivity.
  - simpl. repeat constructor.
  - rewrite Hoff. simpl. lra.
Qed.

Lemma window_never_empty_witness :
  exists this',
    configureStartEnd 1 (constructor (gen := Straight.sixes) (0%nat, 0)) 0 1
      = Some this'
    /\ curves this' <> []
    /\ normals (frameCache this') <> [].
Proof.
  destruct (sixes_configure (constructor (gen := Straight.sixes) (0%nat, 0)) 0 1 1)
    as [this' Hcfg].
  { unfold localDistance, getLengthSafe; simpl. lra. }
  exists this'. split; [exact Hcfg|].
  assert (Hlen : 0 <= 1) by lra.
  assert (Hend : distanceOffset (constructor (gen := Straight.sixes) (0%nat, 0))
                 <= 0 + 1) by (simpl; lra).
  destruct (window_never_empty 1 _ this' 0 1 (built_constructor _) Hlen Hend Hcfg)
    as (Hcurves & Hnormals & _).
  split; [exact Hcurves | exact Hnormals].
Defined.

Lemma sixes_fill_returns :
  exists fuel this',
    fillLength fuel (constructor (gen := Straight.sixes) (0%nat, 0)) 29 = Some this'
    /\ localDistance this' 29 < getLengthSafe this'.
Proof.
  assert (Hdelta : 0 < 6) by lra.
  exact (fillLength_returns_exact (constructor (gen := Straight.sixes) (0%nat, 0))
           29 6 Hdelta (fun n => sixes_long_enough n _ _)).
Defined.

End Sixes.

Section Halves.
#[local] Existing Instance Straight.halves.

Lemma half_power_pos (n : nat) : 0 < (/ 2) ^ n.
Proof. apply pow_lt. lra. Qed.

Lemma halves_positive (n k : nat) (from : R) (target : option Vector3) :
  Forall (fun curve => 0 < Curve_getLength curve) (emitted n (k, from) target).
Proof.
  revert k from. induction n as [|n IH]; intros k from; [constructor|].
  rewrite emitted_S. constructor; [|apply IH].
  cbn [call Straight.halves Straight.alongX fst].
  pose proof (half_power_pos (S k)).
  rewrite alongX_length; lra.
Qed.

(** As long as the cached length is [1 - (1/2)^n] and the generator is at
    its [n]-th segment, no number of calls lets [fillLength(1)] finish. *)
Lemma halves_out_of_fuel (fuel : nat) :
  forall (n : nat) (from : R) (this : EndlessCurve),
  distanceOffset this = 0 ->
  nextCurveFn this = (n, from) ->
  arcLength (curves this) = 1 - (/ 2) ^ n ->
  fillLength fuel this 1 = None.
Proof.
  induction fuel as [|fuel IH]; intros n from this Hoff Hfn Hlen;
    cbn [fillLength];
    pose proof (half_power_pos n) as Hpow;
    (rewrite (proj2 (ltb_false _ _));
     [|rewrite getLengthSafe_arcLength, Hlen; unfold localDistance;
       rewrite Hoff; lra]).
  - reflexivity.
  - rewrite Hfn. cbn [call Straight.halves Straight.alongX].
    match goal with
    | |- context [addCurve ?s ?c] =>
        destruct (addCurve_spec s c)
          as (mid & new & Hadd & Hc & Hoff' & _ & _ & Hfn' & _)
    end.
    rewrite Hadd. cbn [mbind option_bind].
    cbn [curves distanceOffset nextCurveFn] in Hc, Hoff', Hfn'.
    apply (IH (S n) (from + (/ 2) ^ S n) mid).
    + rewrite Hoff'. exact Hoff.
    + exact Hfn'.
    + rewrite Hc, arcLength_app, Hlen.
      cbn [arcLength]. rewrite alongX_length by (pose proof (half_power_pos (S n)); lra).
      simpl. lra.
Qed.

(** In exact arithmetic every segment of the generator of halves is longer
    than zero, and yet [fillLength(1)] runs out of any number of calls: the
    cached length [1 - (1/2)^n] stays below [1].  The sums the program
    computes differ: in binary64 the cached length of the same segments
    passes [1] with the 46th, see [halves_fill_after_46]. *)
Lemma halves_never_fill_exact :
  (forall n, Forall (fun curve => 0 < Curve_getLength curve)
                    (emitted n ((0%nat, 0) : Closure) None))
  /\ forall fuel,
       fillLength fuel (constructor (gen := Straight.halves) (0%nat, 0)) 1 = None.
Proof.
  split; [intros n; apply halves_positive|].
  intros fuel. apply (halves_out_of_fuel fuel 0 0); try reflexivity.
  simpl. lra.
Qed.

End Halves.

End StraightSegments.

(** ** The manager over the steering generator *)

Import Steering.

Section SteeringManager.
Context {lib : CurveLib}.
#[local] Existing Instance steeringGenerator.

Lemma eqb_refl (a : R) : Num.eqb a a = true.
Proof. num_cases; [reflexivity|congruence]. Qed.

Lemma eqb_1_0 : Num.eqb 1 0 = false.
Proof. num_cases; [lra|reflexivity]. Qed.

(** The segment a call emits starts along the stored direction, ends along
    the new one, and spans the chosen length. *)
Lemma nextCurve_shape options noise2D random st target :
  lengthSq (lastDir st) = 1 ->
  0 < segmentLength_min options
      + random * (segmentLength_max options - segmentLength_min options) ->
  getAnalyticalTangent (nextCurve options noise2D random st target).1 0
    = lastDir st
  /\ getAnalyticalTangent (nextCurve options noise2D random st target).1 1
    = lastDir (nextCurve options noise2D random st target).2
  /\ Vec3.length (sub (v3 (nextCurve options noise2D random st target).1)
                      (v0 (nextCurve options noise2D random st target).1))
    = segmentLength_min options
      + random * (segmentLength_max options - segmentLength_min options).
Proof.
  intros Hunit Hlen.
  pose proof (steeringForce_unit options noise2D
    (segmentLength_min options
     + random * (segmentLength_max options - segmentLength_min options))
    (noiseTime st + 0.01) st target Hunit) as Hdesired.
  unfold nextCurve.
  destruct (steeringForce _ _ _ _ _ _) as [[desiredDir oa] ca].
  cbn [fst snd] in Hdesired.
  set (length := segmentLength_min options
        + random * (segmentLength_max options - segmentLength_min options)) in *.
  set (newDir := limitTurnRate (lastDir st) desiredDir (maxTurnRate options)).
  assert (Hnew : lengthSq newDir = 1)
    by (apply limitTurnRate_unit; assumption).
  set (controlDist :=
    length * (0.33 + 0.34 * Rmin 1 (angleTo (lastDir st) newDir / (PI / 2)))).
  assert (Hcd : 0 < controlDist).
  { subst controlDist. apply Rmult_lt_0_compat; [exact Hlen|].
    assert (0 <= Rmin 1 (angleTo (lastDir st) newDir / (PI / 2))).
    { apply Rmin_glb; [lra|].
      pose proof (angleTo_bounds (lastDir st) newDir). pose proof PI_RGT_0.
      apply Rmult_le_pos; [lra|]. apply Rlt_le, Rinv_0_lt_compat. lra. }
    lra. }
  unfold getAnalyticalTangent. rewrite eqb_refl, eqb_1_0, eqb_refl.
  cbn [fst snd v0 v1 v2 v3 lastDir].
  split; [|split].
  - replace (sub (add (lastPoint st) (multiplyScalar (lastDir st) controlDist))
                 (lastPoint st))
      with (multiplyScalar (lastDir st) controlDist)
      by (apply vector_eq; simpl; ring).
    apply normalize_scaled_unit; assumption.
  - replace (sub (add (lastPoint st) (multiplyScalar newDir length))
                 (sub (add (lastPoint st) (multiplyScalar newDir length))
                      (multiplyScalar newDir controlDist)))
      with (multiplyScalar newDir controlDist)
      by (apply vector_eq; simpl; ring).
    apply normalize_scaled_unit; assumption.
  - replace (sub (add (lastPoint st) (multiplyScalar newDir length)) (lastPoint st))
      with (multiplyScalar newDir length)
      by (apply vector_eq; simpl; ring).
    unfold Vec3.length.
    replace (lengthSq (multiplyScalar newDir length)) with (length * length).
    + apply sqrt_square. lra.
    + unfold lengthSq in *; simpl. nsatz.
Qed.

Lemma steady_length (g : GeneratorClosure) :
  steady g ->
  segmentLength_min (options g)
  <= segmentLength_min (options g)
     + randoms g (calls g)
       * (segmentLength_max (options g) - segmentLength_min (options g)).
Proof.
  intros (_ & Hmin & Hmax & Hrand). specialize (Hrand (calls g)). nra.
Qed.

Lemma steady_call (g : GeneratorClosure) (target : option Vector3) :
  steady g ->
  steady (call g target).2
  /\ options (call g target).2 = options g
  /\ getAnalyticalTangent (call g target).1 0 = lastDir (heading g)
  /\ getAnalyticalTangent (call g target).1 1
     = lastDir (heading (call g target).2)
  /\ segmentLength_min (options g)
     <= Vec3.length (sub (v3 (call g target).1) (v0 (call g target).1)).
Proof.
  intros Hsteady. pose proof (steady_length g Hsteady) as Hlen.
  destruct Hsteady as (Hreach & Hmin & Hmax & Hrand).
  pose proof (nextCurve_shape (options g) (noise2D g) (randoms g (calls g))
                (heading g) target (reachable_unit _ Hreach) ltac:(lra))
    as (Hstart & Hend & Hchord).
  pose proof (reachable_next (options g) (noise2D g) (randoms g (calls g))
                (heading g) target Hreach) as Hreach'.
  cbn [call steeringGenerator].
  destruct (nextCurve _ _ _ _ _) as [curve h]. cbn [fst snd] in *.
  split; [unfold steady; cbn [heading options randoms]; auto|].
  split; [reflexivity|].
  split; [exact Hstart|]. split; [exact Hend|]. lra.
Qed.

(** Every segment the generator emits joins the one before it, and its
    chord is at least [segmentLength.min] long. *)
Lemma steady_emitted (n : nat) :
  forall (g : GeneratorClosure) (target : option Vector3)
         (prev : option CubicBezierCurve3),
  steady g ->
  (forall curve, prev = Some curve ->
     getAnalyticalTangent curve 1 = lastDir (heading g)) ->
  joinedChain prev (emitted n g target)
  /\ Forall (fun curve => segmentLength_min (options g)
                          <= Vec3.length (sub (v3 curve) (v0 curve)))
            (emitted n g target)
  /\ steady (advanced n g target)
  /\ options (advanced n g target) = options g
  /\ (forall curve, last (emitted n g target) = Some curve ->
        getAnalyticalTangent curve 1 = lastDir (heading (advanced n g target))).
Proof.
  induction n as [|n IH]; intros g target prev Hsteady Hprev.
  - simpl. split; [exact I|]. split; [constructor|]. split; [exact Hsteady|].
    split; [reflexivity|]. intros curve Hcurve. discriminate.
  - destruct (steady_call g target Hsteady)
      as (Hsteady' & Hopts & Hstart & Hend & Hlong).
    destruct (IH (@call steeringGenerator g target).2 target (Some (@call steeringGenerator g target).1) Hsteady')
      as (Hchain & Hall & Hadv & Hopts' & Hlast).
    { intros curve [= <-]. exact Hend. }
    rewrite emitted_S. cbn [advanced joinedChain].
    split; [split; [|exact Hchain]|].
    { destruct prev as [curve|]; [|exact I].
      unfold joined. rewrite (Hprev curve eq_refl), Hstart.
      pose proof (reachable_unit _ (proj1 Hsteady)) as Hunit.
      unfold lengthSq in Hunit. unfold dot. lra. }
    split.
    { constructor; [exact Hlong|]. rewrite <- Hopts. exact Hall. }
    split; [exact Hadv|]. split; [congruence|].
    intros curve Hcurve. rewrite last_cons in Hcurve.
    destruct (last (emitted n (@call steeringGenerator g target).2 target)) as [final|] eqn:Hfinal.
    + injection Hcurve as <-. apply Hlast. reflexivity.
    + injection Hcurve as <-.
      apply last_None in Hfinal.
      assert (n = 0%nat) as ->
        by (rewrite <- (emitted_length n (@call steeringGenerator g target).2 target), Hfinal;
            reflexivity).
      exact Hend.
Qed.

Lemma linked_chain (this : EndlessCurve) (n : nat) :
  linked this ->
  joinedChain (last (curves this)) (emitted n (nextCurveFn this) (target this)).
Proof.
  intros [Hsteady Hlast].
  exact (proj1 (steady_emitted n _ (target this) _ Hsteady Hlast)).
Qed.

Lemma fillLength_linked (fuel : nat) (this this' : EndlessCurve) (length : R) :
  linked this -> fillLength fuel this length = Some this' -> linked this'.
Proof.
  intros [Hsteady Hlast] Hfill.
  destruct (fillLength_spec _ _ _ _ Hfill)
    as (n & new & _ & Hc & _ & _ & _ & _ & _ & _ & _ & _ & _ & Hfn).
  destruct (steady_emitted n _ (target this) _ Hsteady Hlast)
    as (_ & _ & Hadv & _ & Hend).
  split; [rewrite Hfn; exact Hadv|].
  intros curve Hcurve. rewrite Hfn. rewrite Hc, last_app in Hcurve.
  destruct (last (emitted n (nextCurveFn this) (target this))) as [final|] eqn:Hfinal.
  - injection Hcurve as <-. apply Hend. reflexivity.
  - apply last_None in Hfinal.
    assert (n = 0%nat) as ->
      by (rewrite <- (emitted_length n (nextCurveFn this) (target this)), Hfinal;
          reflexivity).
    simpl. apply Hlast. exact Hcurve.
Qed.

Lemma removeCurvesBefore_linked (this : EndlessCurve) (position : R) :
  linked this -> linked (removeCurvesBefore this position).
Proof.
  intros [Hsteady Hlast].
  destruct (removeCurvesBefore_spec this position)
    as (r & _ & _ & _ & _ & Hc & _ & _ & _ & _ & _ & Hfn & _).
  split; [rewrite Hfn; exact Hsteady|].
  intros curve Hcurve. rewrite Hfn. apply Hlast.
  rewrite Hc, last_lookup, lookup_drop, length_drop in Hcurve.
  rewrite last_lookup, <- Hcurve. f_equal.
  apply lookup_lt_Some in Hcurve. lia.
Qed.

Lemma configureStartEnd_linked (fuel : nat) (this this' : EndlessCurve)
    (position length : R) :
  linked this -> configureStartEnd fuel this position length = Some this' ->
  linked this'.
Proof.
  intros Hlinked Hcfg.
  destruct (configureStartEnd_spec _ _ _ _ _ Hcfg)
    as (filled & Hfill & Hc & _ & _ & Hfn & _).
  destruct (removeCurvesBefore_linked filled position
              (fillLength_linked _ _ _ _ Hlinked Hfill)) as [Hsteady Hlast].
  split; [rewrite Hfn; exact Hsteady|].
  intros curve Hcurve. rewrite Hfn. apply Hlast. rewrite <- Hc. exact Hcurve.
Qed.

(** A manager that gets all its segments from a steering generator in
    working order was built smoothly, so its frames are continuous across
    every segment boundary. *)
Lemma driven_smoothlyBuilt (start : GeneratorClosure) (this : EndlessCurve) :
  steady start -> driven start this -> smoothlyBuilt this /\ linked this.
Proof.
  intros Hsteady. induction 1 as [| this t _ [IHs IHl]
                                  | fuel this l this' _ [IHs IHl] Hfill
                                  | this p _ [IHs IHl]
                                  | fuel this p l this' _ [IHs IHl] Hcfg].
  - split; [apply smoothly_constructor|]. split; [exact Hsteady|].
    intros curve Hcurve. discriminate.
  - split; [apply smoothly_setTarget, IHs | exact IHl].
  - split; [|exact (fillLength_linked _ _ _ _ IHl Hfill)].
    apply (smoothly_fillLength fuel this l this' IHs); [|exact Hfill].
    intros n. apply linked_chain, IHl.
  - split; [apply smoothly_removeCurvesBefore, IHs
           | apply removeCurvesBefore_linked, IHl].
  - split; [|exact (configureStartEnd_linked _ _ _ _ _ IHl Hcfg)].
    apply (smoothly_configureStartEnd fuel this p l this' IHs); [|exact Hcfg].
    intros n. apply linked_chain, IHl.
Qed.

Lemma createCurveGenerator_steady options noise2D randoms :
  0 < segmentLength_min options ->
  segmentLength_min options <= segmentLength_max options ->
  (forall n, 0 <= randoms n <= 1) ->
  steady (createCurveGenerator options noise2D randoms).
Proof.
  intros Hmin Hmax Hrand. split; [apply reachable_init|]. simpl. auto.
Qed.

(** For every sequence of segments the steering generator emits (with
    [0 < segmentLength.min <= segmentLength.max]) and the manager appends,
    whatever the targets set in between, the frames are continuous across
    the segment boundaries. *)
Lemma steering_frames_continuous options noise2D randoms (this : EndlessCurve) :
  0 < segmentLength_min options ->
  segmentLength_min options <= segmentLength_max options ->
  (forall n, 0 <= randoms n <= 1) ->
  driven (createCurveGenerator options noise2D randoms) this ->
  continuousFrames this.
Proof.
  intros Hmin Hmax Hrand Hdriven.
  pose proof (createCurveGenerator_steady options noise2D randoms Hmin Hmax Hrand)
    as Hsteady.
  destruct (driven_smoothlyBuilt _ this Hsteady Hdriven) as [Hsmooth _].
  destruct (smoothlyBuilt_framed this Hsmooth) as (_ & _ & Hcont).
  exact Hcont.
Qed.

(** With [segmentLength.min > 0] every fill of such a manager returns (the
    chord of a curve is not longer than its arc). *)
Lemma steering_fillLength_returns options noise2D randoms (this : EndlessCurve)
    (length : R) :
  (forall curve,
     Vec3.length (sub (v3 curve) (v0 curve)) <= Curve_getLength curve) ->
  0 < segmentLength_min options ->
  segmentLength_min options <= segmentLength_max options ->
  (forall n, 0 <= randoms n <= 1) ->
  driven (createCurveGenerator options noise2D randoms) this ->
  exists fuel this', fillLength fuel this length = Some this'.
Proof.
  intros Hchord Hmin Hmax Hrand Hdriven.
  pose proof (createCurveGenerator_steady options noise2D randoms Hmin Hmax Hrand)
    as Hsteady.
  destruct (driven_smoothlyBuilt _ this Hsteady Hdriven) as [_ [Hst Hlast]].
  destruct (Hst) as (_ & Hpos & _).
  apply (fillLength_fuel_exists this length
           (segmentLength_min (CurveGenerator.options (nextCurveFn this))) Hpos).
  intros n.
  eapply Forall_impl;
    [exact (proj1 (proj2 (steady_emitted n _ (target this) _ Hst Hlast)))|].
  intros curve Hcurve. simpl in Hcurve. pose proof (Hchord curve). lra.
Qed.

End SteeringManager.

(* ================================================================== *)
(** * Part III: further properties of the code                         *)
(* ================================================================== *)

(** ** Rotations and frames *)

(** The quaternion rotation in Rodrigues' form. *)
Lemma applyAxisAngle_rodrigues (v a : Vector3) (t : R) :
  applyAxisAngle v a t
  = add v (add (multiplyScalar (crossVectors a v) (sin t))
               (multiplyScalar (crossVectors a (crossVectors a v)) (1 - cos t))).
Proof.
  assert (Hs : sin t = 2 * sin (t / 2) * cos (t / 2))
    by (rewrite <- sin_2a; f_equal; field).
  assert (Hc : cos t = 1 - 2 * sin (t / 2) * sin (t / 2))
    by (rewrite <- cos_2a_sin; f_equal; field).
  rewrite Hs, Hc.
  unfold applyAxisAngle, Vec3.applyQuaternion, Vec3.setFromAxisAngle.
  apply vector_eq; simpl; ring.
Qed.

Lemma applyAxisAngle_zero (v a : Vector3) : applyAxisAngle v a 0 = v.
Proof.
  rewrite applyAxisAngle_rodrigues, sin_0, cos_0.
  apply vector_eq; simpl; ring.
Qed.

(** The squared cross product of two unit vectors (Lagrange). *)
Lemma cross_lengthSq (a b : Vector3) :
  lengthSq (crossVectors a b) = lengthSq a * lengthSq b - dot a b * dot a b.
Proof. unfold lengthSq, dot, crossVectors; simpl. ring. Qed.

Lemma dot_unit_bound (a b : Vector3) :
  lengthSq a = 1 -> lengthSq b = 1 -> -1 <= dot a b <= 1.
Proof.
  intros Ha Hb. pose proof (cross_lengthSq a b) as Hc.
  pose proof (lengthSq_nonneg (crossVectors a b)). rewrite Ha, Hb in Hc.
  split; nra.
Qed.

(** [normalize] gives a unit vector or, of the zero vector, the zero
    vector. *)
Lemma normalize_unit_or_zero (v : Vector3) :
  lengthSq (normalize v) = 1 \/ normalize v = mkV 0 0 0.
Proof.
  pose proof (lengthSq_nonneg v) as [Hpos|Hzero].
  - left. apply normalize_unit, Hpos.
  - right. destruct v as [a b c]. unfold lengthSq in Hzero; simpl in Hzero.
    assert (a = 0) by nra. assert (b = 0) by nra. assert (c = 0) by nra.
    subst. unfold normalize, divideScalar, multiplyScalar; simpl.
    apply vector_eq; simpl; ring.
Qed.

Lemma normalize_lengthSq_le (v : Vector3) : lengthSq (normalize v) <= 1.
Proof.
  destruct (normalize_unit_or_zero v) as [-> | ->]; [lra|].
  unfold lengthSq; simpl. lra.
Qed.

(** The algebra of the rotation about [pt x nt] by the angle between the
    unit vectors [pt] and [nt] ([L] its sine, [d] its cosine, [k = 1 / L]):
    it carries [pt] onto [nt] and a vector perpendicular to [pt] to one
    perpendicular to [nt]. *)
Lemma transport_algebra (pn pt nt : Vector3) (k L d : R) :
  lengthSq pt = 1 -> lengthSq nt = 1 -> dot pn pt = 0 ->
  d = dot pt nt -> L * L = 1 - d * d -> k * L = 1 ->
  let a := multiplyScalar (crossVectors pt nt) k in
  let rot v :=
    add v (add (multiplyScalar (crossVectors a v) L)
               (multiplyScalar (crossVectors a (crossVectors a v)) (1 - d))) in
  dot (rot pn) nt = 0 /\ rot pt = nt.
Proof.
  destruct pn as [nx ny nz], pt as [px py pz], nt as [tx ty tz].
  unfold lengthSq, dot; simpl. intros Hpt Hnt Hperp Hd HL Hk.
  split.
  - unfold dot, add, multiplyScalar, crossVectors; simpl. nsatz.
  - apply vector_eq; unfold add, multiplyScalar, crossVectors; simpl; nsatz.
Qed.

(** X1. In its rotating branch (tangents neither nearly parallel nor
    degenerate), [parallelTransport] applies to the previous normal the
    rotation that carries the previous unit tangent onto the new one: from
    an orthonormal previous frame it returns a unit normal exactly
    perpendicular to the new tangent, and the re-orthogonalisation and the
    final [normalize] change nothing. *)
Theorem parallelTransport_frame (prevNormal prevTangent newTangent : Vector3) :
  lengthSq prevNormal = 1 ->
  lengthSq prevTangent = 1 ->
  lengthSq newTangent = 1 ->
  dot prevNormal prevTangent = 0 ->
  dot prevTangent newTangent <= 0.9999 ->
  0.0001 <= lengthSq (crossVectors prevTangent newTangent) ->
  let axis := normalize (crossVectors prevTangent newTangent) in
  let angle := acos (dot prevTangent newTangent) in
  parallelTransport prevNormal prevTangent newTangent
    = applyAxisAngle prevNormal axis angle
  /\ applyAxisAngle prevTangent axis angle = newTangent
  /\ lengthSq (parallelTransport prevNormal prevTangent newTangent) = 1
  /\ dot (parallelTransport prevNormal prevTangent newTangent) newTangent = 0.
Proof.
  intros Hn Hpt Hnt Hperp Hdot Hcross axis angle.
  set (d := dot prevTangent newTangent) in *.
  set (c := crossVectors prevTangent newTangent) in *.
  pose proof (dot_unit_bound _ _ Hpt Hnt) as Hd. fold d in Hd.
  assert (HcSq : lengthSq c = 1 - d * d).
  { subst c d. rewrite cross_lengthSq, Hpt, Hnt. ring. }
  set (L := Vec3.length c).
  assert (HL : L * L = 1 - d * d) by (rewrite <- HcSq; apply length_sqr).
  assert (HLpos : 0 < L) by (apply length_pos; lra).
  assert (Haxis : axis = multiplyScalar c (1 / L)).
  { subst axis. unfold normalize, divideScalar. fold L.
    unfold Num.or_one. num_cases; [lra|reflexivity]. }
  assert (Hsin : sin angle = L).
  { subst angle. rewrite sin_acos by exact Hd.
    unfold L, Vec3.length. rewrite HcSq. f_equal; unfold Rsqr; ring. }
  assert (Hcos : cos angle = d) by (apply cos_acos; exact Hd).
  assert (Hunit : lengthSq axis = 1) by (apply normalize_unit; lra).
  destruct (transport_algebra prevNormal prevTangent newTangent (1 / L) L d
              Hpt Hnt Hperp eq_refl HL ltac:(field; lra)) as [Hrot Hmap].
  fold c in Hrot, Hmap. rewrite <- Haxis, <- Hsin, <- Hcos in Hrot, Hmap.
  rewrite <- !applyAxisAngle_rodrigues in Hrot, Hmap.
  assert (Hlen : lengthSq (applyAxisAngle prevNormal axis angle) = 1)
    by (rewrite applyAxisAngle_lengthSq; assumption).
  assert (Hpar : parallelTransport prevNormal prevTangent newTangent
                 = applyAxisAngle prevNormal axis angle).
  { unfold parallelTransport. fold d c.
    unfold Num.gtb. rewrite (proj2 (ltb_false _ _) Hdot).
    rewrite (proj2 (ltb_false _ _) Hcross).
    rewrite (Rmin_right 1 d) by lra. rewrite (Rmax_right (-1) d) by lra.
    fold axis angle. rewrite Hrot.
    replace (sub (applyAxisAngle prevNormal axis angle) (multiplyScalar newTangent 0))
      with (applyAxisAngle prevNormal axis angle)
      by (apply vector_eq; simpl; ring).
    apply normalize_of_unit, Hlen. }
  rewrite Hpar. auto.
Qed.

Lemma parallelTransport_frame_witness :
  parallelTransport (mkV 0 1 0) (mkV 1 0 0) (mkV 0 0 1)
    = applyAxisAngle (mkV 0 1 0)
        (normalize (crossVectors (mkV 1 0 0) (mkV 0 0 1)))
        (acos (dot (mkV 1 0 0) (mkV 0 0 1)))
  /\ dot (parallelTransport (mkV 0 1 0) (mkV 1 0 0) (mkV 0 0 1)) (mkV 0 0 1) = 0.
Proof.
  assert (Hn : lengthSq (mkV 0 1 0) = 1) by (unfold lengthSq; simpl; lra).
  assert (Hpt : lengthSq (mkV 1 0 0) = 1) by (unfold lengthSq; simpl; lra).
  assert (Hnt : lengthSq (mkV 0 0 1) = 1) by (unfold lengthSq; simpl; lra).
  assert (Hperp : dot (mkV 0 1 0) (mkV 1 0 0) = 0) by (unfold dot; simpl; lra).
  assert (Hdot : dot (mkV 1 0 0) (mkV 0 0 1) <= 0.9999)
    by (unfold dot; simpl; lra).
  assert (Hcross : 0.0001 <= lengthSq (crossVectors (mkV 1 0 0) (mkV 0 0 1)))
    by (unfold lengthSq, crossVectors; simpl; lra).
  destruct (parallelTransport_frame _ _ _ Hn Hpt Hnt Hperp Hdot Hcross)
    as (Hrot & _ & _ & Horth).
  split; [exact Hrot | exact Horth].
Defined.

(** X2. In its other branch (tangents with dot product above [0.9999])
    [parallelTransport] returns the previous normal untouched, without
    projecting it: from an orthonormal previous frame, the normal kept is
    off the plane perpendicular to the new unit tangent by a dot product
    whose square is at most [1 - dot^2], below [0.0002]. *)
Theorem parallelTransport_kept (prevNormal prevTangent newTangent : Vector3) :
  lengthSq prevNormal = 1 ->
  lengthSq prevTangent = 1 ->
  lengthSq newTangent = 1 ->
  dot prevNormal prevTangent = 0 ->
  0.9999 < dot prevTangent newTangent ->
  parallelTransport prevNormal prevTangent newTangent = prevNormal
  /\ dot prevNormal newTangent * dot prevNormal newTangent
     <= 1 - dot prevTangent newTangent * dot prevTangent newTangent
  /\ dot prevNormal newTangent * dot prevNormal newTangent < 0.0002.
Proof.
  intros Hn Hpt Hnt Hperp Hdot.
  split; [apply parallelTransport_parallel, Hdot|].
  set (d := dot prevTangent newTangent) in *.
  set (w := sub newTangent (multiplyScalar prevTangent d)).
  assert (Hw : lengthSq w = 1 - d * d).
  { subst w d. destruct prevTangent as [px py pz], newTangent as [tx ty tz].
    unfold lengthSq, dot, sub, multiplyScalar in *; simpl in *. nsatz. }
  assert (Hnw : dot prevNormal w = dot prevNormal newTangent).
  { subst w. destruct prevNormal as [nx ny nz], prevTangent as [px py pz],
      newTangent as [tx ty tz].
    unfold dot, sub, multiplyScalar in *; simpl in *. nsatz. }
  pose proof (cross_lengthSq prevNormal w) as Hc.
  pose proof (lengthSq_nonneg (crossVectors prevNormal w)) as Hc0.
  pose proof (dot_unit_bound _ _ Hpt Hnt) as Hd. fold d in Hd.
  rewrite Hn, Hw, Hnw in Hc.
  split; nra.
Qed.

Lemma parallelTransport_kept_witness :
  parallelTransport (mkV 0 1 0) (mkV 1 0 0) (mkV 1 0 0) = mkV 0 1 0.
Proof.
  assert (Hn : lengthSq (mkV 0 1 0) = 1) by (unfold lengthSq; simpl; lra).
  assert (Hpt : lengthSq (mkV 1 0 0) = 1) by (unfold lengthSq; simpl; lra).
  assert (Hperp : dot (mkV 0 1 0) (mkV 1 0 0) = 0) by (unfold dot; simpl; lra).
  assert (Hdot : 0.9999 < dot (mkV 1 0 0) (mkV 1 0 0))
    by (unfold dot; simpl; lra).
  exact (proj1 (parallelTransport_kept _ _ _ Hn Hpt Hpt Hperp Hdot)).
Defined.

(** The axis both fallbacks build: the cross product of a unit vector with
    the coordinate axis it is not close to is not zero. *)
Lemma cross_with_axis_pos (v : Vector3) :
  lengthSq v = 1 ->
  0 < lengthSq (crossVectors v
         (if Num.gtb (Rabs (dot v (mkV 0 1 0))) 0.9 then mkV 1 0 0 else mkV 0 1 0)).
Proof.
  intros Hv. destruct v as [a b c]. unfold lengthSq in Hv; simpl in Hv.
  assert (Hdot : dot (mkV a b c) (mkV 0 1 0) = b) by (unfold dot; simpl; ring).
  rewrite Hdot.
  destruct (Num.gtb (Rabs b) 0.9) eqn:Hy.
  - apply ltb_spec in Hy.
    assert (0.81 < b * b).
    { destruct (Rcase_abs b) as [Hneg|Hpos].
      - rewrite Rabs_left in Hy by assumption. nra.
      - rewrite Rabs_right in Hy by assumption. nra. }
    unfold lengthSq, crossVectors; simpl. nra.
  - apply ltb_false in Hy.
    assert (b * b <= 0.81).
    { destruct (Rcase_abs b) as [Hneg|Hpos].
      - rewrite Rabs_left in Hy by assumption. nra.
      - rewrite Rabs_right in Hy by assumption. nra. }
    unfold lengthSq, crossVectors; simpl. nra.
Qed.

(** X3. [getArbitraryPerpendicular] of a unit vector is a unit vector
    perpendicular to it. *)
Theorem getArbitraryPerpendicular_unit (v : Vector3) :
  lengthSq v = 1 ->
  lengthSq (getArbitraryPerpendicular v) = 1
  /\ dot (getArbitraryPerpendicular v) v = 0.
Proof.
  intros Hv. unfold getArbitraryPerpendicular.
  pose proof (cross_with_axis_pos v Hv) as Hpos.
  split; [apply normalize_unit, Hpos|].
  destruct (normalize_scale
              (crossVectors v
                 (if Num.gtb (Rabs (dot v (mkV 0 1 0))) 0.9
                  then mkV 1 0 0 else mkV 0 1 0))) as (k & _ & ->).
  unfold dot, multiplyScalar, crossVectors; simpl. ring.
Qed.

Lemma getArbitraryPerpendicular_unit_witness :
  lengthSq (getArbitraryPerpendicular (mkV 0 1 0)) = 1
  /\ dot (getArbitraryPerpendicular (mkV 0 1 0)) (mkV 0 1 0) = 0.
Proof.
  assert (Hv : lengthSq (mkV 0 1 0) = 1) by (unfold lengthSq; simpl; lra).
  exact (getArbitraryPerpendicular_unit (mkV 0 1 0) Hv).
Defined.

(** Of the zero vector it is the zero vector: there is no perpendicular
    direction to choose. *)
Lemma getArbitraryPerpendicular_zero :
  getArbitraryPerpendicular (mkV 0 0 0) = mkV 0 0 0.
Proof.
  unfold getArbitraryPerpendicular.
  match goal with
  | |- normalize ?c = _ => destruct (normalize_scale c) as (k & _ & ->)
  end.
  destruct (Num.gtb _ 0.9); apply vector_eq; simpl; ring.
Qed.

(** ** More on the steering generator *)

(** X4. [wanderForce] turns a direction that is not zero into a unit
    vector, whatever the noise; with both strengths at zero it only
    normalizes the direction. *)
Theorem wanderForce_unit (currentDir : Vector3) (noise2D : R -> R -> R)
    (noiseTime wanderStrength tiltStrength : R) :
  0 < lengthSq currentDir ->
  lengthSq (wanderForce currentDir noise2D noiseTime wanderStrength tiltStrength)
    = 1
  /\ (wanderStrength = 0 -> tiltStrength = 0 ->
      wanderForce currentDir noise2D noiseTime wanderStrength tiltStrength
        = normalize currentDir).
Proof.
  intros Hpos. unfold wanderForce.
  assert (Hup : lengthSq (mkV 0 1 0) = 1) by (unfold lengthSq; simpl; lra).
  set (turned := applyAxisAngle currentDir (mkV 0 1 0)
                   (noise2D noiseTime 0 * wanderStrength)).
  assert (Hturned : lengthSq turned = lengthSq currentDir)
    by (apply applyAxisAngle_lengthSq, Hup).
  split.
  - apply normalize_unit.
    destruct (Num.gtb (lengthSq (crossVectors (mkV 0 1 0) turned)) 0.01) eqn:Hside.
    + apply ltb_spec in Hside.
      rewrite applyAxisAngle_lengthSq; [lra|]. apply normalize_unit. lra.
    + lra.
  - intros -> ->. subst turned. rewrite !Rmult_0_r, !applyAxisAngle_zero.
    destruct (Num.gtb _ 0.01); reflexivity.
Qed.

Lemma wanderForce_unit_witness :
  lengthSq (wanderForce (mkV 1 0 0) (fun _ _ => 1 / 2) 0 (PI / 24) (PI / 48)) = 1.
Proof.
  assert (Hpos : 0 < lengthSq (mkV 1 0 0)) by (unfold lengthSq; simpl; lra).
  exact (proj1 (wanderForce_unit (mkV 1 0 0) (fun _ _ => 1 / 2) 0 (PI / 24)
                  (PI / 48) Hpos)).
Defined.

Lemma normalize_nonzero (v : Vector3) :
  0 < lengthSq v -> normalize v = multiplyScalar v (1 / Vec3.length v).
Proof.
  intros Hpos. pose proof (length_pos v Hpos).
  unfold normalize, divideScalar, Num.or_one. num_cases; [lra|reflexivity].
Qed.

(** The algebra of one limited turn: rotating the unit vector [c] by [m]
    about [c x d] leaves the dot product [cos (theta - m)] with the unit
    vector [d], where [theta] is the angle between the two. *)
Lemma turn_algebra (c d : Vector3) (k L sm cm : R) :
  lengthSq c = 1 -> lengthSq d = 1 ->
  L * L = 1 - dot c d * dot c d -> k * L = 1 ->
  let a := multiplyScalar (crossVectors c d) k in
  dot (add c (add (multiplyScalar (crossVectors a c) sm)
                  (multiplyScalar (crossVectors a (crossVectors a c)) (1 - cm))))
      d
  = cm * dot c d + sm * L.
Proof.
  destruct c as [cx cy cz], d as [dx dy dz].
  unfold lengthSq, dot, add, multiplyScalar, crossVectors; simpl.
  intros Hc Hd HL Hk. nsatz.
Qed.

(** The two ways a limited turn between unit vectors ends. *)
Lemma limitTurnRate_turns (current desired : Vector3) (maxRate : R) :
  lengthSq current = 1 ->
  lengthSq desired = 1 ->
  0 <= maxRate ->
  (angleTo current desired <= maxRate ->
   limitTurnRate current desired maxRate = desired)
  /\ (maxRate < angleTo current desired ->
      0.001 <= angleTo current desired ->
      0.0001 <= lengthSq (crossVectors current desired) ->
      angleTo (limitTurnRate current desired maxRate) desired
      = angleTo current desired - maxRate).
Proof.
  intros Hc Hd Hrate. split.
  - intros Hle. unfold limitTurnRate.
    rewrite (proj2 (leb_spec _ _) Hle). reflexivity.
  - intros Hgt Hbig Hcross.
    pose proof (angleTo_bounds current desired) as Hb.
    pose proof (dot_unit_bound _ _ Hc Hd) as Hdot.
    assert (Hangle : angleTo current desired = acos (dot current desired)).
    { rewrite angleTo_unit by assumption. f_equal. apply clamp_inside, Hdot. }
    set (theta := angleTo current desired) in *.
    set (x := crossVectors current desired) in *.
    assert (HxSq : lengthSq x = 1 - dot current desired * dot current desired).
    { subst x. rewrite cross_lengthSq, Hc, Hd. ring. }
    set (L := Vec3.length x).
    assert (HL : L * L = 1 - dot current desired * dot current desired)
      by (rewrite <- HxSq; apply length_sqr).
    assert (HLpos : 0 < L) by (apply length_pos; lra).
    assert (Hsin : sin theta = L).
    { rewrite Hangle, sin_acos by exact Hdot.
      unfold L, Vec3.length. rewrite HxSq. f_equal; unfold Rsqr; ring. }
    assert (Hcos : cos theta = dot current desired)
      by (rewrite Hangle; apply cos_acos, Hdot).
    assert (Hlimit : limitTurnRate current desired maxRate
                     = applyAxisAngle current (multiplyScalar x (1 / L)) maxRate).
    { unfold limitTurnRate. fold theta x.
      assert (Hnle : Num.leb theta maxRate = false).
      { destruct (Num.leb theta maxRate) eqn:E; [|reflexivity].
        apply leb_spec in E. lra. }
      rewrite Hnle, (proj2 (ltb_false _ _) Hbig), (proj2 (ltb_false _ _) Hcross).
      f_equal. apply normalize_nonzero. lra. }
    assert (Hunit : lengthSq (multiplyScalar x (1 / L)) = 1).
    { unfold L. rewrite <- normalize_nonzero by lra. apply normalize_unit. lra. }
    rewrite Hlimit.
    rewrite angleTo_unit;
      [|rewrite applyAxisAngle_lengthSq; assumption|assumption].
    rewrite applyAxisAngle_rodrigues.
    pose proof (turn_algebra current desired (1 / L) L (sin maxRate)
                  (cos maxRate) Hc Hd HL ltac:(field; lra)) as Halg.
    cbv zeta in Halg. fold x in Halg. rewrite Halg.
    rewrite <- Hcos, <- Hsin.
    replace (cos maxRate * cos theta + sin maxRate * sin theta)
      with (cos (theta - maxRate)) by (rewrite cos_minus; ring).
    rewrite clamp_inside by apply COS_bound.
    apply acos_cos. lra.
Qed.

(** X5. A limited turn goes toward the desired direction: between unit
    vectors, when the desired direction is within [maxRate] the result is
    the desired direction; otherwise, in the generic branch (angle at least
    [0.001], cross product not degenerate), the angle from the result to the
    desired direction is the angle before minus [maxRate]. *)
Theorem limitTurnRate_toward (current desired : Vector3) (maxRate : R) :
  lengthSq current = 1 ->
  lengthSq desired = 1 ->
  0 <= maxRate ->
  (angleTo current desired <= maxRate ->
   limitTurnRate current desired maxRate = desired)
  /\ (maxRate < angleTo current desired ->
      0.001 <= angleTo current desired ->
      0.0001 <= lengthSq (crossVectors current desired) ->
      angleTo (limitTurnRate current desired maxRate) desired
      = angleTo current desired - maxRate).
Proof. exact (limitTurnRate_turns current desired maxRate). Qed.

Lemma limitTurnRate_toward_witness :
  limitTurnRate (mkV 1 0 0) (mkV 1 0 0) (PI / 6) = mkV 1 0 0.
Proof.
  assert (Hc : lengthSq (mkV 1 0 0) = 1) by (unfold lengthSq; simpl; lra).
  assert (Hrate : 0 <= PI / 6) by (pose proof PI_RGT_0; lra).
  apply (proj1 (limitTurnRate_toward (mkV 1 0 0) (mkV 1 0 0) (PI / 6) Hc Hc Hrate)).
  rewrite angleTo_self by exact Hc. exact Hrate.
Defined.

Lemma length_scaled_unit (v : Vector3) (k : R) :
  lengthSq v = 1 -> 0 <= k -> Vec3.length (multiplyScalar v k) = k.
Proof.
  intros Hv Hk. unfold Vec3.length.
  replace (lengthSq (multiplyScalar v k)) with (k * k).
  - apply sqrt_square, Hk.
  - unfold lengthSq in *; simpl. nsatz.
Qed.

(** X6. The segment a call emits, from any heading the calls can leave and
    for a chosen length that is not negative: it starts at the stored
    point, the stored point moves to its end, its chord is the chosen
    length along the new direction, and both control handles have the same
    length, between [0.33] and [0.67] of the chosen length, along the old
    and the new direction. *)
Theorem nextCurve_segment options noise2D random st target :
  reachable st ->
  0 <= segmentLength_min options
       + random * (segmentLength_max options - segmentLength_min options) ->
  let length :=
    segmentLength_min options
    + random * (segmentLength_max options - segmentLength_min options) in
  let curve := (nextCurve options noise2D random st target).1 in
  let st' := (nextCurve options noise2D random st target).2 in
  v0 curve = lastPoint st
  /\ lastPoint st' = v3 curve
  /\ sub (v3 curve) (v0 curve) = multiplyScalar (lastDir st') length
  /\ Vec3.length (sub (v3 curve) (v0 curve)) = length
  /\ (exists controlDist,
        0.33 * length <= controlDist <= 0.67 * length
        /\ sub (v1 curve) (v0 curve) = multiplyScalar (lastDir st) controlDist
        /\ sub (v3 curve) (v2 curve) = multiplyScalar (lastDir st') controlDist
        /\ Vec3.length (sub (v1 curve) (v0 curve)) = controlDist
        /\ Vec3.length (sub (v3 curve) (v2 curve)) = controlDist)
  /\ noiseTime st' = noiseTime st + 0.01.
Proof.
  intros Hreach Hlen length curve st'.
  pose proof (reachable_unit st Hreach) as Hunit.
  pose proof (reachable_unit st' (reachable_next _ _ _ _ _ Hreach)) as Hunit'.
  subst curve st'. revert Hunit'. unfold nextCurve. fold length.
  fold length in Hlen. clearbody length.
  destruct (steeringForce _ _ _ _ _ _) as [[desiredDir oa] ca].
  cbn [fst snd v0 v1 v2 v3 lastDir lastPoint noiseTime]. intros Hunit'.
  set (newDir := limitTurnRate (lastDir st) desiredDir (maxTurnRate options)) in *.
  set (turnFactor := Rmin 1 (angleTo (lastDir st) newDir / (PI / 2))).
  assert (Hfactor : 0 <= turnFactor <= 1).
  { subst turnFactor. split; [|apply Rmin_l].
    apply Rmin_glb; [lra|].
    pose proof (angleTo_bounds (lastDir st) newDir). pose proof PI_RGT_0.
    apply Rmult_le_pos; [lra|]. apply Rlt_le, Rinv_0_lt_compat. lra. }
  assert (Hchord : sub (add (lastPoint st) (multiplyScalar newDir length))
                       (lastPoint st) = multiplyScalar newDir length)
    by (apply vector_eq; simpl; ring).
  split; [reflexivity|]. split; [reflexivity|]. split; [exact Hchord|].
  split; [rewrite Hchord; apply length_scaled_unit; assumption|].
  split; [|reflexivity].
  exists (length * (0.33 + 0.34 * turnFactor)).
  assert (Hcd : 0 <= length * (0.33 + 0.34 * turnFactor)) by nra.
  assert (Hh1 : sub (add (lastPoint st)
                       (multiplyScalar (lastDir st)
                          (length * (0.33 + 0.34 * turnFactor))))
                    (lastPoint st)
                = multiplyScalar (lastDir st) (length * (0.33 + 0.34 * turnFactor)))
    by (apply vector_eq; simpl; ring).
  assert (Hh2 : sub (add (lastPoint st) (multiplyScalar newDir length))
                    (sub (add (lastPoint st) (multiplyScalar newDir length))
                         (multiplyScalar newDir
                            (length * (0.33 + 0.34 * turnFactor))))
                = multiplyScalar newDir (length * (0.33 + 0.34 * turnFactor)))
    by (apply vector_eq; simpl; ring).
  split; [split; nra|].
  split; [exact Hh1|]. split; [exact Hh2|].
  split; [rewrite Hh1 | rewrite Hh2]; apply length_scaled_unit; assumption.
Qed.

Lemma nextCurve_segment_witness :
  v0 (nextCurve defaultOptions (fun _ _ => 0) (1 / 2) initialHeading None).1
    = mkV 0 0 0
  /\ Vec3.length
       (sub (v3 (nextCurve defaultOptions (fun _ _ => 0) (1 / 2)
                   initialHeading None).1)
            (v0 (nextCurve defaultOptions (fun _ _ => 0) (1 / 2)
                   initialHeading None).1))
     = 4 + 1 / 2 * (8 - 4).
Proof.
  assert (Hlen : 0 <= segmentLength_min defaultOptions
                      + 1 / 2 * (segmentLength_max defaultOptions
                                 - segmentLength_min defaultOptions))
    by (simpl; lra).
  destruct (nextCurve_segment defaultOptions (fun _ _ => 0) (1 / 2)
              initialHeading None reachable_init Hlen)
    as (Hstart & _ & _ & Hchord & _).
  split; [exact Hstart | exact Hchord].
Defined.

(** X7. The coil activation stays between [0] and [1], whatever the calls. *)
Theorem coilActivation_range (st : Heading) :
  reachable st -> 0 <= coilActivation st <= 1.
Proof.
  induction 1 as [|options noise2D random st target _ IH].
  - simpl. lra.
  - change (snd ?p) with (p.2). unfold nextCurve, steeringForce.
    destruct target as [target|]; cbv beta iota zeta;
      cbn [snd coilActivation]; [|exact IH].
    destruct (Num.ltb _ (orbitRadius options * 1.5)).
    + split; [apply Rmin_glb; lra | apply Rmin_l].
    + split; [apply Rmax_l | apply Rmax_lub; lra].
Qed.

Lemma coilActivation_range_witness :
  0 <= coilActivation
         (nextCurve defaultOptions (fun _ _ => 0) 0 initialHeading
                    (Some (mkV 1 0 0))).2 <= 1.
Proof.
  exact (coilActivation_range _
           (reachable_next defaultOptions (fun _ _ => 0) 0 initialHeading
              (Some (mkV 1 0 0)) reachable_init)).
Defined.

Lemma limitTurnRate_same (current : Vector3) (maxRate : R) :
  lengthSq current = 1 -> limitTurnRate current current maxRate = current.
Proof.
  intros Hc. unfold limitTurnRate. rewrite (angleTo_self current Hc).
  destruct (Num.leb 0 maxRate); [reflexivity|].
  rewrite (proj2 (ltb_spec 0 0.001)) by lra. reflexivity.
Qed.

(** X8. With no target and no wander in the blend ([wanderWeight = 0]) the
    generator goes straight on, whatever the turn-rate cap, the noise and
    the chosen length: the direction stays, and the segment is the straight
    piece from the stored point with its control points at [0.33] and
    [0.67] of the chord.  (The orbit weight is positive and its square
    passes the [0.001] test.) *)
Theorem nextCurve_straight_on options noise2D random st :
  reachable st ->
  wanderWeight options = 0 ->
  0 < orbitWeight options ->
  0.001 < orbitWeight options * orbitWeight options ->
  let length :=
    segmentLength_min options
    + random * (segmentLength_max options - segmentLength_min options) in
  let curve := (nextCurve options noise2D random st None).1 in
  let st' := (nextCurve options noise2D random st None).2 in
  lastDir st' = lastDir st
  /\ v0 curve = lastPoint st
  /\ v1 curve = add (lastPoint st) (multiplyScalar (lastDir st) (0.33 * length))
  /\ v2 curve = add (lastPoint st) (multiplyScalar (lastDir st) (0.67 * length))
  /\ v3 curve = add (lastPoint st) (multiplyScalar (lastDir st) length)
  /\ orbitAngle st' = orbitAngle st
  /\ coilActivation st' = coilActivation st.
Proof.
  intros Hreach Hw Hpos Hsq length curve st'.
  pose proof (reachable_unit st Hreach) as Hunit.
  subst curve st'. unfold nextCurve. fold length. clearbody length.
  unfold steeringForce. cbv beta iota zeta. rewrite Hw.
  set (wander := wanderForce _ _ _ _ _).
  assert (Hdesired :
    add (add (mkV 0 0 0) (multiplyScalar (lastDir st) (orbitWeight options)))
        (multiplyScalar (sub wander (lastDir st)) 0)
    = multiplyScalar (lastDir st) (orbitWeight options))
    by (apply vector_eq; simpl; ring).
  rewrite Hdesired.
  assert (Hlen : lengthSq (multiplyScalar (lastDir st) (orbitWeight options))
                 = orbitWeight options * orbitWeight options)
    by (unfold lengthSq in *; simpl; nsatz).
  unfold Num.gtb. rewrite Hlen, (proj2 (ltb_spec _ _) Hsq).
  rewrite (normalize_scaled_unit _ _ Hunit Hpos).
  rewrite (limitTurnRate_same _ _ Hunit).
  cbn [fst snd v0 v1 v2 v3 lastDir lastPoint orbitAngle coilActivation].
  rewrite (angleTo_self _ Hunit).
  assert (Hfactor : Rmin 1 (0 / (PI / 2)) = 0).
  { unfold Rdiv. rewrite Rmult_0_l. apply Rmin_right. lra. }
  rewrite Hfactor.
  replace (length * (0.33 + 0.34 * 0)) with (0.33 * length) by lra.
  replace (0.67 * length) with (length - 0.33 * length) by lra.
  generalize 0.33. intros k.
  repeat split; try reflexivity; apply vector_eq; simpl; ring.
Qed.

Lemma nextCurve_straight_on_witness :
  lastDir (nextCurve (mkOptions 4 8 (PI / 6) 8 1 0 (PI / 24) (PI / 48) 3 0.25)
             (fun _ _ => 1) (1 / 2) initialHeading None).2
  = mkV 1 0 0.
Proof.
  refine (proj1 (nextCurve_straight_on
                   (mkOptions 4 8 (PI / 6) 8 1 0 (PI / 24) (PI / 48) 3 0.25)
                   (fun _ _ => 1) (1 / 2) initialHeading reachable_init
                   eq_refl _ _)); simpl; lra.
Defined.

(** X9. Seeking: with a target farther away than one and a half orbit
    radii and no wander in the blend, the desired direction is the unit
    direction to the target.  The new direction is that direction when it
    is within [maxTurnRate] of the old one; otherwise, in the generic
    branch of the turn, it is the old direction turned toward the target,
    [maxTurnRate] closer to it.  The orbit phase stays and the coil
    activation goes down by [0.15], not below [0]. *)
Theorem nextCurve_seeks options noise2D random st (point : Vector3) :
  reachable st ->
  wanderWeight options = 0 ->
  0 <= maxTurnRate options ->
  0 < Vec3.length (sub point (lastPoint st)) ->
  orbitRadius options * 1.5 < Vec3.length (sub point (lastPoint st)) ->
  let targetDir := normalize (sub point (lastPoint st)) in
  let st' := (nextCurve options noise2D random st (Some point)).2 in
  lengthSq targetDir = 1
  /\ (angleTo (lastDir st) targetDir <= maxTurnRate options ->
      lastDir st' = targetDir)
  /\ (maxTurnRate options < angleTo (lastDir st) targetDir ->
      0.001 <= angleTo (lastDir st) targetDir ->
      0.0001 <= lengthSq (crossVectors (lastDir st) targetDir) ->
      angleTo (lastDir st') targetDir
      = angleTo (lastDir st) targetDir - maxTurnRate options)
  /\ orbitAngle st' = orbitAngle st
  /\ coilActivation st' = Rmax 0 (coilActivation st - 0.15).
Proof.
  intros Hreach Hw Hrate Hdist Hfar targetDir st'.
  pose proof (reachable_unit st Hreach) as Hunit.
  assert (Hsq : 0 < lengthSq (sub point (lastPoint st))).
  { destruct (lengthSq_nonneg (sub point (lastPoint st))) as [H|H]; [exact H|].
    unfold Vec3.length in Hdist. rewrite <- H, sqrt_0 in Hdist. lra. }
  assert (Htarget : lengthSq targetDir = 1) by (apply normalize_unit, Hsq).
  assert (Hstate :
    st' = mkHeading
            (add (lastPoint st)
               (multiplyScalar
                  (limitTurnRate (lastDir st) targetDir (maxTurnRate options))
                  (segmentLength_min options
                   + random * (segmentLength_max options
                               - segmentLength_min options))))
            (limitTurnRate (lastDir st) targetDir (maxTurnRate options))
            (noiseTime st + 0.01) (orbitAngle st)
            (Rmax 0 (coilActivation st - 0.15))).
  { subst st'. unfold nextCurve, steeringForce. cbv beta iota zeta.
    fold targetDir. unfold Num.gtb.
    rewrite (proj2 (ltb_false _ _) (Rlt_le _ _ Hfar)).
    rewrite (proj2 (ltb_spec _ _) Hfar). rewrite Hw.
    set (wander := wanderForce _ _ _ _ _).
    assert (Hdesired : add targetDir (multiplyScalar (sub wander (lastDir st)) 0)
                       = targetDir) by (apply vector_eq; simpl; ring).
    rewrite Hdesired, Htarget, (proj2 (ltb_spec 0.001 1)) by lra.
    rewrite (normalize_of_unit _ Htarget). reflexivity. }
  split; [exact Htarget|].
  destruct (limitTurnRate_turns (lastDir st) targetDir (maxTurnRate options)
              Hunit Htarget Hrate) as [Hnear Hturn].
  rewrite Hstate. cbn [lastDir orbitAngle coilActivation].
  split; [exact Hnear|]. split; [exact Hturn|]. split; reflexivity.
Qed.

Lemma nextCurve_seeks_witness :
  lastDir (nextCurve (mkOptions 4 8 (PI / 6) 8 1 0 (PI / 24) (PI / 48) 3 0.25)
             (fun _ _ => 1) (1 / 2) initialHeading (Some (mkV 20 0 0))).2
  = normalize (sub (mkV 20 0 0) (lastPoint initialHeading)).
Proof.
  assert (Hlen : Vec3.length (sub (mkV 20 0 0) (lastPoint initialHeading)) = 20).
  { unfold Vec3.length, lengthSq; simpl.
    replace ((20 - 0) * (20 - 0) + (0 - 0) * (0 - 0) + (0 - 0) * (0 - 0))
      with (20 * 20) by ring.
    apply sqrt_square. lra. }
  assert (Hrate : 0 <= PI / 6) by (pose proof PI_RGT_0; lra).
  assert (Hdir : normalize (sub (mkV 20 0 0) (lastPoint initialHeading))
                 = mkV 1 0 0).
  { unfold normalize. rewrite Hlen. unfold Num.or_one. num_cases; [lra|].
    apply vector_eq; simpl; field. }
  refine (proj1 (proj2 (nextCurve_seeks
                          (mkOptions 4 8 (PI / 6) 8 1 0 (PI / 24) (PI / 48) 3 0.25)
                          (fun _ _ => 1) (1 / 2) initialHeading (mkV 20 0 0)
                          reachable_init eq_refl Hrate _ _)) _).
  - rewrite Hlen. lra.
  - rewrite Hlen. simpl. lra.
  - rewrite Hdir. change (lastDir initialHeading) with (mkV 1 0 0).
    rewrite angleTo_self by (unfold lengthSq; simpl; lra). exact Hrate.
Defined.

(** ** More on the manager: the frame cache and its queries *)

Section ManagerQueries.
Context {lib : CurveLib} {path : CurvePathLib} {gen : NextCurveFn}.

(** A property of the segment list, the frame cache and the stored normal
    that the constructor establishes and [addCurve] and
    [removeCurvesBefore] keep holds in every state the public methods
    leave. *)
Lemma built_invariant (P : EndlessCurve -> Prop) :
  (forall a b, curves a = curves b -> frameCache a = frameCache b ->
               lastNormal a = lastNormal b -> P a -> P b) ->
  (forall nextCurveFn, P (constructor nextCurveFn)) ->
  (forall this curve this',
     aligned this -> P this -> addCurve this curve = Some this' -> P this') ->
  (forall this position,
     aligned this -> P this -> P (removeCurvesBefore this position)) ->
  forall this, built this -> P this.
Proof.
  intros Hfields Hnew Hadd Hremove.
  assert (Hfill : forall fuel this length this',
            aligned this -> P this ->
            fillLength fuel this length = Some this' -> P this').
  { induction fuel as [|fuel IH]; intros this length this' Hal HP Hfill.
    - simpl in Hfill. destruct (Num.ltb _ _); [|discriminate].
      injection Hfill as <-. exact HP.
    - cbn [fillLength] in Hfill. destruct (Num.ltb _ _).
      + injection Hfill as <-. exact HP.
      + destruct (call (nextCurveFn this) (target this)) as [newCurve closure].
        destruct (addCurve _ newCurve) as [mid|] eqn:Hmid; [|discriminate].
        cbn [mbind option_bind] in Hfill.
        assert (Hal0 : aligned (mkEndlessCurve (curves this) (distanceOffset this)
                          (uStart this) (uLength this) closure (target this)
                          (frameCache this) (lastNormal this))) by exact Hal.
        apply (IH mid length this'); [| |exact Hfill].
        * exact (addCurve_aligned _ _ newCurve Hal0 Hmid).
        * apply (Hadd _ newCurve _ Hal0); [|exact Hmid].
          apply (Hfields this); [reflexivity..|exact HP]. }
  induction 1 as [nextCurveFn|this target Hb IH|this curve this' Hb IH Hadd'
                 |fuel this length this' Hb IH Hfill'
                 |this position Hb IH
                 |fuel this position length this' Hb IH Hcfg].
  - apply Hnew.
  - apply (Hfields this); [reflexivity..|exact IH].
  - exact (Hadd _ _ _ (built_aligned _ Hb) IH Hadd').
  - exact (Hfill _ _ _ _ (built_aligned _ Hb) IH Hfill').
  - exact (Hremove _ _ (built_aligned _ Hb) IH).
  - destruct (configureStartEnd_spec _ _ _ _ _ Hcfg)
      as (filled & Hfill' & Hc & _ & Hcache & _ & _ & Hlast & _).
    apply (Hfields (removeCurvesBefore filled position)); try congruence.
    apply Hremove.
    + exact (fillLength_aligned _ _ _ _ (built_aligned _ Hb) Hfill').
    + exact (Hfill _ _ _ _ (built_aligned _ Hb) IH Hfill').
Qed.

(** [addCurve] is the sampling of the new segment followed by the
    re-parameterization. *)
Lemma addCurve_recalculated (this this' : EndlessCurve) (curve : CubicBezierCurve3) :
  addCurve this curve = Some this' ->
  exists pn pt,
    this' = recalculateUValues
              (mkEndlessCurve (curves this ++ [curve]) (distanceOffset this)
                 (uStart this) (uLength this) (nextCurveFn this) (target this)
                 (sampleFrames curve (seq 0 (S samplesPerCurve)) pn pt
                    (frameCache this)).1.1
                 (sampleFrames curve (seq 0 (S samplesPerCurve)) pn pt
                    (frameCache this)).1.2)
    /\ (pn = lastNormal this \/ exists v, pn = getArbitraryPerpendicular v).
Proof.
  unfold addCurve, computeFramesForCurve. cbn [curves lastNormal frameCache].
  assert (Hc : (curves this ++ [curve]) !! List.length (curves this) = Some curve)
    by (apply list_lookup_middle; reflexivity).
  rewrite Hc. cbn [mbind option_bind].
  destruct (decide (0 < List.length (curves this))%nat) as [Hpos|Hzero].
  - destruct ((curves this ++ [curve]) !! (List.length (curves this) - 1)%nat)
      as [prevCurve|]; [|discriminate].
    cbn [mbind option_bind].
    destruct (sampleFrames _ _ _ _ _) as [[cache lastN] lastT] eqn:Hsample.
    intros [= <-]. exists (lastNormal this), (getAnalyticalTangent prevCurve 1).
    rewrite Hsample. split; [reflexivity|left; reflexivity].
  - cbn [mbind option_bind].
    destruct (sampleFrames _ _ _ _ _) as [[cache lastN] lastT] eqn:Hsample.
    intros [= <-].
    exists (getArbitraryPerpendicular (getAnalyticalTangent curve 0)),
           (getAnalyticalTangent curve 0).
    rewrite Hsample. split; [reflexivity|right; eauto].
Qed.

(** *** The u-values are arc-length fractions *)

Lemma recalculateSamples_lookup samples startLength curveLength totalLength :
  forall frameIndex uValues,
  (frameIndex + List.length samples <= List.length uValues)%nat ->
  let r := recalculateSamples samples startLength curveLength totalLength
             frameIndex uValues in
  r.1 = (frameIndex + List.length samples)%nat
  /\ List.length r.2 = List.length uValues
  /\ (forall j i, samples !! j = Some i ->
        r.2 !! (frameIndex + j)%nat
        = Some ((startLength + curveLength * (INR i / INR samplesPerCurve))
                / totalLength))
  /\ (forall p, (p < frameIndex)%nat -> r.2 !! p = uValues !! p).
Proof.
  induction samples as [|i samples IH]; intros frameIndex uValues Hlen r.
  - subst r. simpl. split; [lia|]. split; [reflexivity|]. split; [|auto].
    intros j i Hj. rewrite lookup_nil in Hj. discriminate.
  - subst r. cbn [recalculateSamples]. simpl in Hlen.
    destruct (decide (List.length uValues <= frameIndex)%nat) as [Hle|_]; [lia|].
    cbv zeta.
    set (v := (startLength + curveLength * (INR i / INR samplesPerCurve))
              / totalLength).
    destruct (IH (S frameIndex) (<[frameIndex := v]> uValues)
                 ltac:(rewrite length_insert; lia))
      as (Hidx & Hl & Hnew & Hold).
    rewrite length_insert in Hl.
    split; [rewrite Hidx; simpl; lia|]. split; [exact Hl|]. split.
    + intros j i' Hj. destruct j as [|j].
      * injection Hj as <-. rewrite Nat.add_0_r, Hold by lia.
        rewrite list_lookup_insert, decide_True by (split; [reflexivity|lia]).
        reflexivity.
      * replace (frameIndex + S j)%nat with (S frameIndex + j)%nat by lia.
        apply Hnew. exact Hj.
    + intros p Hp. rewrite Hold by lia.
      apply list_lookup_insert_ne. lia.
Qed.

Lemma recalculateCurves_lookup (cs : list CubicBezierCurve3) :
  forall sums totalLength frameIndex uValues,
  (frameIndex + List.length cs * (samplesPerCurve + 1)
   <= List.length uValues)%nat ->
  let r := recalculateCurves (cumulativeLengths sums cs) sums totalLength
             frameIndex uValues in
  (forall k i curve, cs !! k = Some curve -> (i <= samplesPerCurve)%nat ->
     r !! (frameIndex + k * (samplesPerCurve + 1) + i)%nat
     = Some ((sums + arcLength (take k cs)
              + Curve_getLength curve * (INR i / INR samplesPerCurve))
             / totalLength))
  /\ (forall p, (p < frameIndex)%nat -> r !! p = uValues !! p).
Proof.
  induction cs as [|c cs IH]; intros sums totalLength frameIndex uValues Hlen r.
  - subst r. simpl. split; [|auto]. intros k i curve Hk.
    rewrite lookup_nil in Hk. discriminate.
  - subst r. cbn [cumulativeLengths recalculateCurves]. cbv zeta.
    change (List.length (c :: cs)) with (S (List.length cs)) in Hlen.
    pose proof (recalculateSamples_lookup (seq 0 (S samplesPerCurve)) sums
                  (sums + Curve_getLength c - sums) totalLength frameIndex
                  uValues) as Hs.
    rewrite length_seq in Hs.
    specialize (Hs ltac:(unfold samplesPerCurve in *; lia)).
    destruct (recalculateSamples _ _ _ _ _ _) as [frameIndex' uValues'].
    cbn [fst snd] in Hs. destruct Hs as (-> & Hl & Hnew & Hold).
    destruct (IH (sums + Curve_getLength c) totalLength
                 (frameIndex + S samplesPerCurve)%nat uValues'
                 ltac:(rewrite Hl; unfold samplesPerCurve in *; lia))
      as [Hrest Hkeep].
    split.
    + intros k i curve Hk Hi. destruct k as [|k].
      * injection Hk as <-.
        rewrite Hkeep by (unfold samplesPerCurve in *; lia).
        replace (frameIndex + 0 * (samplesPerCurve + 1) + i)%nat
          with (frameIndex + i)%nat by lia.
        rewrite (Hnew i i) by (apply lookup_seq; lia).
        f_equal. rewrite take_0. simpl. f_equal. ring.
      * replace (frameIndex + S k * (samplesPerCurve + 1) + i)%nat
          with (frameIndex + S samplesPerCurve + k * (samplesPerCurve + 1) + i)%nat
          by lia.
        rewrite (Hrest k i curve Hk Hi). f_equal.
        change (take (S k) (c :: cs)) with (c :: take k cs).
        change (arcLength (c :: take k cs))
          with (Curve_getLength c + arcLength (take k cs)).
        f_equal. ring.
    + intros p Hp. rewrite Hkeep by lia. apply Hold. exact Hp.
Qed.

Lemma getLength_arcLength (this : EndlessCurve) :
  curves this <> [] -> getLength this = arcLength (curves this).
Proof.
  intros Hne. rewrite <- getLengthSafe_arcLength. unfold getLengthSafe.
  destruct (decide _) as [E|_]; [|reflexivity].
  apply nil_length_inv in E. contradiction.
Qed.

Lemma recalculateUValues_parameterized (this : EndlessCurve) :
  (List.length (curves this) * (samplesPerCurve + 1)
   <= List.length (uValues (frameCache this)))%nat ->
  parameterized (recalculateUValues this).
Proof.
  intros Hlen k i curve Hk Hi. revert Hk. unfold recalculateUValues.
  destruct (decide _) as [E|Hne].
  - apply nil_length_inv in E. rewrite E, lookup_nil. discriminate.
  - cbn [curves frameCache uValues]. intros Hk.
    destruct (recalculateCurves_lookup (curves this) 0 (getLength this) 0
                (uValues (frameCache this)) ltac:(lia)) as [Hall _].
    specialize (Hall k i curve Hk Hi). rewrite Nat.add_0_l in Hall.
    unfold getCurveLengths. rewrite Hall.
    rewrite getLength_arcLength
      by (intros E; apply Hne; rewrite E; reflexivity).
    do 2 f_equal. ring.
Qed.

Lemma built_parameterized (this : EndlessCurve) : built this -> parameterized this.
Proof.
  apply (built_invariant parameterized).
  - intros a b Hc Hf _ Ha k i curve. rewrite <- Hc, <- Hf. apply Ha.
  - intros nextCurveFn k i curve Hk. simpl in Hk.
    rewrite lookup_nil in Hk. discriminate.
  - intros this0 curve this' [_ Hu] _ Hadd.
    destruct (addCurve_recalculated _ _ _ Hadd) as (pn & pt & -> & _).
    apply recalculateUValues_parameterized. cbn [curves frameCache].
    destruct (sampleFrames_spec curve (seq 0 (S samplesPerCurve)) pn pt
                (frameCache this0)) as (new & _ & _ & Hu' & _).
    rewrite Hu', !length_app, length_replicate, length_seq, Hu.
    cbn [List.length]. unfold samplesPerCurve. lia.
  - intros this0 position [_ Hu] HP. unfold removeCurvesBefore.
    destruct (countRemoved _ _ _ _) as [remove d].
    destruct (decide _); [exact HP|].
    apply recalculateUValues_parameterized. cbn [curves frameCache uValues].
    rewrite !length_drop, Hu. unfold samplesPerCurve. lia.
Qed.

(** *** The window lies inside the cached path *)


Lemma arcLength_take_S (cs : list CubicBezierCurve3) (k : nat)
    (curve : CubicBezierCurve3) :
  cs !! k = Some curve ->
  arcLength (take (S k) cs) = arcLength (take k cs) + Curve_getLength curve.
Proof.
  intros Hk. rewrite (take_S_r _ _ _ Hk), arcLength_app. simpl. ring.
Qed.

Lemma arcLength_take_all (cs : list CubicBezierCurve3) :
  arcLength (take (List.length cs) cs) = arcLength cs.
Proof. rewrite firstn_all. reflexivity. Qed.

Lemma sample_fraction (i : nat) :
  (i <= samplesPerCurve)%nat -> 0 <= INR i / INR samplesPerCurve <= 1.
Proof.
  intros Hi. pose proof (pos_INR i) as H0. apply le_INR in Hi.
  assert (H10 : INR samplesPerCurve = 10) by (unfold samplesPerCurve; simpl; lra).
  rewrite H10 in *. lra.
Qed.

(** Every cached u value is the one of a sample [i] of a segment [k]. *)
Lemma parameterized_sample (this : EndlessCurve) (p : nat) (u : R) :
  aligned this -> parameterized this ->
  uValues (frameCache this) !! p = Some u ->
  exists k i curve,
    p = (k * (samplesPerCurve + 1) + i)%nat
    /\ (i <= samplesPerCurve)%nat
    /\ curves this !! k = Some curve
    /\ u = (arcLength (take k (curves this))
            + Curve_getLength curve * (INR i / INR samplesPerCurve))
           / arcLength (curves this).
Proof.
  intros [_ Hu] Hpar Hp.
  assert (Hlt : (p < List.length (curves this) * (samplesPerCurve + 1))%nat)
    by (rewrite <- Hu; apply lookup_lt_is_Some; eauto).
  unfold parameterized in Hpar. unfold samplesPerCurve in *.
  pose proof (Nat.div_mod_eq p 11) as Hdm.
  pose proof (Nat.mod_upper_bound p 11 ltac:(lia)) as Hm.
  assert (Hk : (p / 11 < List.length (curves this))%nat)
    by (apply Nat.Div0.div_lt_upper_bound; lia).
  destruct (lookup_lt_is_Some_2 _ _ Hk) as [curve Hcurve].
  exists (p / 11)%nat, (p mod 11)%nat, curve.
  split; [lia|]. split; [lia|]. split; [exact Hcurve|].
  pose proof (Hpar _ (p mod 11)%nat _ Hcurve ltac:(lia)) as Hval.
  replace (p / 11 * (10 + 1) + p mod 11)%nat with p in Hval by lia.
  rewrite Hp in Hval. injection Hval as ->. reflexivity.
Qed.

(** X11. In every state the public methods leave, the cached u value of
    sample [i] of segment [k] is the arc length up to that sample (the
    segments before [k] and the fraction [i / samplesPerCurve] of segment
    [k]) over the arc length of the whole list.  With arc lengths that are
    not negative and a positive total, the u values start at [0], end at
    [1], lie in [0, 1] and never decrease along the cache: the order the
    binary search of [interpolateNormal] relies on. *)
Theorem uValues_arc_fractions (this : EndlessCurve) :
  built this ->
  (forall curve, 0 <= Curve_getLength curve) ->
  0 < arcLength (curves this) ->
  (forall k i curve,
     curves this !! k = Some curve -> (i <= samplesPerCurve)%nat ->
     uValues (frameCache this) !! (k * (samplesPerCurve + 1) + i)%nat
     = Some ((arcLength (take k (curves this))
              + Curve_getLength curve * (INR i / INR samplesPerCurve))
             / arcLength (curves this)))
  /\ uValues (frameCache this) !! 0%nat = Some 0
  /\ last (uValues (frameCache this)) = Some 1
  /\ Forall (fun u => 0 <= u <= 1) (uValues (frameCache this))
  /\ (forall a b ua ub, (a <= b)%nat ->
        uValues (frameCache this) !! a = Some ua ->
        uValues (frameCache this) !! b = Some ub -> ua <= ub).
Proof.
  intros Hbuilt Hnonneg Htotal.
  pose proof (built_aligned _ Hbuilt) as Hal.
  pose proof (built_parameterized _ Hbuilt) as Hpar.
  set (total := arcLength (curves this)) in *.
  assert (Hall : Forall (fun curve => 0 <= Curve_getLength curve) (curves this))
    by (apply Forall_forall; intros; apply Hnonneg).
  assert (Hprefix : forall k,
            0 <= arcLength (take k (curves this)) <= total).
  { intros k. split.
    - pose proof (arcLength_take_mono _ 0 k Hall ltac:(lia)) as H0.
      rewrite take_0 in H0. exact H0.
    - destruct (decide (k <= List.length (curves this))%nat) as [Hk|Hk].
      + pose proof (arcLength_take_mono _ k _ Hall Hk) as H1.
        rewrite arcLength_take_all in H1. exact H1.
      + rewrite take_ge by lia. subst total. lra. }
  assert (Hinv : 0 < / total) by (apply Rinv_0_lt_compat, Htotal).
  assert (Hne : curves this <> []).
  { intros E. subst total. rewrite E in Htotal. simpl in Htotal. lra. }
  split; [exact Hpar|]. split; [|split; [|split]].
  - destruct (curves this) as [|c cs] eqn:Ecs; [contradiction|].
    pose proof (Hpar 0%nat 0%nat c) as H0. rewrite Ecs in H0.
    specialize (H0 eq_refl ltac:(lia)). simpl in H0. rewrite H0.
    f_equal. unfold Rdiv. ring.
  - destruct Hal as [_ Hu]. rewrite last_lookup, Hu.
    assert (Hn : (0 < List.length (curves this))%nat).
    { destruct (curves this); [contradiction|simpl; lia]. }
    destruct (lookup_lt_is_Some_2 (curves this)
                (List.length (curves this) - 1)%nat ltac:(lia)) as [c Hc].
    pose proof (Hpar _ samplesPerCurve _ Hc ltac:(lia)) as Hlast.
    replace (Init.Nat.pred (List.length (curves this) * (samplesPerCurve + 1)))
      with ((List.length (curves this) - 1) * (samplesPerCurve + 1)
            + samplesPerCurve)%nat
      by (unfold samplesPerCurve; lia).
    rewrite Hlast. f_equal.
    pose proof (arcLength_take_S _ _ _ Hc) as HS.
    replace (S (List.length (curves this) - 1)) with (List.length (curves this))
      in HS by lia.
    rewrite arcLength_take_all in HS. fold total in HS.
    assert (H10 : INR samplesPerCurve / INR samplesPerCurve = 1).
    { assert (H : INR samplesPerCurve = 10)
        by (unfold samplesPerCurve; simpl; lra).
      rewrite H. lra. }
    rewrite H10, Rmult_1_r, <- HS. fold total. field. lra.
  - apply Forall_lookup. intros p u Hp.
    destruct (parameterized_sample _ _ _ Hal Hpar Hp)
      as (k & i & c & _ & Hi & Hc & ->).
    pose proof (sample_fraction i Hi) as Hf.
    pose proof (Hprefix k) as Hk. pose proof (Hprefix (S k)) as HSk.
    rewrite (arcLength_take_S _ _ _ Hc) in HSk.
    pose proof (Hnonneg c) as Hlen. fold total.
    set (s := arcLength (take k (curves this))
              + Curve_getLength c * (INR i / INR samplesPerCurve)).
    assert (Hs : 0 <= s <= total) by (subst s; nra).
    unfold Rdiv. split; [nra|].
    apply (Rmult_le_reg_r total); [exact Htotal|].
    rewrite Rmult_assoc, Rinv_l by lra. lra.
  - intros a b ua ub Hab Ha Hb.
    destruct (parameterized_sample _ _ _ Hal Hpar Ha)
      as (ka & ia & ca & -> & Hia & Hca & ->).
    destruct (parameterized_sample _ _ _ Hal Hpar Hb)
      as (kb & ib & cb & -> & Hib & Hcb & ->).
    pose proof (sample_fraction ia Hia) as Hfa.
    pose proof (sample_fraction ib Hib) as Hfb.
    pose proof (Hnonneg ca) as Hla. pose proof (Hnonneg cb) as Hlb.
    fold total. unfold Rdiv. apply Rmult_le_compat_r; [lra|].
    destruct (decide (ka = kb)) as [->|Hne'].
    + rewrite Hca in Hcb. injection Hcb as <-.
      assert (Hii : INR ia <= INR ib)
        by (apply le_INR; unfold samplesPerCurve in *; lia).
      assert (H10 : INR samplesPerCurve = 10)
        by (unfold samplesPerCurve; simpl; lra).
      rewrite H10 in *. nra.
    + assert (Hlt : (S ka <= kb)%nat) by (unfold samplesPerCurve in *; lia).
      pose proof (arcLength_take_mono _ _ _ Hall Hlt) as Hmono.
      rewrite (arcLength_take_S _ _ _ Hca) in Hmono. nra.
Qed.

(** *** Looking up a normal *)

(** The binary search keeps [uValues[low] <= u < uValues[high]] and ends on
    two neighbouring samples. *)
Lemma searchSamples_bracket (uValues : list R) (u : R) (low high : Z) :
  (low < high)%Z ->
  holds (fun v => Num.leb v u) (at_index uValues low) = true ->
  holds (fun v => Num.leb v u) (at_index uValues high) = false ->
  let r := searchSamples uValues u low high in
  (low <= r.1)%Z /\ (r.2 <= high)%Z /\ r.2 = (r.1 + 1)%Z
  /\ holds (fun v => Num.leb v u) (at_index uValues r.1) = true
  /\ holds (fun v => Num.leb v u) (at_index uValues r.2) = false.
Proof.
  cbv zeta.
  apply (searchSamples_elim
           (fun uValues u low high r =>
              (low < high)%Z ->
              holds (fun v => Num.leb v u) (at_index uValues low) = true ->
              holds (fun v => Num.leb v u) (at_index uValues high) = false ->
              (low <= r.1)%Z /\ (r.2 <= high)%Z /\ r.2 = (r.1 + 1)%Z
              /\ holds (fun v => Num.leb v u) (at_index uValues r.1) = true
              /\ holds (fun v => Num.leb v u) (at_index uValues r.2) = false));
    clear uValues u low high.
  - intros uValues u low high Hlt IHup IHdown _ _ Hlow Hhigh.
    cbv zeta in *.
    assert (Hmid : (low < (low + high) `div` 2 < high)%Z)
      by (Z.div_mod_to_equations; lia).
    destruct (holds _ (at_index uValues ((low + high) `div` 2))) eqn:Htest.
    + destruct (IHup ltac:(lia) eq_refl Hhigh) as (H1 & H2 & H3 & H4 & H5).
      repeat split; try assumption; lia.
    + destruct (IHdown ltac:(lia) Hlow eq_refl) as (H1 & H2 & H3 & H4 & H5).
      repeat split; try assumption; lia.
  - intros uValues u low high Hge _ Hlt Hlow Hhigh. simpl.
    repeat split; try assumption; lia.
Qed.

Lemma at_index_nat {A : Type} (array : list A) (i : nat) :
  at_index array (Z.of_nat i) = array !! i.
Proof.
  unfold at_index. destruct (decide _) as [_|Hneg]; [|lia].
  rewrite Nat2Z.id. reflexivity.
Qed.

(** The three cases of [interpolateNormal] on an aligned cache that is not
    empty. *)
Lemma interpolateNormal_bracket_cases (this : EndlessCurve) (u : R) :
  aligned this ->
  curves this <> [] ->
  exists uFirst uLast nFirst nLast,
    uValues (frameCache this) !! 0%nat = Some uFirst
    /\ last (uValues (frameCache this)) = Some uLast
    /\ normals (frameCache this) !! 0%nat = Some nFirst
    /\ last (normals (frameCache this)) = Some nLast
    /\ (u <= uFirst -> interpolateNormal this u = Some nFirst)
    /\ (uFirst < u -> uLast <= u -> interpolateNormal this u = Some nLast)
    /\ (uFirst < u < uLast ->
        exists j uLow uHigh nLow nHigh,
          uValues (frameCache this) !! j = Some uLow
          /\ uValues (frameCache this) !! S j = Some uHigh
          /\ normals (frameCache this) !! j = Some nLow
          /\ normals (frameCache this) !! S j = Some nHigh
          /\ uLow <= u < uHigh
          /\ interpolateNormal this u
             = Some (normalize
                       (lerp nLow nHigh ((u - uLow) / (uHigh - uLow))))).
Proof.
  intros [Hn Hu] Hne.
  set (cache := frameCache this) in *.
  assert (Hm : (0 < List.length (curves this))%nat)
    by (destruct (curves this); [contradiction|simpl; lia]).
  assert (Hun : (11 <= List.length (uValues cache))%nat)
    by (rewrite Hu; unfold samplesPerCurve; lia).
  assert (Hnn : List.length (normals cache) = List.length (uValues cache))
    by congruence.
  destruct (lookup_lt_is_Some_2 (uValues cache) 0%nat ltac:(lia)) as [uFirst H0].
  destruct (lookup_lt_is_Some_2 (normals cache) 0%nat ltac:(lia)) as [nFirst N0].
  destruct (lookup_lt_is_Some_2 (uValues cache)
              (List.length (uValues cache) - 1)%nat ltac:(lia)) as [uLast Hl].
  destruct (lookup_lt_is_Some_2 (normals cache)
              (List.length (uValues cache) - 1)%nat ltac:(lia)) as [nLast Nl].
  assert (Hhigh : (Z.of_nat (List.length (uValues cache)) - 1)%Z
                  = Z.of_nat (List.length (uValues cache) - 1)) by lia.
  exists uFirst, uLast, nFirst, nLast.
  split; [exact H0|].
  split; [rewrite last_lookup, <- Hl; f_equal; lia|].
  split; [exact N0|].
  split; [rewrite last_lookup, <- Nl; f_equal; lia|].
  unfold interpolateNormal. fold cache. cbv zeta.
  destruct (decide (List.length (normals cache) = 0%nat)) as [E|_]; [lia|].
  destruct (decide (List.length (normals cache) = 1%nat)) as [E|_]; [lia|].
  rewrite H0, Hhigh, !at_index_nat, Hl, Nl. cbn [holds]. unfold Num.geb.
  split; [|split].
  - intros Hle. rewrite (proj2 (leb_spec _ _) Hle). exact N0.
  - intros Hgt Hge.
    destruct (Num.leb u uFirst) eqn:Hfirst;
      [apply leb_spec in Hfirst; lra|].
    rewrite (proj2 (leb_spec _ _) Hge). reflexivity.
  - intros [Hgt Hlt].
    destruct (Num.leb u uFirst) eqn:Hfirst;
      [apply leb_spec in Hfirst; lra|].
    destruct (Num.leb uLast u) eqn:Hlast;
      [apply leb_spec in Hlast; lra|].
    pose proof (searchSamples_bracket (uValues cache) u 0
                  (Z.of_nat (List.length (uValues cache) - 1))) as Hsearch.
    cbv zeta in Hsearch.
    destruct Hsearch as (Hlo & Hhi & Hadj & Hbelow & Habove); [lia|..].
    { change 0%Z with (Z.of_nat 0). rewrite at_index_nat, H0. cbn [holds].
      apply leb_spec. lra. }
    { rewrite at_index_nat, Hl. exact Hlast. }
    destruct (searchSamples _ _ _ _) as [low high]. cbn [fst snd] in *.
    subst high.
    assert (Elow : exists j, low = Z.of_nat j)
      by (exists (Z.to_nat low); lia).
    destruct Elow as [j ->].
    replace (Z.of_nat j + 1)%Z with (Z.of_nat (S j)) in * by lia.
    rewrite !at_index_nat in *.
    assert (Hj : (S j < List.length (uValues cache))%nat) by lia.
    destruct (lookup_lt_is_Some_2 (uValues cache) j ltac:(lia)) as [uLow Hjl].
    destruct (lookup_lt_is_Some_2 (uValues cache) (S j) Hj) as [uHigh Hjh].
    destruct (lookup_lt_is_Some_2 (normals cache) j ltac:(lia)) as [nLow Njl].
    destruct (lookup_lt_is_Some_2 (normals cache) (S j) ltac:(lia))
      as [nHigh Njh].
    rewrite Hjl in Hbelow. rewrite Hjh in Habove. cbn [holds] in Hbelow, Habove.
    apply leb_spec in Hbelow.
    assert (Hup : u < uHigh).
    { destruct (Rlt_dec u uHigh) as [H|H]; [exact H|].
      assert (Hc : Num.leb uHigh u = true) by (apply leb_spec; lra).
      congruence. }
    exists j, uLow, uHigh, nLow, nHigh.
    rewrite Hjl, Hjh, Njl, Njh. cbn [mbind option_bind].
    unfold Num.gtb. rewrite (proj2 (ltb_spec uLow uHigh)) by lra.
    repeat split; try reflexivity; lra.
Qed.

(** X12. With a frame cache that is aligned and not empty,
    [interpolateNormal(u)] always returns a normal: the first cached normal
    when [u] is at or before the first u value, the last one when [u] is at
    or past the last u value, and between the two the normalized blend of
    two neighbouring samples [j] and [j + 1] that bracket [u],
    [uValues[j] <= u < uValues[j + 1]], with the blending factor
    [(u - uValues[j]) / (uValues[j + 1] - uValues[j])]. *)
Theorem interpolateNormal_bracket (this : EndlessCurve) (u : R) :
  aligned this ->
  curves this <> [] ->
  exists uFirst uLast nFirst nLast,
    uValues (frameCache this) !! 0%nat = Some uFirst
    /\ last (uValues (frameCache this)) = Some uLast
    /\ normals (frameCache this) !! 0%nat = Some nFirst
    /\ last (normals (frameCache this)) = Some nLast
    /\ (u <= uFirst -> interpolateNormal this u = Some nFirst)
    /\ (uFirst < u -> uLast <= u -> interpolateNormal this u = Some nLast)
    /\ (uFirst < u < uLast ->
        exists j uLow uHigh nLow nHigh,
          uValues (frameCache this) !! j = Some uLow
          /\ uValues (frameCache this) !! S j = Some uHigh
          /\ normals (frameCache this) !! j = Some nLow
          /\ normals (frameCache this) !! S j = Some nHigh
          /\ uLow <= u < uHigh
          /\ interpolateNormal this u
             = Some (normalize
                       (lerp nLow nHigh ((u - uLow) / (uHigh - uLow))))).
Proof. exact (interpolateNormal_bracket_cases this u). Qed.

(** On an aligned cache that is not empty no read of [interpolateNormal]
    falls outside the arrays. *)
Lemma interpolateNormal_is_Some (this : EndlessCurve) :
  aligned this -> curves this <> [] ->
  forall u, is_Some (interpolateNormal this u).
Proof.
  intros Hal Hne v.
  destruct (interpolateNormal_bracket_cases this v Hal Hne)
    as (uFirst & uLast & nFirst & nLast & _ & _ & _ & _
        & Hfirst & Hlast & Hbetween).
  destruct (Rle_dec v uFirst) as [H1|H1]; [rewrite Hfirst; eauto|].
  destruct (Rle_dec uLast v) as [H2|H2]; [rewrite Hlast; eauto; lra|].
  destruct (Hbetween ltac:(lra))
    as (j & a & b & c & d & _ & _ & _ & _ & _ & ->).
  eauto.
Qed.

(** Without a segment the cache is empty, and the fallback of
    [interpolateNormal] asks the empty path for a tangent. *)
Lemma interpolateNormal_empty (this : EndlessCurve) (u : R) :
  aligned this -> curves this = [] -> interpolateNormal this u = None.
Proof.
  intros [Hn _] E. rewrite E in Hn. simpl in Hn.
  unfold interpolateNormal. rewrite E.
  destruct (decide _) as [_|Hn']; [|contradiction].
  rewrite (proj2 (CurvePath_empty u)). reflexivity.
Qed.

(** With a segment, for a fraction in [0, 1], [getBasisAt] returns. *)
Lemma getBasisAt_within (this : EndlessCurve) (u : R) :
  aligned this -> curves this <> [] -> 0 <= u <= 1 ->
  exists position tangent normal,
    CurvePath_getPointAt (curves this) u = Some position
    /\ CurvePath_getTangentAt (curves this) u = Some tangent
    /\ interpolateNormal this u = Some normal
    /\ getBasisAt this u = Some (mkBasis position normal (normalize tangent)).
Proof.
  intros Hal Hne Hu.
  destruct (CurvePath_within (curves this) u Hne Hu) as [[p Hp] [t Ht]].
  destruct (interpolateNormal_is_Some this Hal Hne u) as [n Hn].
  exists p, t, n. unfold getBasisAt. rewrite Hp, Ht, Hn.
  repeat split; reflexivity.
Qed.

Lemma getBasisAtLocal_within (this : EndlessCurve) (u : R) :
  aligned this -> curves this <> [] ->
  0 <= uStart this + uLength this * u ->
  is_Some (getBasisAtLocal this u).
Proof.
  intros Hal Hne Hu. unfold getBasisAtLocal. cbv zeta.
  destruct (getBasisAt_within this
              (Rmin (uStart this + uLength this * u) 1) Hal Hne)
    as (p & t & n & _ & _ & _ & ->); [|eauto].
  split; [apply Rmin_glb; lra | apply Rmin_r].
Qed.

(** X13. In every state the public methods leave: on a manager that
    holds a segment [getBasisAt(u)] returns a basis for every [u] in
    [0, 1], no read of the frame cache falling outside it, made of the
    library's point, the interpolated normal and the library's normalized
    tangent at [u], and [getBasisAtLocal(u)] returns one whenever
    [uStart + uLength * u] is not negative.  On a manager that holds no
    segment [interpolateNormal], [getBasisAt], [getBasisAtLocal] and
    [getPointAtLocal] give nothing: the query of the empty path throws. *)
Theorem getBasisAt_returns (this : EndlessCurve) (u : R) :
  built this ->
  (curves this <> [] -> 0 <= u <= 1 ->
   exists position tangent normal,
     CurvePath_getPointAt (curves this) u = Some position
     /\ CurvePath_getTangentAt (curves this) u = Some tangent
     /\ interpolateNormal this u = Some normal
     /\ getBasisAt this u
        = Some (mkBasis position normal (normalize tangent)))
  /\ (curves this <> [] -> 0 <= uStart this + uLength this * u ->
      is_Some (getBasisAtLocal this u))
  /\ (curves this = [] ->
      interpolateNormal this u = None
      /\ getBasisAt this u = None
      /\ getBasisAtLocal this u = None
      /\ getPointAtLocal this u = None).
Proof.
  intros Hbuilt. pose proof (built_aligned _ Hbuilt) as Hal.
  split; [intros Hne Hu; exact (getBasisAt_within this u Hal Hne Hu)|].
  split; [intros Hne Hu; exact (getBasisAtLocal_within this u Hal Hne Hu)|].
  intros E.
  split; [exact (interpolateNormal_empty this u Hal E)|].
  unfold getBasisAtLocal, getPointAtLocal, getBasisAt. cbv zeta. rewrite E.
  rewrite !(proj1 (CurvePath_empty _)). repeat split; reflexivity.
Qed.

(** *** The cached normals are unit vectors *)

Lemma normalize_unitOrZero (v : Vector3) : unitOrZero (normalize v).
Proof. apply normalize_unit_or_zero. Qed.

Lemma parallelTransport_unitOrZero (prevNormal prevTangent newTangent : Vector3) :
  unitOrZero prevNormal ->
  unitOrZero (parallelTransport prevNormal prevTangent newTangent).
Proof.
  intros Hprev. unfold parallelTransport. cbv zeta.
  destruct (Num.gtb _ 0.9999); [exact Hprev|].
  apply normalize_unitOrZero.
Qed.

Lemma sampleFrames_unitOrZero curve samples :
  forall prevNormal prevTangent cache,
  Forall unitOrZero (normals cache) -> unitOrZero prevNormal ->
  Forall unitOrZero
    (normals (sampleFrames curve samples prevNormal prevTangent cache).1.1)
  /\ unitOrZero (sampleFrames curve samples prevNormal prevTangent cache).1.2.
Proof.
  induction samples as [|i samples IH]; intros prevNormal prevTangent cache Hc Hp.
  - simpl. auto.
  - cbn [sampleFrames]. cbv zeta. apply IH.
    + cbn [normals]. apply Forall_app. split; [exact Hc|].
      constructor; [|constructor]. apply parallelTransport_unitOrZero, Hp.
    + apply parallelTransport_unitOrZero, Hp.
Qed.

Lemma unitOrZero_components (v : Vector3) :
  unitOrZero v -> -1 <= x v <= 1 /\ -1 <= y v <= 1 /\ -1 <= z v <= 1.
Proof.
  intros [Hunit | ->]; [|simpl; lra].
  unfold lengthSq in Hunit. repeat split; nra.
Qed.

Lemma built_unitOrZero (this : EndlessCurve) :
  built this ->
  Forall unitOrZero (normals (frameCache this)) /\ unitOrZero (lastNormal this).
Proof.
  apply (built_invariant
           (fun this => Forall unitOrZero (normals (frameCache this))
                        /\ unitOrZero (lastNormal this))).
  - intros a b _ Hf Hl. rewrite <- Hf, <- Hl. auto.
  - intros nextCurveFn. simpl. split; [constructor|].
    left. unfold lengthSq; simpl. ring.
  - intros this0 curve this' _ [Hc Hl] Hadd.
    destruct (addCurve_recalculated _ _ _ Hadd) as (pn & pt & -> & Hpn).
    match goal with
    | |- context [recalculateUValues ?s] =>
        destruct (recalculateUValues_fields s)
          as (_ & _ & _ & _ & _ & _ & -> & -> & _)
    end.
    cbn [frameCache lastNormal]. apply sampleFrames_unitOrZero; [exact Hc|].
    destruct Hpn as [-> | [v ->]]; [exact Hl|].
    unfold getArbitraryPerpendicular. cbv zeta. apply normalize_unitOrZero.
  - intros this0 position _ [Hc Hl].
    destruct (removeCurvesBefore_spec this0 position)
      as (r & _ & _ & _ & _ & _ & _ & -> & _ & _ & _ & _ & _ & ->).
    split; [apply Forall_drop, Hc | exact Hl].
Qed.

Lemma interpolateNormal_unitOrZero (this : EndlessCurve) (u : R)
    (normal : Vector3) :
  built this -> interpolateNormal this u = Some normal -> unitOrZero normal.
Proof.
  intros Hbuilt. destruct (built_unitOrZero _ Hbuilt) as [Hall _].
  assert (Hin : forall i n, at_index (normals (frameCache this)) i = Some n ->
                            unitOrZero n).
  { intros i n. unfold at_index. destruct (decide _); [|discriminate].
    intros Hi. exact (proj1 (Forall_lookup _ _) Hall _ _ Hi). }
  assert (Hin0 : forall n, normals (frameCache this) !! 0%nat = Some n ->
                           unitOrZero n).
  { intros n Hn. exact (proj1 (Forall_lookup _ _) Hall _ _ Hn). }
  unfold interpolateNormal. cbv zeta.
  destruct (decide _).
  { destruct (CurvePath_getTangentAt _ _) as [tangent|]; [|discriminate].
    cbn [mbind option_bind]. intros [= <-].
    unfold getArbitraryPerpendicular. cbv zeta. apply normalize_unitOrZero. }
  destruct (decide _); [apply Hin0|].
  destruct (holds _ _); [apply Hin0|].
  destruct (holds _ _); [apply Hin|].
  destruct (searchSamples _ _ _ _) as [low high].
  destruct (at_index (normals (frameCache this)) low); [|discriminate].
  destruct (at_index (normals (frameCache this)) high); [|discriminate].
  cbn [mbind option_bind]. intros [= <-]. apply normalize_unitOrZero.
Qed.

(** X14. In every state the public methods leave, every cached normal and
    the stored last normal is a unit vector or, where a projection or a
    cross product vanished, the zero vector, and so is every normal
    [interpolateNormal] returns: each of its components lies in [-1, 1]. *)
Theorem normals_unit_or_zero (this : EndlessCurve) :
  built this ->
  Forall (fun n => lengthSq n = 1 \/ n = mkV 0 0 0) (normals (frameCache this))
  /\ (lengthSq (lastNormal this) = 1 \/ lastNormal this = mkV 0 0 0)
  /\ forall u normal,
       interpolateNormal this u = Some normal ->
       (lengthSq normal = 1 \/ normal = mkV 0 0 0)
       /\ -1 <= x normal <= 1 /\ -1 <= y normal <= 1 /\ -1 <= z normal <= 1.
Proof.
  intros Hbuilt. destruct (built_unitOrZero _ Hbuilt) as [Hall Hlast].
  split; [exact Hall|]. split; [exact Hlast|].
  intros u normal Hn.
  pose proof (interpolateNormal_unitOrZero _ _ _ Hbuilt Hn) as Hunit.
  split; [exact Hunit|]. apply unitOrZero_components, Hunit.
Qed.

(** *** The fill generates no more than it needs *)

(** X15. A fill that returns has appended the least number of segments
    that brings the cached arc length above the local end
    [length - distanceOffset]: with any smaller number of the generator's
    segments the list would still end at or before it.  The list only
    grows at its end, and the closure left is the generator after exactly
    that many calls. *)
Theorem fillLength_least (fuel : nat) (this this' : EndlessCurve) (length : R) :
  fillLength fuel this length = Some this' ->
  exists n,
    (n <= fuel)%nat
    /\ curves this' = curves this ++ emitted n (nextCurveFn this) (target this)
    /\ nextCurveFn this' = advanced n (nextCurveFn this) (target this)
    /\ length - distanceOffset this < arcLength (curves this')
    /\ forall m, (m < n)%nat ->
         arcLength (curves this ++ emitted m (nextCurveFn this) (target this))
         <= length - distanceOffset this.
Proof.
  revert this. induction fuel as [|fuel IH]; intros this Hfill;
    cbn [fillLength] in Hfill.
  - destruct (Num.ltb _ _) eqn:Hguard; [|discriminate].
    injection Hfill as <-. exists 0%nat. simpl. rewrite app_nil_r.
    apply ltb_spec in Hguard. rewrite getLengthSafe_arcLength in Hguard.
    unfold localDistance in Hguard.
    repeat split; try reflexivity; try lia; try lra.
  - destruct (Num.ltb _ _) eqn:Hguard.
    { injection Hfill as <-. exists 0%nat. simpl. rewrite app_nil_r.
      apply ltb_spec in Hguard. rewrite getLengthSafe_arcLength in Hguard.
      unfold localDistance in Hguard.
      repeat split; try reflexivity; try lia; try lra. }
    apply ltb_false in Hguard. rewrite getLengthSafe_arcLength in Hguard.
    unfold localDistance in Hguard.
    destruct (call (nextCurveFn this) (target this)) as [newCurve closure] eqn:Hcall.
    match type of Hfill with
    | context [addCurve ?s newCurve] =>
        destruct (addCurve_spec s newCurve)
          as (mid & new1 & Hadd & Hc & Hoff & _ & _ & Hfn & Htg & _)
    end.
    rewrite Hadd in Hfill. cbn [mbind option_bind] in Hfill.
    cbn [curves distanceOffset nextCurveFn target] in Hc, Hoff, Hfn, Htg.
    destruct (IH mid Hfill) as (n & Hn & Hc' & Hfn' & Hguard' & Hleast).
    rewrite Hc, Hfn, Htg, Hoff in *.
    exists (S n). split; [lia|].
    split; [rewrite Hc', emitted_S, Hcall, <- app_assoc; reflexivity|].
    split; [rewrite Hfn'; simpl; rewrite Hcall; reflexivity|].
    split; [exact Hguard'|].
    intros m Hm. destruct m as [|m].
    + simpl. rewrite app_nil_r. exact Hguard.
    + rewrite emitted_S, Hcall. cbn [fst snd].
      specialize (Hleast m ltac:(lia)). rewrite <- app_assoc in Hleast.
      exact Hleast.
Qed.

(** *** Eviction keeps the global arc positions *)

(** X16. [removeCurvesBefore] does not move what it keeps: the global arc
    position of the end of the list, [distanceOffset + getLengthSafe()], is
    the same before and after, and so is the global arc position at which
    every kept segment starts. *)
Theorem removeCurvesBefore_positions (this : EndlessCurve) (position : R) :
  distanceOffset (removeCurvesBefore this position)
  + getLengthSafe (removeCurvesBefore this position)
  = distanceOffset this + getLengthSafe this
  /\ exists r,
       curves (removeCurvesBefore this position) = drop r (curves this)
       /\ forall j,
            distanceOffset (removeCurvesBefore this position)
            + arcLength (take j (curves (removeCurvesBefore this position)))
            = distanceOffset this + arcLength (take (r + j) (curves this)).
Proof.
  destruct (removeCurvesBefore_spec this position)
    as (r & _ & _ & _ & _ & Hc & Hoff & _).
  split.
  - rewrite !getLengthSafe_arcLength, Hc, Hoff.
    rewrite (arcLength_take_drop r (curves this)). lra.
  - exists r. split; [exact Hc|]. intros j. rewrite Hc, Hoff.
    assert (Hsplit : take (r + j) (curves this)
                     = take r (curves this) ++ take j (drop r (curves this))).
    { rewrite <- (take_drop r (curves this)) at 1.
      destruct (decide (r <= List.length (curves this))%nat) as [Hr|Hr].
      - rewrite take_app_add'; [reflexivity|]. rewrite length_take. lia.
      - rewrite !drop_ge, app_nil_r, take_nil by lia.
        rewrite !take_ge by (try rewrite length_take; lia).
        rewrite app_nil_r. reflexivity. }
    rewrite Hsplit, arcLength_app. lra.
Qed.

End ManagerQueries.

(** ** The snake on the curve *)

Section SnakeFacts.
Context {lib : CurveLib} {path : CurvePathLib} {gen : NextCurveFn}.
Import Snake.

Lemma writeTexel_spec (data : list R) (i : nat) (r g b a : R) :
  (i * 4 + 3 < List.length data)%nat ->
  List.length (writeTexel data i r g b a) = List.length data
  /\ texelAt (writeTexel data i r g b a) i = Some (r, g, b, a)
  /\ forall p, (p < i * 4 \/ i * 4 + 4 <= p)%nat ->
       writeTexel data i r g b a !! p = data !! p.
Proof.
  intros Hin. unfold writeTexel, texelAt. cbv zeta.
  split; [rewrite !length_insert; reflexivity|]. split.
  - rewrite !list_lookup_insert, !length_insert.
    repeat (first [rewrite decide_True by (split; lia)
                  |rewrite decide_False by lia]).
    reflexivity.
  - intros p Hp. rewrite !list_lookup_insert_ne by lia. reflexivity.
Qed.

Lemma texelAt_unchanged (data data' : list R) (i : nat) :
  (forall p, (p < (i + 1) * 4)%nat -> data' !! p = data !! p) ->
  texelAt data' i = texelAt data i.
Proof.
  intros Hsame. unfold texelAt. rewrite !Hsame by lia. reflexivity.
Qed.

(** The loop of [updateTextures] writes texel [i] from the basis at
    [i / (texturePoints - 1)] and nothing else. *)
Lemma updateTexels_spec (curve_ : EndlessCurve) (texturePoints_ : nat) :
  forall count start posData normData,
  ((start + count) * 4 <= List.length posData)%nat ->
  ((start + count) * 4 <= List.length normData)%nat ->
  (forall i, (i < start + count)%nat ->
     is_Some (getBasisAtLocal curve_ (INR i / (INR texturePoints_ - 1)))) ->
  exists posData' normData',
    updateTexels curve_ texturePoints_ (seq start count) posData normData
    = Some (posData', normData')
    /\ List.length posData' = List.length posData
    /\ List.length normData' = List.length normData
    /\ (forall p, (p < start * 4)%nat ->
          posData' !! p = posData !! p /\ normData' !! p = normData !! p)
    /\ (forall i, (start <= i < start + count)%nat ->
          exists basis,
            getBasisAtLocal curve_ (INR i / (INR texturePoints_ - 1))
            = Some basis
            /\ texelAt posData' i
               = Some (x (position basis), y (position basis),
                       z (position basis), 1)
            /\ texelAt normData' i
               = Some (x (normal basis) * 0.5 + 0.5,
                       y (normal basis) * 0.5 + 0.5,
                       z (normal basis) * 0.5 + 0.5, 1)).
Proof.
  induction count as [|count IH]; intros start posData normData Hp Hn Hsome.
  - exists posData, normData. simpl.
    split; [reflexivity|]. split; [reflexivity|]. split; [reflexivity|].
    split; [auto|]. intros i Hi. lia.
  - cbn [seq updateTexels]. cbv zeta.
    destruct (Hsome start ltac:(lia)) as [basis Hbasis].
    rewrite Hbasis. cbn [mbind option_bind].
    set (pos1 := writeTexel posData start _ _ _ _).
    set (norm1 := writeTexel normData start _ _ _ _).
    destruct (writeTexel_spec posData start (x (position basis))
                (y (position basis)) (z (position basis)) 1 ltac:(lia))
      as (Hlp & Htp & Hkp).
    destruct (writeTexel_spec normData start (x (normal basis) * 0.5 + 0.5)
                (y (normal basis) * 0.5 + 0.5) (z (normal basis) * 0.5 + 0.5)
                1 ltac:(lia))
      as (Hln & Htn & Hkn).
    fold pos1 in Hlp, Htp, Hkp. fold norm1 in Hln, Htn, Hkn.
    destruct (IH (S start) pos1 norm1 ltac:(lia) ltac:(lia)
                ltac:(intros i Hi; apply Hsome; lia))
      as (pos' & norm' & Hrun & Hlp' & Hln' & Hkeep & Hnew).
    exists pos', norm'. split; [exact Hrun|].
    split; [congruence|]. split; [congruence|]. split.
    + intros p Hlt. destruct (Hkeep p ltac:(lia)) as [-> ->].
      rewrite Hkp, Hkn by lia. auto.
    + intros i Hi. destruct (decide (i = start)) as [->|Hne].
      * exists basis. split; [exact Hbasis|].
        rewrite (texelAt_unchanged pos1 pos'), (texelAt_unchanged norm1 norm').
        -- auto.
        -- intros p Hlt. apply (Hkeep p). lia.
        -- intros p Hlt. apply (Hkeep p). lia.
      * apply Hnew. lia.
Qed.

Lemma getBasisAtLocal_normal (curve_ : EndlessCurve) (u : R) (basis : CurveBasis) :
  built curve_ -> getBasisAtLocal curve_ u = Some basis ->
  0 <= x (normal basis) * 0.5 + 0.5 <= 1
  /\ 0 <= y (normal basis) * 0.5 + 0.5 <= 1
  /\ 0 <= z (normal basis) * 0.5 + 0.5 <= 1.
Proof.
  intros Hbuilt. unfold getBasisAtLocal, getBasisAt. cbv zeta.
  destruct (CurvePath_getPointAt _ _) as [p|]; [|discriminate].
  destruct (CurvePath_getTangentAt _ _) as [t|]; [|discriminate].
  cbn [mbind option_bind].
  destruct (interpolateNormal _ _) as [n|] eqn:Hn; [|discriminate].
  cbn [mbind option_bind]. intros [= <-]. cbn [normal].
  pose proof (unitOrZero_components _
                (interpolateNormal_unitOrZero _ _ _ Hbuilt Hn)).
  lra.
Qed.

Lemma texel_fraction (i texturePoints_ : nat) :
  (2 <= texturePoints_)%nat -> (i < texturePoints_)%nat ->
  0 <= INR i / (INR texturePoints_ - 1) <= 1.
Proof.
  intros Htp Hi.
  assert (H1 : INR i <= INR (texturePoints_ - 1)) by (apply le_INR; lia).
  rewrite minus_INR in H1 by lia. simpl in H1.
  pose proof (pos_INR i) as H0.
  assert (H2 : 2 <= INR texturePoints_).
  { apply le_INR in Htp. simpl in Htp. lra. }
  split.
  - apply Rmult_le_pos; [exact H0|]. apply Rlt_le, Rinv_0_lt_compat. lra.
  - apply (Rmult_le_reg_r (INR texturePoints_ - 1)); [lra|].
    unfold Rdiv. rewrite Rmult_assoc, Rinv_l by lra. lra.
Qed.

(** [updateTextures] on a snake in working order whose manager holds a
    segment and a window that is not negative. *)
Lemma updateTextures_spec (this : SnakeObject) (curve_ : EndlessCurve)
    (posData normData : list R) (texturePoints_ : nat) :
  curve this = Some curve_ ->
  built curve_ ->
  curves curve_ <> [] ->
  0 <= uStart curve_ ->
  0 <= uLength curve_ ->
  positionTex this = Some posData ->
  normalTex this = Some normData ->
  texturePoints this = Some texturePoints_ ->
  (2 <= texturePoints_)%nat ->
  List.length posData = (texturePoints_ * 4)%nat ->
  List.length normData = (texturePoints_ * 4)%nat ->
  exists posData' normData',
    updateTextures this
    = Some (mkSnakeObject (curve this) (Some posData') (Some normData')
              (distance this) (spineSegments this) (radialSegments this)
              (texturePoints this) (config_length this) (config_speed this)
              (config_spineSegments this) (config_radialSegments this)
              (u_timeOffset this))
    /\ List.length posData' = (texturePoints_ * 4)%nat
    /\ List.length normData' = (texturePoints_ * 4)%nat
    /\ forall i, (i < texturePoints_)%nat ->
         exists basis,
           getBasisAtLocal curve_ (INR i / (INR texturePoints_ - 1))
           = Some basis
           /\ texelAt posData' i
              = Some (x (position basis), y (position basis),
                      z (position basis), 1)
           /\ texelAt normData' i
              = Some (x (normal basis) * 0.5 + 0.5,
                      y (normal basis) * 0.5 + 0.5,
                      z (normal basis) * 0.5 + 0.5, 1)
           /\ 0 <= x (normal basis) * 0.5 + 0.5 <= 1
           /\ 0 <= y (normal basis) * 0.5 + 0.5 <= 1
           /\ 0 <= z (normal basis) * 0.5 + 0.5 <= 1.
Proof.
  intros Hc Hbuilt Hne Hus Hul Hp Hn Htp Htwo Hlp Hln.
  assert (Hsome : forall i, (i < 0 + texturePoints_)%nat ->
            is_Some (getBasisAtLocal curve_ (INR i / (INR texturePoints_ - 1)))).
  { intros i Hi.
    apply (getBasisAtLocal_within curve_ _ (built_aligned _ Hbuilt) Hne).
    pose proof (texel_fraction i texturePoints_ Htwo ltac:(lia)). nra. }
  destruct (updateTexels_spec curve_ texturePoints_ texturePoints_ 0
              posData normData ltac:(lia) ltac:(lia) Hsome)
    as (pos' & norm' & Hrun & Hlp' & Hln' & _ & Hnew).
  exists pos', norm'. unfold updateTextures.
  rewrite Hc, Hp, Hn, Htp. cbn [from_option Datatypes.id]. rewrite Hrun.
  cbn [mbind option_bind].
  split; [reflexivity|]. split; [congruence|]. split; [congruence|].
  intros i Hi. destruct (Hnew i ltac:(lia)) as (basis & Hb & Htexp & Htexn).
  exists basis. split; [exact Hb|]. split; [exact Htexp|].
  split; [exact Htexn|]. exact (getBasisAtLocal_normal _ _ _ Hbuilt Hb).
Qed.

(** X17. [updateTextures] on a snake whose two textures have
    [texturePoints] texels, at least two, and whose manager is in a state
    the public methods leave.  When the manager holds a segment and its
    window is not negative ([0 <= uStart], [0 <= uLength]), the call does
    not throw and rewrites every texel: texel [i] of the position texture
    holds the position of the basis at local parameter
    [i / (texturePoints - 1)] and alpha [1], texel [i] of the normal
    texture holds the normal of that basis encoded as [n * 0.5 + 0.5], each
    component within [0, 1], and alpha [1]; nothing else of the snake
    changes.  When the manager holds no segment, the call throws at its
    first texel. *)
Theorem updateTextures_texels (this : SnakeObject) (curve_ : EndlessCurve)
    (posData normData : list R) (texturePoints_ : nat) :
  curve this = Some curve_ ->
  built curve_ ->
  positionTex this = Some posData ->
  normalTex this = Some normData ->
  texturePoints this = Some texturePoints_ ->
  (2 <= texturePoints_)%nat ->
  List.length posData = (texturePoints_ * 4)%nat ->
  List.length normData = (texturePoints_ * 4)%nat ->
  (curves curve_ <> [] -> 0 <= uStart curve_ -> 0 <= uLength curve_ ->
   exists posData' normData',
     updateTextures this
     = Some (mkSnakeObject (curve this) (Some posData') (Some normData')
               (distance this) (spineSegments this) (radialSegments this)
               (texturePoints this) (config_length this) (config_speed this)
               (config_spineSegments this) (config_radialSegments this)
               (u_timeOffset this))
     /\ List.length posData' = (texturePoints_ * 4)%nat
     /\ List.length normData' = (texturePoints_ * 4)%nat
     /\ forall i, (i < texturePoints_)%nat ->
          exists basis,
            getBasisAtLocal curve_ (INR i / (INR texturePoints_ - 1))
            = Some basis
            /\ texelAt posData' i
               = Some (x (position basis), y (position basis),
                       z (position basis), 1)
            /\ texelAt normData' i
               = Some (x (normal basis) * 0.5 + 0.5,
                       y (normal basis) * 0.5 + 0.5,
                       z (normal basis) * 0.5 + 0.5, 1)
            /\ 0 <= x (normal basis) * 0.5 + 0.5 <= 1
            /\ 0 <= y (normal basis) * 0.5 + 0.5 <= 1
            /\ 0 <= z (normal basis) * 0.5 + 0.5 <= 1)
  /\ (curves curve_ = [] -> updateTextures this = None).
Proof.
  intros Hc Hbuilt Hp Hn Htp Htwo Hlp Hln. split.
  - intros Hne Hus Hul.
    exact (updateTextures_spec this curve_ posData normData texturePoints_
             Hc Hbuilt Hne Hus Hul Hp Hn Htp Htwo Hlp Hln).
  - intros E. unfold updateTextures.
    rewrite Hc, Hp, Hn, Htp. cbn [from_option Datatypes.id].
    destruct texturePoints_ as [|count]; [lia|].
    cbn [seq updateTexels]. cbv zeta.
    unfold getBasisAtLocal, getBasisAt. cbv zeta. rewrite E.
    rewrite (proj1 (CurvePath_empty _)). reflexivity.
Qed.

(** [update] on a snake in working order whose fill returns. *)
Lemma update_spec (fuel : nat) (this : SnakeObject) (delta : R)
    (curve_ curve' : EndlessCurve) (posData normData : list R)
    (texturePoints_ : nat) :
  curve this = Some curve_ ->
  built curve_ ->
  distanceOffset curve_ <= distance this ->
  positionTex this = Some posData ->
  normalTex this = Some normData ->
  texturePoints this = Some texturePoints_ ->
  (2 <= texturePoints_)%nat ->
  List.length posData = (texturePoints_ * 4)%nat ->
  List.length normData = (texturePoints_ * 4)%nat ->
  0 <= config_length this ->
  0 <= delta * config_speed this ->
  configureStartEnd fuel curve_ (distance this + delta * config_speed this)
    (config_length this) = Some curve' ->
  exists this' posData' normData',
    update fuel this delta = Some this'
    /\ curve this' = Some curve'
    /\ built curve'
    /\ distance this' = distance this + delta * config_speed this
    /\ distanceOffset curve' <= distance this'
    /\ u_timeOffset this' = distance this' * 0.1
    /\ texturePoints this' = Some texturePoints_
    /\ config_length this' = config_length this
    /\ config_speed this' = config_speed this
    /\ positionTex this' = Some posData'
    /\ normalTex this' = Some normData'
    /\ List.length posData' = (texturePoints_ * 4)%nat
    /\ List.length normData' = (texturePoints_ * 4)%nat
    /\ forall i, (i < texturePoints_)%nat ->
         let u := INR i / (INR texturePoints_ - 1) in
         exists basis,
           getBasisAt curve' (uStart curve' + uLength curve' * u) = Some basis
           /\ (uStart curve' + uLength curve' * u) * getLengthSafe curve'
              + distanceOffset curve'
              = distance this' + config_length this * u
           /\ texelAt posData' i
              = Some (x (position basis), y (position basis),
                      z (position basis), 1)
           /\ texelAt normData' i
              = Some (x (normal basis) * 0.5 + 0.5,
                      y (normal basis) * 0.5 + 0.5,
                      z (normal basis) * 0.5 + 0.5, 1).
Proof.
  intros Hc Hbuilt Hoff Hp Hn Htp Htwo Hlp Hln Hlen Hstep Hcfg.
  set (distance' := distance this + delta * config_speed this) in *.
  assert (Hbuilt' : built curve')
    by exact (built_configureStartEnd _ _ _ _ _ Hbuilt Hcfg).
  assert (Hwindow : distanceOffset curve' <= distance'
            /\ curves curve' <> []
            /\ 0 <= uStart curve'
            /\ 0 <= uLength curve'
            /\ forall u, 0 <= u <= 1 ->
                 (uStart curve' + uLength curve' * u) * getLengthSafe curve'
                 + distanceOffset curve'
                 = distance' + config_length this * u
                 /\ getBasisAtLocal curve' u
                    = getBasisAt curve' (uStart curve' + uLength curve' * u)).
  { pose proof (configureStartEnd_guard _ _ _ _ _ Hcfg) as Hguard.
    destruct (configureStartEnd_spec _ _ _ _ _ Hcfg)
      as (filled & Hfill & _ & Hoff' & _ & _ & _ & _ & Hus & Hul).
    destruct (fillLength_spec _ _ _ _ Hfill)
      as (_ & _ & _ & _ & _ & _ & _ & Hoff_f & _).
    destruct (removeCurvesBefore_spec filled distance')
      as (r & _ & Hbelow & _ & _ & _ & Hoff'' & _).
    assert (Hpos : distanceOffset curve' <= distance').
    { rewrite Hoff', Hoff'', Hoff_f. destruct r as [|r]; [simpl; subst distance'; lra|].
      pose proof (Hbelow r ltac:(lia)) as Hb. unfold localDistance in Hb. lra. }
    split; [exact Hpos|].
    unfold localDistance in *.
    assert (Hne : curves curve' <> []).
    { intros E. rewrite getLengthSafe_arcLength, E in Hguard.
      simpl in Hguard. lra. }
    split; [exact Hne|].
    set (total := getLengthSafe curve') in *.
    assert (Htotal : 0 < total) by lra.
    unfold Num.gtb in Hus, Hul.
    rewrite (proj2 (ltb_spec 0 total) Htotal) in Hus, Hul.
    assert (Ha : uStart curve' * total = distance' - distanceOffset curve')
      by (rewrite Hus; field; lra).
    assert (Hb : uLength curve' * total = config_length this)
      by (rewrite Hul; field; lra).
    assert (Hs0 : 0 <= uStart curve').
    { rewrite Hus. apply Rmult_le_pos; [lra|].
      apply Rlt_le, Rinv_0_lt_compat, Htotal. }
    assert (Hl0 : 0 <= uLength curve').
    { rewrite Hul. apply Rmult_le_pos; [lra|].
      apply Rlt_le, Rinv_0_lt_compat, Htotal. }
    split; [exact Hs0|]. split; [exact Hl0|].
    intros u Hu. split; [nra|].
    unfold getBasisAtLocal. cbv zeta. rewrite Rmin_left; [reflexivity|].
    assert (Hend : (uStart curve' + uLength curve' * u) * total <= 1 * total)
      by nra.
    apply (Rmult_le_reg_r total); [exact Htotal|exact Hend]. }
  destruct Hwindow as (Hpos & Hne' & Hus' & Hul' & Hwindow).
  destruct (updateTextures_spec
              (mkSnakeObject (Some curve') (positionTex this) (normalTex this)
                 distance' (spineSegments this) (radialSegments this)
                 (texturePoints this) (config_length this) (config_speed this)
                 (config_spineSegments this) (config_radialSegments this)
                 (u_timeOffset this))
              curve' posData normData texturePoints_ eq_refl Hbuilt' Hne' Hus'
              Hul' Hp Hn Htp Htwo Hlp Hln)
    as (pos' & norm' & Hrun & Hlp' & Hln' & Htexels).
  cbn [curve positionTex normalTex distance spineSegments radialSegments
       texturePoints config_length config_speed config_spineSegments
       config_radialSegments u_timeOffset] in Hrun.
  eexists _, pos', norm'. unfold update. fold distance'. cbv zeta.
  rewrite Hc, Hcfg. cbn [mbind option_bind]. rewrite Hrun.
  cbn [mbind option_bind].
  cbn [curve positionTex normalTex distance spineSegments radialSegments
       texturePoints config_length config_speed config_spineSegments
       config_radialSegments u_timeOffset].
  split; [reflexivity|]. split; [reflexivity|]. split; [exact Hbuilt'|].
  split; [reflexivity|]. split; [exact Hpos|]. split; [reflexivity|].
  split; [exact Htp|]. split; [reflexivity|]. split; [reflexivity|].
  split; [reflexivity|]. split; [reflexivity|].
  split; [exact Hlp'|]. split; [exact Hln'|].
  intros i Hi. set (u := INR i / (INR texturePoints_ - 1)).
  destruct (Htexels i Hi) as (basis & Hb & Htexp & Htexn & _).
  destruct (Hwindow u (texel_fraction i texturePoints_ Htwo Hi)) as [Harc Hsame].
  exists basis. fold u in Hb. rewrite Hsame in Hb.
  split; [exact Hb|]. split; [exact Harc|]. split; [exact Htexp|exact Htexn].
Qed.

(** X18. [update(delta)] on a snake in working order, when the fill
    returns: the distance grows by [delta * speed], the manager is
    configured to the window that starts there and is [config.length] long,
    its offset stays at or before the distance, and the call does not
    throw.  Texel [i] of the two textures is the basis of the path at
    parameter [uStart + uLength * i / (texturePoints - 1)], the point at
    global arc position [distance + length * i / (texturePoints - 1)]:
    the texels run from the tail at [distance] to the head at
    [distance + length] in equal steps of arc length. *)
Theorem update_samples_window (fuel : nat) (this : SnakeObject) (delta : R)
    (curve_ curve' : EndlessCurve) (posData normData : list R)
    (texturePoints_ : nat) :
  curve this = Some curve_ ->
  built curve_ ->
  distanceOffset curve_ <= distance this ->
  positionTex this = Some posData ->
  normalTex this = Some normData ->
  texturePoints this = Some texturePoints_ ->
  (2 <= texturePoints_)%nat ->
  List.length posData = (texturePoints_ * 4)%nat ->
  List.length normData = (texturePoints_ * 4)%nat ->
  0 <= config_length this ->
  0 <= delta * config_speed this ->
  configureStartEnd fuel curve_ (distance this + delta * config_speed this)
    (config_length this) = Some curve' ->
  exists this' posData' normData',
    update fuel this delta = Some this'
    /\ curve this' = Some curve'
    /\ built curve'
    /\ distance this' = distance this + delta * config_speed this
    /\ distanceOffset curve' <= distance this'
    /\ u_timeOffset this' = distance this' * 0.1
    /\ texturePoints this' = Some texturePoints_
    /\ config_length this' = config_length this
    /\ config_speed this' = config_speed this
    /\ positionTex this' = Some posData'
    /\ normalTex this' = Some normData'
    /\ List.length posData' = (texturePoints_ * 4)%nat
    /\ List.length normData' = (texturePoints_ * 4)%nat
    /\ forall i, (i < texturePoints_)%nat ->
         let u := INR i / (INR texturePoints_ - 1) in
         exists basis,
           getBasisAt curve' (uStart curve' + uLength curve' * u) = Some basis
           /\ (uStart curve' + uLength curve' * u) * getLengthSafe curve'
              + distanceOffset curve'
              = distance this' + config_length this * u
           /\ texelAt posData' i
              = Some (x (position basis), y (position basis),
                      z (position basis), 1)
           /\ texelAt normData' i
              = Some (x (normal basis) * 0.5 + 0.5,
                      y (normal basis) * 0.5 + 0.5,
                      z (normal basis) * 0.5 + 0.5, 1).
Proof. exact (update_spec fuel this delta curve_ curve' posData normData texturePoints_). Qed.

(** X19. A tick of [Snake.update] keeps a snake in working order in
    working order: when [delta] is not negative and the call returns, the
    snake is again in working order, its distance has not decreased, and
    its manager holds the new target.  The call fails to return only when
    the fill of its manager does: nothing in a tick throws. *)
Theorem Snake_update_keeps_riding (fuel : nat) (this : SnakeObject)
    (targetSpherePosition : Vector3) (delta : R) :
  riding this ->
  0 <= delta ->
  (forall this',
     Snake_update fuel this targetSpherePosition delta = Some this' ->
     riding this'
     /\ distance this <= distance this'
     /\ distance this' = distance this + delta * config_speed this
     /\ exists curve', curve this' = Some curve'
                       /\ target curve' = Some targetSpherePosition)
  /\ (Snake_update fuel this targetSpherePosition delta = None ->
      exists curve_,
        curve this = Some curve_
        /\ fillLength fuel (setTarget curve_ targetSpherePosition)
             (distance this + delta * config_speed this + config_length this)
           = None).
Proof.
  intros (curve_ & posData & normData & tp & Hc & Hbuilt & Hoff & Hp & Hn & Htp
          & Htwo & Hlp & Hln & Hlen & Hspeed) Hdelta.
  assert (Hstep : 0 <= delta * config_speed this) by nra.
  set (this1 :=
    mkSnakeObject (Some (setTarget curve_ targetSpherePosition))
      (positionTex this) (normalTex this) (distance this)
      (spineSegments this) (radialSegments this) (texturePoints this)
      (config_length this) (config_speed this) (config_spineSegments this)
      (config_radialSegments this) (u_timeOffset this)).
  assert (Hunfold : Snake_update fuel this targetSpherePosition delta
                    = update fuel this1 delta).
  { unfold Snake_update. cbv zeta. rewrite Hc. reflexivity. }
  rewrite Hunfold.
  destruct (configureStartEnd fuel (setTarget curve_ targetSpherePosition)
              (distance this + delta * config_speed this) (config_length this))
    as [curve'|] eqn:Hcfg.
  - destruct (update_spec fuel this1 delta
                (setTarget curve_ targetSpherePosition) curve' posData normData
                tp eq_refl (built_setTarget _ _ Hbuilt) Hoff Hp Hn Htp Htwo
                Hlp Hln Hlen Hstep Hcfg)
      as (this' & pos' & norm' & Hrun & Hc' & Hbuilt' & Hd & Hoff' & _ & Htp'
          & Hlen' & Hspeed' & Hp' & Hn' & Hlp' & Hln' & _).
    subst this1.
    cbn [distance config_speed config_length] in Hd, Hlen', Hspeed'.
    split; [|rewrite Hrun; discriminate].
    intros this'' Hrun'. rewrite Hrun in Hrun'. injection Hrun' as <-.
    split.
    { exists curve', pos', norm', tp.
      rewrite Hlen', Hspeed'. repeat split; assumption. }
    split; [lra|]. split; [exact Hd|].
    exists curve'. split; [exact Hc'|].
    destruct (configureStartEnd_spec _ _ _ _ _ Hcfg)
      as (filled & Hfill & _ & _ & _ & _ & Htg & _).
    destruct (fillLength_spec _ _ _ _ Hfill)
      as (_ & _ & _ & _ & _ & _ & _ & _ & _ & _ & Htg_f & _).
    destruct (removeCurvesBefore_spec filled
                (distance this + delta * config_speed this))
      as (_ & _ & _ & _ & _ & _ & _ & _ & _ & _ & _ & _ & Htg_r & _).
    rewrite Htg, Htg_r, Htg_f. reflexivity.
  - split.
    + subst this1. unfold update. cbn [curve distance config_speed config_length].
      rewrite Hcfg. cbn [mbind option_bind]. discriminate.
    + intros _. exists curve_. split; [exact Hc|].
      unfold configureStartEnd in Hcfg.
      destruct (fillLength _ _ _) as [filled|]; [discriminate|].
      f_equal.
Qed.

(** *** The instance grid *)

Lemma createColumns_spec (row radialSegments_ : nat) (u : R) :
  forall count start spineUs thetas,
  (row * radialSegments_ + start + count <= List.length spineUs)%nat ->
  (row * radialSegments_ + start + count <= List.length thetas)%nat ->
  let r := createColumns (seq start count) row radialSegments_ u
             spineUs thetas in
  List.length r.1 = List.length spineUs
  /\ List.length r.2 = List.length thetas
  /\ (forall p, (p < row * radialSegments_ + start)%nat ->
        r.1 !! p = spineUs !! p /\ r.2 !! p = thetas !! p)
  /\ (forall col, (start <= col < start + count)%nat ->
        r.1 !! (row * radialSegments_ + col)%nat = Some u
        /\ r.2 !! (row * radialSegments_ + col)%nat
           = Some (INR col / INR radialSegments_ * PI * 2)).
Proof.
  induction count as [|count IH]; intros start spineUs thetas Hs Ht r.
  - subst r. simpl. repeat split; try reflexivity. all: intros; lia.
  - subst r. cbn [seq createColumns]. cbv zeta.
    set (idx := (row * radialSegments_ + start)%nat).
    set (angle := INR start / INR radialSegments_ * PI * 2).
    destruct (IH (S start) (<[idx := u]> spineUs) (<[idx := angle]> thetas)
                ltac:(rewrite length_insert; lia)
                ltac:(rewrite length_insert; lia))
      as (Hl1 & Hl2 & Hkeep & Hnew).
    rewrite !length_insert in Hl1, Hl2.
    split; [exact Hl1|]. split; [exact Hl2|]. split.
    + intros p Hp. destruct (Hkeep p ltac:(lia)) as [-> ->].
      rewrite !list_lookup_insert_ne by (subst idx; lia). auto.
    + intros col Hcol. destruct (decide (col = start)) as [->|Hne].
      * destruct (Hkeep idx ltac:(subst idx; lia)) as [H1 H2].
        fold idx. rewrite H1, H2, !list_lookup_insert.
        rewrite !decide_True by (split; [reflexivity|subst idx; lia]).
        auto.
      * apply Hnew. lia.
Qed.

Lemma createRows_spec (spineSegments_ radialSegments_ : nat) :
  forall count start spineUs thetas,
  ((start + count) * radialSegments_ <= List.length spineUs)%nat ->
  ((start + count) * radialSegments_ <= List.length thetas)%nat ->
  let r := createRows (seq start count) spineSegments_ radialSegments_
             spineUs thetas in
  List.length r.1 = List.length spineUs
  /\ List.length r.2 = List.length thetas
  /\ (forall p, (p < start * radialSegments_)%nat ->
        r.1 !! p = spineUs !! p /\ r.2 !! p = thetas !! p)
  /\ (forall row col,
        (start <= row < start + count)%nat -> (col < radialSegments_)%nat ->
        r.1 !! (row * radialSegments_ + col)%nat
        = Some (if decide (1 < spineSegments_)%nat
                then INR row / (INR spineSegments_ - 1) else 0)
        /\ r.2 !! (row * radialSegments_ + col)%nat
           = Some (INR col / INR radialSegments_ * PI * 2)).
Proof.
  induction count as [|count IH]; intros start spineUs thetas Hs Ht r.
  - subst r. simpl. repeat split; try reflexivity. all: intros; lia.
  - subst r. cbn [seq createRows]. cbv zeta.
    set (u := if decide (1 < spineSegments_)%nat
              then INR start / (INR spineSegments_ - 1) else 0).
    pose proof (createColumns_spec start radialSegments_ u radialSegments_ 0
                  spineUs thetas ltac:(lia) ltac:(lia)) as Hcols.
    cbv zeta in Hcols.
    destruct (createColumns _ _ _ _ _ _) as [spineUs1 thetas1].
    cbn [fst snd] in Hcols. destruct Hcols as (Hl1 & Hl2 & Hkeep1 & Hnew1).
    destruct (IH (S start) spineUs1 thetas1 ltac:(lia) ltac:(lia))
      as (Hl1' & Hl2' & Hkeep & Hnew).
    split; [congruence|]. split; [congruence|]. split.
    + intros p Hp. destruct (Hkeep p ltac:(lia)) as [-> ->].
      apply Hkeep1. lia.
    + intros row col Hrow Hcol. destruct (decide (row = start)) as [->|Hne].
      * destruct (Hkeep (start * radialSegments_ + col)%nat ltac:(lia))
          as [-> ->].
        apply Hnew1. lia.
      * apply Hnew; lia.
Qed.

(** X20. [createGeometry] fills the whole instance grid: for
    [spineSegments] rows of [radialSegments] instances it returns two
    arrays of [spineSegments * radialSegments] numbers, and instance
    [row * radialSegments + col] gets [spineU = row / (spineSegments - 1)]
    ([0] when there is one row), between [0] and [1], and
    [theta = col / radialSegments * 2 PI], in [0, 2 PI). *)
Theorem createGeometry_grid (this : SnakeObject) (row col : nat) :
  let spineSegments_ := default 0%nat (spineSegments this) in
  let radialSegments_ := default 0%nat (radialSegments this) in
  (row < spineSegments_)%nat ->
  (col < radialSegments_)%nat ->
  exists spineU theta,
    List.length (createGeometry this).1
    = (spineSegments_ * radialSegments_)%nat
    /\ List.length (createGeometry this).2
       = (spineSegments_ * radialSegments_)%nat
    /\ (createGeometry this).1 !! (row * radialSegments_ + col)%nat
       = Some spineU
    /\ (createGeometry this).2 !! (row * radialSegments_ + col)%nat
       = Some theta
    /\ spineU = (if decide (1 < spineSegments_)%nat
                 then INR row / (INR spineSegments_ - 1) else 0)
    /\ theta = INR col / INR radialSegments_ * PI * 2
    /\ 0 <= spineU <= 1
    /\ 0 <= theta < 2 * PI.
Proof.
  intros rows cols Hrow Hcol. unfold createGeometry. cbv zeta.
  fold rows cols.
  pose proof (createRows_spec rows cols rows 0
                (replicate (rows * cols) 0) (replicate (rows * cols) 0)
                ltac:(rewrite length_replicate; lia)
                ltac:(rewrite length_replicate; lia)) as Hspec.
  cbv zeta in Hspec. destruct Hspec as (Hl1 & Hl2 & _ & Hnew).
  rewrite !length_replicate in Hl1, Hl2.
  destruct (Hnew row col ltac:(lia) Hcol) as [Hu Ht].
  eexists _, _. split; [exact Hl1|]. split; [exact Hl2|].
  split; [exact Hu|]. split; [exact Ht|].
  split; [reflexivity|]. split; [reflexivity|]. split.
  - destruct (decide (1 < rows)%nat) as [Hmany|_]; [|lra].
    apply texel_fraction; lia.
  - pose proof PI_RGT_0 as Hpi. pose proof (pos_INR col) as H0.
    assert (Hlt : INR col < INR cols) by (apply lt_INR, Hcol).
    assert (Hfrac : 0 <= INR col / INR cols < 1).
    { split.
      - apply Rmult_le_pos; [exact H0|].
        apply Rlt_le, Rinv_0_lt_compat. lra.
      - apply (Rmult_lt_reg_r (INR cols)); [lra|].
        unfold Rdiv. rewrite Rmult_assoc, Rinv_l by lra. lra. }
    split; nra.
Qed.

End SnakeFacts.

(** ** The steering generator under the manager and the snake *)

Section SteeringChain.
Context {lib : CurveLib} {path : CurvePathLib}.
#[local] Existing Instance steeringGenerator.
Import Snake.

(** A call emits a segment from the stored point and stores its end. *)
Lemma call_endpoints (g : GeneratorClosure) (target : option Vector3) :
  v0 (call g target).1 = lastPoint (heading g)
  /\ lastPoint (heading (call g target).2) = v3 (call g target).1.
Proof.
  cbn [call steeringGenerator]. unfold nextCurve.
  destruct (steeringForce _ _ _ _ _ _) as [[desiredDir oa] ca].
  cbn [fst snd v0 v3 heading lastPoint]. split; reflexivity.
Qed.

(** The chord of every segment a generator in working order emits is at
    most [segmentLength.max] long. *)
Lemma steady_emitted_max (n : nat) :
  forall (g : GeneratorClosure) (target : option Vector3),
  steady g ->
  Forall (fun curve => Vec3.length (sub (v3 curve) (v0 curve))
                       <= segmentLength_max (options g))
         (emitted n g target).
Proof.
  induction n as [|n IH]; intros g target Hsteady; [constructor|].
  rewrite emitted_S.
  destruct (steady_call g target Hsteady) as (Hsteady' & Hopts & _).
  constructor.
  - pose proof (steady_length g Hsteady) as Hlen.
    destruct Hsteady as (Hreach & Hmin & Hmax & Hrand).
    pose proof (nextCurve_shape (options g) (noise2D g) (randoms g (calls g))
                  (heading g) target (reachable_unit _ Hreach) ltac:(lra))
      as (_ & _ & Hchord).
    cbn [call steeringGenerator]. revert Hchord.
    destruct (nextCurve _ _ _ _ _) as [curve h]. cbn [fst snd].
    intros ->. specialize (Hrand (calls g)). nra.
  - rewrite <- Hopts. apply IH, Hsteady'.
Qed.

(** X22. The segments a steering generator in working order emits form
    one smooth path: each segment starts where the one before it ends, and
    leaves along the tangent the one before it arrived with; the first
    starts at the stored point along the stored direction.  (In working
    order: [0 < segmentLength.min <= segmentLength.max] and
    [Math.random()] in [0, 1].) *)
Theorem emitted_chain_smooth (n : nat) (g : GeneratorClosure)
    (target : option Vector3) :
  steady g ->
  (forall first, emitted n g target !! 0%nat = Some first ->
     v0 first = lastPoint (heading g)
     /\ getAnalyticalTangent first 0 = lastDir (heading g))
  /\ forall i a b,
       emitted n g target !! i = Some a ->
       emitted n g target !! S i = Some b ->
       v3 a = v0 b
       /\ getAnalyticalTangent a 1 = getAnalyticalTangent b 0.
Proof.
  revert g. induction n as [|n IH]; intros g Hsteady.
  - simpl. split; intros; discriminate.
  - rewrite emitted_S.
    destruct (steady_call g target Hsteady) as (Hsteady' & _ & Hstart & Hend & _).
    destruct (call_endpoints g target) as [Hfrom Hto].
    destruct (IH (@call steeringGenerator g target).2 Hsteady')
      as [Hfirst Hrest].
    split.
    + intros first Hfirst0.
      assert (Ef : first = (@call steeringGenerator g target).1)
        by (change (Some (@call steeringGenerator g target).1 = Some first)
              in Hfirst0; congruence).
      subst first. split; [exact Hfrom | exact Hstart].
    + intros i a b Ha Hb. destruct i as [|i].
      * assert (Ea : a = (@call steeringGenerator g target).1)
          by (change (Some (@call steeringGenerator g target).1 = Some a) in Ha;
              congruence).
        subst a.
        change (emitted n (@call steeringGenerator g target).2 target !! 0%nat
                = Some b) in Hb.
        destruct (Hfirst b Hb) as [Hb0 Hbt].
        split; [rewrite Hb0, Hto; reflexivity | rewrite Hbt, Hend; reflexivity].
      * exact (Hrest i a b Ha Hb).
Qed.

(** X23. A manager that gets all its segments from a steering generator
    in working order has continuous frames: the cached normal at the last
    sample of every segment is the cached normal at the first sample of the
    next one. *)
Theorem steering_frames_are_continuous options noise2D randoms
    (this : EndlessCurve) :
  0 < segmentLength_min options ->
  segmentLength_min options <= segmentLength_max options ->
  (forall n, 0 <= randoms n <= 1) ->
  driven (createCurveGenerator options noise2D randoms) this ->
  forall i, (S i < List.length (curves this))%nat ->
  exists normal,
    normals (frameCache this) !! (i * (samplesPerCurve + 1) + samplesPerCurve)%nat
    = Some normal
    /\ normals (frameCache this) !! (S i * (samplesPerCurve + 1))%nat
       = Some normal.
Proof.
  intros Hmin Hmax Hrand Hdriven.
  exact (steering_frames_continuous options noise2D randoms this Hmin Hmax
           Hrand Hdriven).
Qed.



End SteeringChain.

(** ** The further properties at concrete inputs *)

Section FurtherWitnesses.
#[local] Existing Instance Straight.straightSegments.
#[local] Existing Instance Straight.straightPath.
Import Snake.

Lemma ahead_length : Curve_getLength Straight.ahead = 3.
Proof.
  cbn. unfold Vec3.length, lengthSq; simpl.
  replace ((3 - 0) * (3 - 0) + (0 - 0) * (0 - 0) + (0 - 0) * (0 - 0))
    with (3 * 3) by ring.
  apply sqrt_square. lra.
Qed.

Lemma chord_within_arc (curve : CubicBezierCurve3) :
  Vec3.length (sub (v3 curve) (v0 curve)) <= Curve_getLength curve.
Proof. simpl. lra. Qed.

Section OverSixes.
#[local] Existing Instance Straight.sixes.


Lemma uValues_arc_fractions_witness :
  exists s1,
    addCurve (constructor (gen := Straight.sixes) (0%nat, 0)) Straight.ahead
    = Some s1
    /\ uValues (frameCache s1) !! 0%nat = Some 0
    /\ last (uValues (frameCache s1)) = Some 1.
Proof.
  destruct (addCurve_spec (constructor (gen := Straight.sixes) (0%nat, 0))
              Straight.ahead) as (s1 & new & Hadd & Hc & _).
  exists s1. split; [exact Hadd|].
  assert (Hbuilt : built s1)
    by exact (built_addCurve _ _ _ (built_constructor _) Hadd).
  assert (Htotal : 0 < arcLength (curves s1)).
  { rewrite Hc. cbn [constructor curves app arcLength].
    rewrite ahead_length. lra. }
  destruct (uValues_arc_fractions s1 Hbuilt straight_nonneg Htotal)
    as (_ & H0 & H1 & _).
  split; assumption.
Defined.

Lemma interpolateNormal_bracket_witness :
  exists s1 nFirst,
    addCurve (constructor (gen := Straight.sixes) (0%nat, 0)) Straight.ahead
    = Some s1
    /\ normals (frameCache s1) !! 0%nat = Some nFirst
    /\ forall uFirst, uValues (frameCache s1) !! 0%nat = Some uFirst ->
         interpolateNormal s1 (uFirst - 1) = Some nFirst.
Proof.
  destruct (addCurve_spec (constructor (gen := Straight.sixes) (0%nat, 0))
              Straight.ahead) as (s1 & new & Hadd & Hc & _).
  assert (Hal : aligned s1)
    by exact (addCurve_aligned _ _ _ (constructor_aligned _) Hadd).
  assert (Hne : curves s1 <> []) by (rewrite Hc; discriminate).
  destruct (interpolateNormal_bracket s1
              (default 0 (uValues (frameCache s1) !! 0%nat) - 1) Hal Hne)
    as (uFirst & uLast & nFirst & nLast & H0 & _ & N0 & _ & Hfirst & _).
  exists s1, nFirst. split; [exact Hadd|]. split; [exact N0|].
  intros u0 Hu0. rewrite Hu0 in H0. injection H0 as <-.
  rewrite Hu0 in Hfirst. apply Hfirst. simpl. lra.
Defined.

Lemma getBasisAt_returns_witness :
  exists s1 basis,
    addCurve (constructor (gen := Straight.sixes) (0%nat, 0)) Straight.ahead
    = Some s1
    /\ getBasisAt s1 (1 / 2) = Some basis
    /\ is_Some (getBasisAtLocal s1 (1 / 2))
    /\ getBasisAt (constructor (gen := Straight.sixes) (0%nat, 0)) (1 / 2)
       = None.
Proof.
  destruct (addCurve_spec (constructor (gen := Straight.sixes) (0%nat, 0))
              Straight.ahead)
    as (s1 & new & Hadd & Hc & _ & Hus & Hul & _).
  assert (Hbuilt : built s1)
    by exact (built_addCurve _ _ _ (built_constructor _) Hadd).
  assert (Hne : curves s1 <> []) by (rewrite Hc; discriminate).
  destruct (getBasisAt_returns s1 (1 / 2) Hbuilt) as (Hin & Hlocal & _).
  destruct (Hin Hne ltac:(lra)) as (p & t & n & _ & _ & _ & Hbasis).
  destruct (getBasisAt_returns
              (constructor (gen := Straight.sixes) (0%nat, 0)) (1 / 2)
              (built_constructor _)) as (_ & _ & Hempty).
  exists s1, (mkBasis p n (normalize t)).
  split; [exact Hadd|]. split; [exact Hbasis|].
  split; [apply (Hlocal Hne); rewrite Hus, Hul; simpl; lra|].
  exact (proj1 (proj2 (Hempty eq_refl))).
Defined.

Lemma normals_unit_or_zero_witness :
  exists s1 normal,
    addCurve (constructor (gen := Straight.sixes) (0%nat, 0)) Straight.ahead
    = Some s1
    /\ List.length (normals (frameCache s1)) = 11%nat
    /\ Forall (fun n => lengthSq n = 1 \/ n = mkV 0 0 0)
         (normals (frameCache s1))
    /\ interpolateNormal s1 (1 / 2) = Some normal
    /\ (lengthSq normal = 1 \/ normal = mkV 0 0 0).
Proof.
  destruct (addCurve_spec (constructor (gen := Straight.sixes) (0%nat, 0))
              Straight.ahead)
    as (s1 & new & Hadd & Hc & _).
  assert (Hbuilt : built s1)
    by exact (built_addCurve _ _ _ (built_constructor _) Hadd).
  assert (Hne : curves s1 <> []) by (rewrite Hc; discriminate).
  pose proof (built_aligned _ Hbuilt) as Hal.
  destruct (interpolateNormal_is_Some s1 Hal Hne (1 / 2)) as [normal Hn].
  destruct (normals_unit_or_zero s1 Hbuilt) as (Hall & _ & Hinterp).
  exists s1, normal. split; [exact Hadd|].
  split; [destruct Hal as [Hlen _]; rewrite Hlen, Hc; reflexivity|].
  split; [exact Hall|]. split; [exact Hn|].
  exact (proj1 (Hinterp (1 / 2) normal Hn)).
Defined.

Lemma fillLength_least_witness :
  exists this' n,
    fillLength 2 (constructor (gen := Straight.sixes) (0%nat, 0)) 7 = Some this'
    /\ curves this' = emitted n (0%nat, 0) None
    /\ 7 - 0 < arcLength (curves this')
    /\ forall m, (m < n)%nat -> arcLength (emitted m (0%nat, 0) None) <= 7 - 0.
Proof.
  destruct (fillLength_enough_fuel 6 7 2 ltac:(lra)
              (constructor (gen := Straight.sixes) (0%nat, 0)))
    as [this' Hfill].
  { intros n. apply sixes_long_enough. }
  { unfold localDistance, getLengthSafe; simpl. lra. }
  destruct (fillLength_least 2 _ this' 7 Hfill)
    as (n & _ & Hc & _ & Hguard & Hleast).
  exists this', n. split; [exact Hfill|]. split; [exact Hc|].
  split; [exact Hguard | exact Hleast].
Defined.

Lemma updateTextures_texels_witness :
  exists s1 posData' normData',
    addCurve (constructor (gen := Straight.sixes) (0%nat, 0)) Straight.ahead
    = Some s1
    /\ updateTextures
         (buildScene newSnakeObject s1
            (mkSnakeOptions None None None None (Some 2%nat)))
       = Some (mkSnakeObject (Some s1) (Some posData') (Some normData') 0
                 (Some 100%nat) (Some 8%nat) (Some 2%nat) 10 2 100 8 0)
    /\ List.length posData' = 8%nat
    /\ List.length normData' = 8%nat
    /\ updateTextures
         (buildScene newSnakeObject
            (constructor (gen := Straight.sixes) (0%nat, 0))
            (mkSnakeOptions None None None None (Some 2%nat)))
       = None.
Proof.
  destruct (addCurve_spec (constructor (gen := Straight.sixes) (0%nat, 0))
              Straight.ahead)
    as (s1 & new & Hadd & Hc & _ & Hus & Hul & _).
  assert (Hbuilt : built s1)
    by exact (built_addCurve _ _ _ (built_constructor _) Hadd).
  assert (Hne : curves s1 <> []) by (rewrite Hc; discriminate).
  destruct (updateTextures_texels
              (buildScene newSnakeObject s1
                 (mkSnakeOptions None None None None (Some 2%nat)))
              s1 (replicate 8 0) (replicate 8 0) 2 eq_refl Hbuilt
              eq_refl eq_refl eq_refl ltac:(lia) eq_refl eq_refl)
    as [Hfull _].
  destruct (Hfull Hne ltac:(rewrite Hus; simpl; lra)
              ltac:(rewrite Hul; simpl; lra))
    as (pos' & norm' & Hrun & Hlp & Hln & _).
  destruct (updateTextures_texels
              (buildScene newSnakeObject
                 (constructor (gen := Straight.sixes) (0%nat, 0))
                 (mkSnakeOptions None None None None (Some 2%nat)))
              (constructor (gen := Straight.sixes) (0%nat, 0))
              (replicate 8 0) (replicate 8 0) 2 eq_refl (built_constructor _)
              eq_refl eq_refl eq_refl ltac:(lia) eq_refl eq_refl)
    as [_ Hempty].
  exists s1, pos', norm'. split; [exact Hadd|]. split; [exact Hrun|].
  split; [exact Hlp|]. split; [exact Hln|]. exact (Hempty eq_refl).
Defined.

Lemma update_samples_window_witness :
  exists this' curve',
    update 3
      (buildScene newSnakeObject (constructor (gen := Straight.sixes) (0%nat, 0))
         (mkSnakeOptions None None None None (Some 2%nat))) 1
    = Some this'
    /\ curve this' = Some curve'
    /\ distance this' = 0 + 1 * 2
    /\ distanceOffset curve' <= distance this'.
Proof.
  destruct (sixes_configure (constructor (gen := Straight.sixes) (0%nat, 0))
              (0 + 1 * 2) 10 3) as [curve' Hcfg].
  { unfold localDistance, getLengthSafe; simpl. lra. }
  destruct (update_samples_window 3
              (buildScene newSnakeObject
                 (constructor (gen := Straight.sixes) (0%nat, 0))
                 (mkSnakeOptions None None None None (Some 2%nat)))
              1 (constructor (gen := Straight.sixes) (0%nat, 0)) curve'
              (replicate 8 0) (replicate 8 0) 2 eq_refl (built_constructor _)
              ltac:(simpl; lra) eq_refl eq_refl eq_refl ltac:(lia) eq_refl
              eq_refl ltac:(simpl; lra) ltac:(simpl; lra) Hcfg)
    as (this' & pos' & norm' & Hrun & Hc & _ & Hd & Hoff & _).
  exists this', curve'. split; [exact Hrun|]. split; [exact Hc|].
  split; [exact Hd | exact Hoff].
Defined.

Lemma Snake_update_keeps_riding_witness :
  riding (buildScene newSnakeObject
            (constructor (gen := Straight.sixes) (0%nat, 0))
            (mkSnakeOptions None None None None (Some 2%nat)))
  /\ ((forall this',
         Snake_update 3
           (buildScene newSnakeObject
              (constructor (gen := Straight.sixes) (0%nat, 0))
              (mkSnakeOptions None None None None (Some 2%nat)))
           (mkV 1 0 0) 1 = Some this' ->
         riding this')
      /\ (Snake_update 3
            (buildScene newSnakeObject
               (constructor (gen := Straight.sixes) (0%nat, 0))
               (mkSnakeOptions None None None None (Some 2%nat)))
            (mkV 1 0 0) 1 = None ->
          fillLength 3
            (setTarget (constructor (gen := Straight.sixes) (0%nat, 0))
               (mkV 1 0 0))
            (0 + 1 * 2 + 10) = None)).
Proof.
  assert (Hriding :
    riding (buildScene newSnakeObject
              (constructor (gen := Straight.sixes) (0%nat, 0))
              (mkSnakeOptions None None None None (Some 2%nat)))).
  { exists (constructor (gen := Straight.sixes) (0%nat, 0)),
           (replicate 8 0), (replicate 8 0), 2%nat.
    split; [reflexivity|]. split; [apply built_constructor|].
    split; [simpl; lra|]. split; [reflexivity|]. split; [reflexivity|].
    split; [reflexivity|]. split; [lia|]. split; [reflexivity|].
    split; [reflexivity|]. split; simpl; lra. }
  split; [exact Hriding|].
  assert (Hdelta : 0 <= 1) by lra.
  destruct (Snake_update_keeps_riding 3 _ (mkV 1 0 0) 1 Hriding Hdelta)
    as [Hsome Hnone].
  split.
  - intros this' Hrun. exact (proj1 (Hsome this' Hrun)).
  - intros Hrun. destruct (Hnone Hrun) as (curve_ & [= <-] & Hfill).
    exact Hfill.
Defined.

Lemma createGeometry_grid_witness :
  exists spineU theta,
    (createGeometry
       (buildScene newSnakeObject
          (constructor (gen := Straight.sixes) (0%nat, 0))
          (mkSnakeOptions None None None None None))).1 !! (99 * 8 + 7)%nat
    = Some spineU
    /\ (createGeometry
          (buildScene newSnakeObject
             (constructor (gen := Straight.sixes) (0%nat, 0))
             (mkSnakeOptions None None None None None))).2 !! (99 * 8 + 7)%nat
       = Some theta
    /\ 0 <= spineU <= 1
    /\ 0 <= theta < 2 * PI.
Proof.
  destruct (createGeometry_grid
              (buildScene newSnakeObject
                 (constructor (gen := Straight.sixes) (0%nat, 0))
                 (mkSnakeOptions None None None None None))
              99 7 ltac:(simpl; lia) ltac:(simpl; lia))
    as (spineU & theta & _ & _ & Hu & Ht & _ & _ & Hur & Htr).
  exists spineU, theta. split; [exact Hu|]. split; [exact Ht|].
  split; assumption.
Defined.

End OverSixes.

Section OverSteering.
#[local] Existing Instance steeringGenerator.

Lemma steady_start :
  steady (createCurveGenerator defaultOptions (fun _ _ => 0) (fun _ => 0)).
Proof.
  apply createCurveGenerator_steady; simpl; intros; lra.
Qed.

Lemma emitted_chain_smooth_witness :
  steady (createCurveGenerator defaultOptions (fun _ _ => 0) (fun _ => 0))
  /\ forall i a b,
       emitted 3 (createCurveGenerator defaultOptions (fun _ _ => 0)
                    (fun _ => 0)) None !! i = Some a ->
       emitted 3 (createCurveGenerator defaultOptions (fun _ _ => 0)
                    (fun _ => 0)) None !! S i = Some b ->
       v3 a = v0 b.
Proof.
  split; [exact steady_start|].
  intros i a b Ha Hb.
  exact (proj1 (proj2 (emitted_chain_smooth 3 _ None steady_start) i a b Ha Hb)).
Defined.

Lemma steering_frames_are_continuous_witness :
  exists fuel filled normal,
    fillLength fuel
      (constructor
         (createCurveGenerator defaultOptions (fun _ _ => 0) (fun _ => 0)))
      9
    = Some filled
    /\ (2 <= List.length (curves filled))%nat
    /\ normals (frameCache filled) !! 10%nat = Some normal
    /\ normals (frameCache filled) !! 11%nat = Some normal.
Proof.
  destruct (steering_fillLength_returns defaultOptions (fun _ _ => 0)
              (fun _ => 0)
              (constructor (gen := steeringGenerator)
                 (createCurveGenerator defaultOptions (fun _ _ => 0)
                    (fun _ => 0)))
              9 chord_within_arc ltac:(simpl; lra) ltac:(simpl; lra)
              ltac:(intros; lra) (driven_constructor _))
    as (fuel & filled & Hfill).
  destruct (fillLength_spec _ _ _ _ Hfill)
    as (n & new & _ & Hc & _ & _ & _ & Hoff & _ & _ & _ & Hguard & _).
  cbn [constructor curves distanceOffset nextCurveFn target app] in Hc, Hoff.
  assert (Hshort : Forall (fun curve => Curve_getLength curve <= 8)
                     (curves filled)).
  { rewrite Hc.
    exact (steady_emitted_max n _ None steady_start). }
  assert (Hsum : forall cs, Forall (fun curve => Curve_getLength curve <= 8) cs ->
                   arcLength cs <= INR (List.length cs) * 8).
  { induction 1 as [|c cs Hc8 _ IH]; [simpl; lra|].
    change (arcLength (c :: cs)) with (Curve_getLength c + arcLength cs).
    change (List.length (c :: cs)) with (S (List.length cs)).
    rewrite S_INR. lra. }
  assert (Htwo : (2 <= List.length (curves filled))%nat).
  { specialize (Hsum _ Hshort).
    rewrite getLengthSafe_arcLength in Hguard. unfold localDistance in Hguard.
    rewrite Hoff in Hguard.
    destruct (List.length (curves filled)) as [|[|k]]; simpl in Hsum;
      [lra | lra | lia]. }
  assert (Hdriven :
    driven (createCurveGenerator defaultOptions (fun _ _ => 0) (fun _ => 0))
      filled)
    by exact (driven_fillLength _ _ _ _ _ (driven_constructor _) Hfill).
  destruct (steering_frames_are_continuous defaultOptions (fun _ _ => 0)
              (fun _ => 0) filled ltac:(simpl; lra) ltac:(simpl; lra)
              ltac:(intros; lra) Hdriven 0%nat ltac:(lia))
    as (normal & Hlast & Hfirst).
  exists fuel, filled, normal. split; [exact Hfill|]. split; [exact Htwo|].
  split; [exact Hlast | exact Hfirst].
Defined.



End OverSteering.

End FurtherWitnesses.

(* ================================================================== *)
(** * Part IV: the window in binary64                                  *)
(* ================================================================== *)

Section Binary64Facts.
Import PrimFloat SpecFloat FloatOps FloatAxioms Binary64.

(** ** The order of binary64 *)

Lemma digits2_pos_bound (m : positive) :
  (Z.pos m < 2 ^ Z.pos (digits2_pos m))%Z.
Proof.
  induction m as [m IH|m IH|]; cbn [digits2_pos].
  - rewrite Pos2Z.inj_succ, Z.pow_succ_r by lia. lia.
  - rewrite Pos2Z.inj_succ, Z.pow_succ_r by lia. lia.
  - reflexivity.
Qed.

(** A finite number of the format: the exponent within the range, the
    mantissa below [2^53]. *)
Lemma valid_finite (s : bool) (m : positive) (e : Z) :
  valid_binary (S754_finite s m e) = true ->
  (emin <= e <= emax - prec /\ Z.pos m < 2 ^ prec)%Z.
Proof.
  cbn [SpecFloat.valid_binary]. unfold bounded, canonical_mantissa, fexp.
  intros H. apply andb_prop in H as [Hc He].
  apply Z.eqb_eq in Hc. apply Z.leb_le in He.
  pose proof (digits2_pos_bound m) as Hd.
  assert (Hdigits : (Z.pos (digits2_pos m) <= prec)%Z) by lia.
  split; [lia|].
  eapply Z.lt_le_trans; [exact Hd|].
  apply Z.pow_le_mono_r; lia.
Qed.

Lemma magnitude_bounds (s : bool) (m : positive) (e : Z) :
  valid_binary (S754_finite s m e) = true ->
  (0 < magnitude m e < top)%Z.
Proof.
  intros Hv. destruct (valid_finite _ _ _ Hv) as [He Hm].
  unfold magnitude, top.
  assert (Hp : (0 < 2 ^ prec)%Z) by (apply Z.pow_pos_nonneg; unfold prec; lia).
  set (P := (2 ^ prec)%Z) in *. clearbody P.
  assert (H1 : (1 * P <= (e - emin + 1) * P)%Z)
    by (apply Z.mul_le_mono_nonneg_r; lia).
  assert (H2 : ((e - emin + 1) * P <= (emax - prec - emin + 1) * P)%Z)
    by (apply Z.mul_le_mono_nonneg_r; lia).
  lia.
Qed.

Lemma magnitude_lt (m1 m2 : positive) (e1 e2 : Z) :
  (Z.pos m1 < 2 ^ prec)%Z ->
  (e1 < e2 \/ (e1 = e2 /\ (m1 < m2)%positive))%Z ->
  (magnitude m1 e1 < magnitude m2 e2)%Z.
Proof.
  intros Hm1 Hlt. unfold magnitude.
  set (P := (2 ^ prec)%Z) in *. clearbody P.
  destruct Hlt as [He|[-> Hm]]; [|lia].
  assert (H : ((e1 - emin + 1 + 1) * P <= (e2 - emin + 1) * P)%Z)
    by (apply Z.mul_le_mono_nonneg_r; lia).
  lia.
Qed.

Lemma top_pos : (0 < top)%Z.
Proof. reflexivity. Qed.

Lemma rank_le_top (f : spec_float) :
  valid_binary f = true -> (rank f <= top)%Z.
Proof.
  intros Hv. pose proof top_pos as Htop.
  destruct f as [s|s| |s m e]; cbn [rank].
  - lia.
  - destruct s; lia.
  - lia.
  - pose proof (magnitude_bounds _ _ _ Hv).
    destruct s; lia.
Qed.

(** [<] of the format is [<] of the ranks. *)
Lemma SFltb_rank (f1 f2 : spec_float) :
  valid_binary f1 = true -> valid_binary f2 = true ->
  SFltb f1 f2 = true -> (rank f1 < rank f2)%Z.
Proof.
  intros Hv1 Hv2 Hlt. unfold SFltb in Hlt. pose proof top_pos as Htop.
  destruct f1 as [s1|s1| |s1 m1 e1], f2 as [s2|s2| |s2 m2 e2];
    cbn [SFcompare] in Hlt; try discriminate; cbn [rank];
    try pose proof (magnitude_bounds _ _ _ Hv1);
    try pose proof (magnitude_bounds _ _ _ Hv2).
  - destruct s2; [discriminate|]. lia.
  - destruct s2; [discriminate|]. lia.
  - destruct s1; [|discriminate]. lia.
  - destruct s1, s2; try discriminate. lia.
  - destruct s1; [|discriminate]. destruct s2; lia.
  - destruct s1; [|discriminate]. lia.
  - destruct s2; [discriminate|]. destruct s1; lia.
  - destruct (valid_finite _ _ _ Hv1) as [_ Hm1].
    destruct (valid_finite _ _ _ Hv2) as [_ Hm2].
    destruct s1, s2; try discriminate.
    + enough (magnitude m2 e2 < magnitude m1 e1)%Z by lia.
      apply magnitude_lt; [assumption|].
      destruct (Z.compare_spec e1 e2) as [Heq|Hlt'|Hgt]; try discriminate.
      * right. split; [congruence|].
        change (PosDef.Pos.compare_cont Eq m1 m2) with (Pos.compare m1 m2)
          in Hlt.
        destruct (Pos.compare_spec m1 m2); try discriminate. assumption.
      * left. assumption.
    + lia.
    + apply magnitude_lt; [assumption|].
      destruct (Z.compare_spec e1 e2) as [Heq|Hlt'|Hgt]; try discriminate.
      * right. split; [assumption|].
        change (PosDef.Pos.compare_cont Eq m1 m2) with (Pos.compare m1 m2)
          in Hlt.
        destruct (Pos.compare_spec m1 m2); try discriminate. assumption.
      * left. assumption.
Qed.

Lemma ltb_rank (a b : float) :
  (a <? b)%float = true ->
  (rank (Prim2SF a) < rank (Prim2SF b) <= top)%Z.
Proof.
  rewrite FloatAxioms.ltb_spec. intros Hlt. split.
  - apply SFltb_rank; auto using FloatAxioms.Prim2SF_valid.
  - apply rank_le_top, FloatAxioms.Prim2SF_valid.
Qed.

(** ** [fillLength] *)

Section Window.
Context {gen : NextCurveFn}.

Lemma binary64_fillLength_unfold (fuel : nat) (this : EndlessCurve) (length : float) :
  fillLength fuel this length =
    if filled this length then Some this
    else match fuel with
         | O => None
         | S fuel => fillLength fuel (extend this) length
         end.
Proof. destruct fuel; reflexivity. Qed.

(** With the guard already true [fillLength] changes nothing and calls no
    generator. *)
Lemma fillLength_filled (fuel : nat) (this : EndlessCurve) (length : float) :
  filled this length = true -> fillLength fuel this length = Some this.
Proof. intros H. rewrite binary64_fillLength_unfold, H. reflexivity. Qed.

(** [fillLength] returns the first of the states [extended n this] that
    passes the guard, when there are calls enough to reach it. *)
Lemma fillLength_first (n : nat) :
  forall (this : EndlessCurve) (length : float),
    (forall m, (m < n)%nat -> filled (extended m this) length = false) ->
    filled (extended n this) length = true ->
    forall fuel,
      fillLength fuel this length =
        if decide (n <= fuel)%nat then Some (extended n this) else None.
Proof.
  induction n as [|n IH]; intros this length Hbefore Hguard fuel.
  - cbn [extended] in *. rewrite fillLength_filled by assumption.
    destruct (decide (0 <= fuel)%nat); [reflexivity|lia].
  - rewrite binary64_fillLength_unfold.
    pose proof (Hbefore 0%nat ltac:(lia)) as Hguard0.
    cbn [extended] in Hguard0. rewrite Hguard0.
    destruct fuel as [|fuel].
    + destruct (decide (S n <= 0)%nat); [lia|reflexivity].
    + cbn [extended] in *.
      rewrite (IH (extend this) length); [| |assumption].
      * destruct (decide (n <= fuel)%nat), (decide (S n <= S fuel)%nat);
          try reflexivity; lia.
      * intros m Hm. apply (Hbefore (S m)). lia.
Qed.

(** A fill that strictly increases the cached length at each of its rounds
    comes to its guard: the cached lengths are numbers of binary64, and
    no chain of these climbs for ever. *)
Lemma fillLength_climbs (k : nat) :
  forall (this : EndlessCurve) (length : float),
    (Z.to_nat (top - rank (Prim2SF (getLengthSafe this))) <= k)%nat ->
    (forall n,
       (forall m, (m <= n)%nat -> filled (extended m this) length = false) ->
       (getLengthSafe (extended n this)
          <? getLengthSafe (extended (S n) this))%float = true) ->
    exists n,
      (forall m, (m < n)%nat -> filled (extended m this) length = false)
      /\ filled (extended n this) length = true.
Proof.
  induction k as [|k IH]; intros this length Hk Hclimb.
  - destruct (filled this length) eqn:Hguard.
    + exists 0%nat. split; [intros m Hm; lia|exact Hguard].
    + exfalso.
      assert (Hup := Hclimb 0%nat). cbn [extended] in Hup.
      specialize (Hup ltac:(intros m Hm; replace m with 0%nat by lia;
                            exact Hguard)).
      apply ltb_rank in Hup. lia.
  - destruct (filled this length) eqn:Hguard.
    + exists 0%nat. split; [intros m Hm; lia|exact Hguard].
    + assert (Hup := Hclimb 0%nat). cbn [extended] in Hup.
      specialize (Hup ltac:(intros m Hm; replace m with 0%nat by lia;
                            exact Hguard)).
      apply ltb_rank in Hup.
      destruct (IH (extend this) length) as (n & Hbefore & Hn).
      * lia.
      * intros n Hn. apply (Hclimb (S n)).
        intros [|m] Hm; [exact Hguard|]. apply Hn. lia.
      * exists (S n). split; [|exact Hn].
        intros [|m] Hm; [exact Hguard|]. apply Hbefore. lia.
Qed.

(** A fill whose guard is false at every round runs out of any number of
    calls. *)
Lemma fillLength_never (fuel : nat) :
  forall (this : EndlessCurve) (length : float),
    (forall n, filled (extended n this) length = false) ->
    fillLength fuel this length = None.
Proof.
  induction fuel as [|fuel IH]; intros this length Hnever;
    rewrite binary64_fillLength_unfold;
    pose proof (Hnever 0%nat) as Hguard; cbn [extended] in Hguard;
    rewrite Hguard; [reflexivity|].
  apply IH. intros n. apply (Hnever (S n)).
Qed.

(** ** [removeCurvesBefore] and [configureStartEnd] *)




End Window.

(** ** Runs *)

Section Runs.

(** The cached length after the [long] segment and any number of [short]
    ones is that of the [long] one alone: the sum absorbs each [short]
    length. *)
Lemma absorbed_sum (k : nat) (sums : float) :
  (sums + Curve_getLength short)%float = sums ->
  List.last (sums :: cumulativeLengths sums (replicate k short)) 0%float
  = sums.
Proof.
  intros Habsorbs. induction k as [|k IH]; [reflexivity|].
  cbn [replicate cumulativeLengths]. rewrite Habsorbs.
  exact IH.
Qed.

Lemma absorbed_extended (n : nat) :
  forall k,
    extended (gen := absorbed) n
      (mkEndlessCurve (gen := absorbed) (long :: replicate k short)
         0 0 1 false None)
    = mkEndlessCurve (gen := absorbed) (long :: replicate (k + n) short)
        0 0 1 false None.
Proof.
  induction n as [|n IH]; intros k.
  - rewrite Nat.add_0_r. reflexivity.
  - cbn [extended]. unfold extend, addCurve.
    cbn [call absorbed nextCurveFn curves distanceOffset uStart uLength target].
    replace ((long :: replicate k short) ++ [short])
      with (long :: replicate (S k) short)
      by (rewrite replicate_S_end; reflexivity).
    rewrite IH. f_equal. f_equal. f_equal. lia.
Qed.

Lemma absorbed_never_filled (n : nat) :
  filled (extended (gen := absorbed) n (constructor (gen := absorbed) true)) 1
  = false.
Proof.
  destruct n as [|n]; [vm_compute; reflexivity|].
  cbn [extended].
  change (extend (constructor (gen := absorbed) true))
    with (mkEndlessCurve (gen := absorbed) (long :: replicate 0 short)
            0 0 1 false None).
  rewrite absorbed_extended.
  unfold filled, getLengthSafe, getLength, getCurveLengths, localDistance.
  cbn [curves distanceOffset cumulativeLengths List.length].
  destruct (decide _) as [Heq|_]; [discriminate|].
  rewrite absorbed_sum by (vm_compute; reflexivity).
  vm_compute. reflexivity.
Qed.

End Runs.

End Binary64Facts.

(** ** The two claims about the computed window *)

Section Binary64Claims.
Import PrimFloat Binary64.

(** C10 (as amended): [fillLength(length)] returns, for every argument,
    under the precondition that each round the recursion takes strictly
    increases the cached total length as the program computes it.  Then
    the guard [localDistance(length) < currentLength] holds after finitely
    many rounds [n], and [fillLength] returns the state after the first
    such [n] whenever it may call the generator [n] times.  The cached
    lengths are numbers of binary64: a strictly increasing chain of them is
    finite, so no lower bound on the increase is needed. *)
Theorem fillLength_terminates {gen : NextCurveFn} (this : EndlessCurve)
    (length : float) :
  (forall n,
     (forall m, (m <= n)%nat -> filled (extended m this) length = false) ->
     (getLengthSafe (extended n this)
        <? getLengthSafe (extended (S n) this))%float = true) ->
  exists n,
    filled (extended n this) length = true
    /\ (forall m, (m < n)%nat -> filled (extended m this) length = false)
    /\ forall fuel,
         fillLength fuel this length =
           if decide (n <= fuel)%nat then Some (extended n this) else None.
Proof.
  intros Hclimb.
  destruct (fillLength_climbs _ this length (Nat.le_refl _) Hclimb)
    as (n & Hbefore & Hguard).
  exists n. split; [exact Hguard|]. split; [exact Hbefore|].
  apply fillLength_first; assumption.
Qed.

Lemma fillLength_terminates_witness :
  exists n,
    filled (extended n (constructor (gen := halves) (1 / 2, 0)%float))
      (3 / 4)%float = true
    /\ (forall m, (m < n)%nat ->
          filled (extended m (constructor (gen := halves) (1 / 2, 0)%float))
            (3 / 4)%float = false)
    /\ forall fuel,
         fillLength fuel (constructor (gen := halves) (1 / 2, 0)%float)
           (3 / 4)%float =
           if decide (n <= fuel)%nat
           then Some (extended n (constructor (gen := halves) (1 / 2, 0)%float))
           else None.
Proof.
  apply (fillLength_terminates (gen := halves)).
  intros n Hbefore.
  destruct (le_lt_dec 3 n) as [Hle|Hlt].
  - specialize (Hbefore 3%nat Hle). vm_compute in Hbefore. discriminate.
  - do 3 (destruct n as [|n]; [vm_compute; reflexivity|]). lia.
Defined.

(** The segments of lengths [1/2], [1/4], [1/8], ...: [fillLength(1)]
    returns with the 46th; the cached length, short of [1] after 45, is
    above it after 46. *)
Lemma halves_fill_after_46 :
  filled (extended 45 (constructor (gen := halves) (1 / 2, 0)%float)) 1
  = false
  /\ fillLength 46 (constructor (gen := halves) (1 / 2, 0)%float) 1
     = Some (extended 46 (constructor (gen := halves) (1 / 2, 0)%float)).
Proof. split; vm_compute; reflexivity. Qed.

(** Every segment of the generator [absorbed] has an arc length above
    zero, and [fillLength(1)] does not return, whatever the number of
    calls: after the first segment the cached length is [0.5], and adding
    the length of a further segment, about [1e-20], gives [0.5] again. *)
Lemma absorbed_never_fills :
  (forall first,
     (0 <? Curve_getLength (call (NextCurveFn := absorbed) first None).1)%float
     = true)
  /\ forall fuel,
       fillLength fuel (constructor (gen := absorbed) true) 1 = None.
Proof.
  split.
  - intros [|]; vm_compute; reflexivity.
  - intros fuel. apply fillLength_never. exact absorbed_never_filled.
Qed.


End Binary64Claims.

Section BothModels.
Import PrimFloat.


End BothModels.

Section BothModelsRuns.
Import PrimFloat.
#[local] Existing Instance Straight.straightSegments.
#[local] Existing Instance Straight.straightPath.


End BothModelsRuns.
